(** * AttentionOS: event bus and plugin manager

    A shallow embedding of [attention/core/event_bus.py] and
    [attention/core/plugin_manager.py], and the properties of the
    specification checked against it.

    Python dictionaries used as maps are [gmap]s, lists are lists, integers
    are [Z].  The bus, the manager, the log, the clock and the configuration
    file make up a [World]; methods that call foreign code or may raise are
    computations over it with an explicit exception result.

    Foreign code is modelled by what the two classes can observe of it.  A
    listener callback returns or raises, possibly depending on the calls made
    before it; it does not call back into the bus.  A plugin hook is a
    sequence of calls on the injected bus followed by a return or an
    exception.  [Exception] is the only kind of exception; the single lock
    of the bus is not modelled, calls are sequential. *)

From stdpp Require Import gmap strings list pretty sorting.

Local Open Scope Z_scope.

(** ** Values and event payloads *)

(** The [Any] values that travel in event payloads and plugin configs. *)
#[warnings="-register-all"]
Inductive Value : Type :=
  | VNone
  | VBool (b : bool)
  | VInt (z : Z)
  | VStr (s : string)
  | VList (l : list Value)
  | VDict (d : list (string * Value)).

(** An event payload: a [dict] whose key order is observable through
    [_record_history], hence an association list. *)
Definition Data : Type := list (string * Value).

(** A plugin configuration: a [dict] compared by content. *)
Abbreviation Config := (gmap string Value).

(** ** Callables *)

(** What a call of foreign code did: it returned, or it raised an
    [Exception] whose [str()] is [msg]. *)
Inductive Outcome : Type :=
  | Returned
  | Raised (msg : string).

(** One invocation [entry["handler"](event, data)], as observed from outside:
    the listener entry that was called and the two arguments. *)
Record Call : Type := {
  c_listener : string;
  c_handler : N;
  c_event : string;
  c_data : Data
}.

(** A callable.  [hid] is [id(handler)], the identity that [is] compares;
    [hcall] says whether the call returns or raises, which may depend on
    every invocation made so far.  The callables described here do not
    themselves call the bus while they run: a listener that subscribes,
    unsubscribes or publishes from inside a dispatch is not covered. *)
Record Handler : Type := {
  hid : N;
  hcall : list Call → string → Data → Outcome
}.

(** ** The listener table *)

(** A listener entry, the [dict] built by [EventBus.on]. *)
Record Entry : Type := {
  l_id : string;
  l_handler : Handler;
  l_priority : Z;
  l_once : bool;
  l_source : string
}.

(** An element of [_event_history]. *)
Record EventRecord : Type := {
  r_event : string;
  r_timestamp : string;
  r_data_keys : list string
}.

Record EventBus : Type := {
  _handlers : gmap string (list Entry);
  _event_history : list EventRecord;
  _history_limit : Z
}.

(** [EventBus.__init__] *)
Definition EventBus_init : EventBus :=
  {| _handlers := ∅; _event_history := []; _history_limit := 100 |}.

(** *** Python list primitives *)

(** [list.sort(key=lambda h: h["priority"])] and [sorted(..., key=...)]:
    Python guarantees a stable sort, of which there is only one result;
    insertion from the right computes it. *)
Fixpoint insert_by_priority (x : Entry) (l : list Entry) : list Entry :=
  match l with
  | [] => [x]
  | y :: l' =>
      if l_priority x <=? l_priority y then x :: y :: l'
      else y :: insert_by_priority x l'
  end.

Definition sort_by_priority (l : list Entry) : list Entry :=
  foldr insert_by_priority [] l.

(** [l[start:]] with Python's treatment of a negative or too large start. *)
Definition slice_from {A : Type} (start : Z) (l : list A) : list A :=
  let n := Z.of_nat (length l) in
  let s := if start <? 0 then Z.max (n + start) 0 else Z.min start n in
  drop (Z.to_nat s) l.

(** *** Subscribing and unsubscribing *)

(** [f"{event}:{id(handler)}:{source}"] *)
Definition listener_id (event : string) (handler : Handler) (source : string)
  : string :=
  event +:+ ":" +:+ pretty (hid handler) +:+ ":" +:+ source.

(** [self._handlers[event]] on the [defaultdict]: a missing key reads as the
    empty list. *)
Definition handlers_of (bus : EventBus) (event : string) : list Entry :=
  default [] (_handlers bus !! event).

Definition set_handlers (bus : EventBus) (event : string) (l : list Entry)
  : EventBus :=
  {| _handlers := <[event := l]> (_handlers bus);
     _event_history := _event_history bus;
     _history_limit := _history_limit bus |}.

(** The [entry] dictionary that [EventBus.on] builds. *)
Definition new_entry (event : string) (handler : Handler) (priority : Z)
    (once : bool) (source : string) : Entry :=
  {| l_id := listener_id event handler source; l_handler := handler;
     l_priority := priority; l_once := once; l_source := source |}.

(** [EventBus.on]: returns the listener id and the updated bus. *)
Definition on (event : string) (handler : Handler) (priority : Z)
    (once : bool) (source : string) (bus : EventBus) : string * EventBus :=
  let entry := new_entry event handler priority once source in
  (l_id entry,
   set_handlers bus event (sort_by_priority (handlers_of bus event ++ [entry]))).

(** [EventBus.off] *)
Definition off (event : string) (handler : option Handler)
    (source : option string) (bus : EventBus) : EventBus :=
  match _handlers bus !! event with
  | None => bus
  | Some l =>
      match handler, source with
      | Some h, _ =>
          set_handlers bus event
            (filter (λ e, hid (l_handler e) ≠ hid h) l)
      | None, Some s =>
          set_handlers bus event (filter (λ e, l_source e ≠ s) l)
      | None, None => set_handlers bus event []
      end
  end.

(** [EventBus.off_all] *)
Definition off_all (source : string) (bus : EventBus) : EventBus :=
  {| _handlers := filter (λ e, l_source e ≠ source) <$> _handlers bus;
     _event_history := _event_history bus;
     _history_limit := _history_limit bus |}.

(** *** History *)

(** [EventBus._record_history]; [timestamp] is what
    [datetime.now().strftime("%H:%M:%S")] returned. *)
Definition _record_history (event : string) (data : Data) (timestamp : string)
    (bus : EventBus) : EventBus :=
  let record := {| r_event := event; r_timestamp := timestamp;
                   r_data_keys := match data with [] => [] | _ => data.*1 end |} in
  let history := _event_history bus ++ [record] in
  {| _handlers := _handlers bus;
     _event_history :=
       if _history_limit bus <? Z.of_nat (length history)
       then slice_from (- _history_limit bus) history
       else history;
     _history_limit := _history_limit bus |}.

(** [EventBus.get_history] *)
Definition get_history (limit : Z) (bus : EventBus) : list EventRecord :=
  slice_from (- limit) (_event_history bus).

(** The metadata rows of [EventBus.get_listeners]. *)
Record ListenerInfo : Type := {
  i_id : string;
  i_source : string;
  i_priority : Z;
  i_event : string
}.

Definition listener_info (event : string) (h : Entry) : ListenerInfo :=
  {| i_id := l_id h; i_source := l_source h; i_priority := l_priority h;
     i_event := event |}.

(** [EventBus.get_listeners]; without an event the rows of all events are
    returned (the order across events is the dictionary's). *)
Definition get_listeners (event : option string) (bus : EventBus)
  : list ListenerInfo :=
  match event with
  | Some ev =>
      if decide (ev = "") then
        map_to_list (_handlers bus) ≫= λ '(evt, hs), listener_info evt <$> hs
      else listener_info ev <$> default [] (_handlers bus !! ev)
  | None =>
      map_to_list (_handlers bus) ≫= λ '(evt, hs), listener_info evt <$> hs
  end.

(** ** Plugins, as the manager sees them *)

(** A call that plugin code makes on the injected [self.event_bus]. *)
Inductive BusCall : Type :=
  | CallOn (event : string) (handler : Handler) (priority : Z) (once : bool)
      (source : string)
  | CallOff (event : string) (handler : option Handler) (source : option string)
  | CallOffAll (source : string)
  | CallEmit (event : string) (data : option Data).

(** The body of a plugin hook: the bus calls it makes, in order, and how it
    ends. *)
Definition Script : Type := list BusCall * Outcome.

(** [PluginMeta] *)
Record PluginMeta : Type := {
  name : string;
  display_name : string;
  description : string;
  version : string;
  author : string;
  plugin_type : string;
  homepage : string;
  tags : list string
}.

(** [PluginMeta.to_dict] *)
Definition to_dict (meta : PluginMeta) : Data :=
  [("name", VStr (name meta)); ("display_name", VStr (display_name meta));
   ("description", VStr (description meta)); ("version", VStr (version meta));
   ("author", VStr (author meta)); ("plugin_type", VStr (plugin_type meta));
   ("homepage", VStr (homepage meta)); ("tags", VList (VStr <$> tags meta))].

(** An instance of a [BasePlugin] subclass.  The hooks may read the injected
    configuration.  [config] is the attribute the manager assigns;
    [on_config_changed] is the base class's assignment of the same mapping,
    followed by what an override adds, seen through its outcome. *)
Record Plugin : Type := {
  get_meta : PluginMeta;
  get_default_config : Config;
  activate : Config → Script;
  deactivate : Config → Script;
  on_config_changed : Config → Outcome;
  config : Config
}.

Definition set_config (merged : Config) (p : Plugin) : Plugin :=
  {| get_meta := get_meta p; get_default_config := get_default_config p;
     activate := activate p; deactivate := deactivate p;
     on_config_changed := on_config_changed p; config := merged |}.

(** A value of [PluginManager._plugins]. *)
Record PluginEntry : Type := {
  instance : Plugin;
  meta : PluginMeta;
  active : bool;
  error : option string;
  dir : string
}.

(** A value of [PluginManager._configs] and of the persisted document: a
    [dict] in which each of the keys ["enabled"] and ["config"] may be
    missing. *)
Record ConfigRecord : Type := {
  enabled : option bool;
  cfg : option Config
}.

Record PluginManager : Type := {
  _plugins : gmap string PluginEntry;
  _configs : gmap string ConfigRecord
}.

(** ** The world the two singletons live in *)

(** The file [data/plugin_configs.json]: absent, present but not readable as
    JSON, or holding a document of the shape [_save_configs] writes, an
    object from plugin names to objects whose ["enabled"] is a boolean and
    whose ["config"] is an object.  JSON of any other shape, which
    [_load_configs] would accept as it is, is not covered. *)
Inductive ConfigFile : Type :=
  | NoFile
  | Unreadable
  | Document (doc : gmap string ConfigRecord).

(** Warnings and errors sent to the logger ([debug] and [info] lines are not
    recorded). *)
Inductive LogRecord : Type :=
  | ListenerError (event source msg : string)
  | LoadFailed (dir_name msg : string)
  | NameConflict (plugin : string)
  | NoSuchPlugin (plugin : string)
  | ActivateFailed (plugin msg : string)
  | DeactivateHookFailed (plugin msg : string)
  | ConfigHookFailed (plugin msg : string)
  | LoadConfigsFailed
  | SaveFailed.

Record World : Type := {
  w_bus : EventBus;
  w_manager : PluginManager;
  w_calls : list Call;
  w_log : list LogRecord;
  (** what [datetime.now().strftime] returns at its n-th call *)
  w_clock : nat → string;
  w_tick : nat;
  (** [PLUGIN_CONFIG_FILE], and whether opening it for writing succeeds *)
  w_config_file : ConfigFile;
  w_writable : bool
}.

Definition with_bus (f : EventBus → EventBus) (w : World) : World :=
  {| w_bus := f (w_bus w); w_manager := w_manager w; w_calls := w_calls w;
     w_log := w_log w; w_clock := w_clock w; w_tick := w_tick w;
     w_config_file := w_config_file w; w_writable := w_writable w |}.

Definition with_manager (f : PluginManager → PluginManager) (w : World)
  : World :=
  {| w_bus := w_bus w; w_manager := f (w_manager w); w_calls := w_calls w;
     w_log := w_log w; w_clock := w_clock w; w_tick := w_tick w;
     w_config_file := w_config_file w; w_writable := w_writable w |}.

Definition add_call (c : Call) (w : World) : World :=
  {| w_bus := w_bus w; w_manager := w_manager w; w_calls := w_calls w ++ [c];
     w_log := w_log w; w_clock := w_clock w; w_tick := w_tick w;
     w_config_file := w_config_file w; w_writable := w_writable w |}.

Definition add_log (r : LogRecord) (w : World) : World :=
  {| w_bus := w_bus w; w_manager := w_manager w; w_calls := w_calls w;
     w_log := w_log w ++ [r]; w_clock := w_clock w; w_tick := w_tick w;
     w_config_file := w_config_file w; w_writable := w_writable w |}.

Definition tick (w : World) : World :=
  {| w_bus := w_bus w; w_manager := w_manager w; w_calls := w_calls w;
     w_log := w_log w; w_clock := w_clock w; w_tick := S (w_tick w);
     w_config_file := w_config_file w; w_writable := w_writable w |}.

Definition write_file (doc : gmap string ConfigRecord) (w : World) : World :=
  {| w_bus := w_bus w; w_manager := w_manager w; w_calls := w_calls w;
     w_log := w_log w; w_clock := w_clock w; w_tick := w_tick w;
     w_config_file := Document doc; w_writable := w_writable w |}.

(** *** Computations that may raise *)

Inductive Result (A : Type) : Type :=
  | Ok (a : A)
  | Exc (msg : string).
Arguments Ok {A} a.
Arguments Exc {A} msg.

Definition M (A : Type) : Type := World → Result A * World.

#[global] Instance M_ret : MRet M := λ A a w, (Ok a, w).
#[global] Instance M_bind : MBind M := λ A B f m w,
  match m w with
  | (Ok a, w') => f a w'
  | (Exc e, w') => (Exc e, w')
  end.

Definition raise {A : Type} (msg : string) : M A := λ w, (Exc msg, w).

(** [try: body except Exception as e: handler(e)] *)
Definition try_except {A : Type} (body : M A) (handler : string → M A) : M A :=
  λ w, match body w with
       | (Ok a, w') => (Ok a, w')
       | (Exc e, w') => handler e w'
       end.

Definition get_bus : M EventBus := λ w, (Ok (w_bus w), w).
Definition get_manager : M PluginManager := λ w, (Ok (w_manager w), w).
Definition update_bus (f : EventBus → EventBus) : M unit :=
  λ w, (Ok (), with_bus f w).
Definition update_manager (f : PluginManager → PluginManager) : M unit :=
  λ w, (Ok (), with_manager f w).
Definition logger (r : LogRecord) : M unit := λ w, (Ok (), add_log r w).
Definition now : M string := λ w, (Ok (w_clock w (w_tick w)), tick w).

(** *** Publishing *)

(** [entry["handler"](event, data)] *)
Definition call_handler (entry : Entry) (event : string) (data : Data)
  : M unit :=
  λ w,
    let c := {| c_listener := l_id entry; c_handler := hid (l_handler entry);
                c_event := event; c_data := data |} in
    match hcall (l_handler entry) (w_calls w) event data with
    | Returned => (Ok (), add_call c w)
    | Raised msg => (Exc msg, add_call c w)
    end.

(** The loop of [emit] over [all_handlers], returning [once_ids]. *)
Fixpoint dispatch (all_handlers : list Entry) (event : string) (data : Data)
    (once_ids : list string) : M (list string) :=
  match all_handlers with
  | [] => mret once_ids
  | entry :: rest =>
      try_except (call_handler entry event data)
        (λ e, logger (ListenerError event (l_source entry) e));;
      dispatch rest event data
        (if l_once entry then once_ids ++ [l_id entry] else once_ids)
  end.

(** The cleanup loop of [emit] over [[event, "*"]]. *)
Definition remove_once (event : string) (once_ids : list string)
    (bus : EventBus) : EventBus :=
  foldl (λ bus evt_key,
           match _handlers bus !! evt_key with
           | Some l => set_handlers bus evt_key
                         (filter (λ h, l_id h ∉ once_ids) l)
           | None => bus
           end)
        bus [event; "*"].

(** The snapshot [emit] takes under the lock. *)
Definition all_handlers (event : string) (bus : EventBus) : list Entry :=
  let exact := default [] (_handlers bus !! event) in
  let wildcard := default [] (_handlers bus !! "*") in
  sort_by_priority (exact ++ wildcard).

(** [EventBus.emit] *)
Definition emit (event : string) (data : option Data) : M unit :=
  let data := default [] data in
  timestamp ← now;
  update_bus (_record_history event data timestamp);;
  bus ← get_bus;
  once_ids ← dispatch (all_handlers event bus) event data [];
  match once_ids with
  | [] => mret ()
  | _ => update_bus (remove_once event once_ids)
  end.

(** ** The plugin manager *)

(** Plugin code running against the injected bus. *)
Definition bus_call (c : BusCall) : M unit :=
  match c with
  | CallOn event handler priority once source =>
      update_bus (λ bus, (on event handler priority once source bus).2)
  | CallOff event handler source => update_bus (off event handler source)
  | CallOffAll source => update_bus (off_all source)
  | CallEmit event data => emit event data
  end.

Fixpoint bus_calls (cs : list BusCall) : M unit :=
  match cs with
  | [] => mret ()
  | c :: cs' => bus_call c;; bus_calls cs'
  end.

Definition run_script (s : Script) : M unit :=
  bus_calls s.1;;
  match s.2 with
  | Returned => mret ()
  | Raised msg => raise msg
  end.

(** The keyword arguments [_update_config] is called with. *)
Inductive Update : Type :=
  | SetEnabled (b : bool)
  | SetConfig (c : Config).

(** [dict.update(updates)] on a record of [_configs]. *)
Definition apply_update (u : Update) (r : ConfigRecord) : ConfigRecord :=
  match u with
  | SetEnabled b => {| enabled := Some b; cfg := cfg r |}
  | SetConfig c => {| enabled := enabled r; cfg := Some c |}
  end.

Definition empty_record : ConfigRecord := {| enabled := None; cfg := None |}.

(** [PluginManager._save_configs].  [Config.ensure_dirs] belongs to
    [attention.config], which is not part of these sources; it is taken to
    succeed.  An [IOError] on writing is logged and swallowed. *)
Definition _save_configs : M unit :=
  λ w, if w_writable w
       then (Ok (), write_file (_configs (w_manager w)) w)
       else (Ok (), add_log SaveFailed w).

(** [PluginManager._update_config] *)
Definition _update_config (name : string) (u : Update) : M unit :=
  update_manager (λ m,
    {| _plugins := _plugins m;
       _configs := <[name := apply_update u
                               (default empty_record (_configs m !! name))]>
                     (_configs m) |});;
  _save_configs.

(** [PluginManager._load_configs]: a file that cannot be read or parsed is
    logged and counts as empty. *)
Definition _load_configs : M (gmap string ConfigRecord) :=
  λ w, match w_config_file w with
       | Document doc => (Ok doc, w)
       | Unreadable => (Ok ∅, add_log LoadConfigsFailed w)
       | NoFile => (Ok ∅, w)
       end.

(** [PluginManager.__init__]: the registry starts empty and the stored
    configuration is read once. *)
Definition PluginManager_init : M unit :=
  configs ← _load_configs;
  update_manager (λ _, {| _plugins := ∅; _configs := configs |}).

(** Assignments to the keys of the registry entry of [name]. *)
Definition update_entry (name : string) (f : PluginEntry → PluginEntry)
  : M unit :=
  update_manager (λ m,
    {| _plugins := alter f name (_plugins m); _configs := _configs m |}).

Definition set_active (a : bool) (e : PluginEntry) : PluginEntry :=
  {| instance := instance e; meta := meta e; active := a; error := error e;
     dir := dir e |}.

Definition set_error (err : option string) (e : PluginEntry) : PluginEntry :=
  {| instance := instance e; meta := meta e; active := active e; error := err;
     dir := dir e |}.

Definition set_instance_config (merged : Config) (e : PluginEntry)
  : PluginEntry :=
  {| instance := set_config merged (instance e); meta := meta e;
     active := active e; error := error e; dir := dir e |}.

(** [PluginManager.activate_plugin] *)
Definition activate_plugin (name : string) : M bool :=
  m ← get_manager;
  match _plugins m !! name with
  | None => logger (NoSuchPlugin name);; mret false
  | Some entry =>
      if active entry then mret true
      else
        try_except
          (run_script (activate (instance entry) (config (instance entry)));;
           update_entry name (set_active true);;
           update_entry name (set_error None);;
           _update_config name (SetEnabled true);;
           emit "plugin.activated" (Some [("name", VStr name)]);;
           mret true)
          (λ e,
             update_entry name (set_error (Some e));;
             logger (ActivateFailed name e);;
             emit "plugin.error"
               (Some [("name", VStr name); ("error", VStr e)]);;
             mret false)
  end.

(** [PluginManager.deactivate_plugin] *)
Definition deactivate_plugin (name : string) : M bool :=
  m ← get_manager;
  match _plugins m !! name with
  | None => mret false
  | Some entry =>
      if negb (active entry) then mret true
      else
        try_except
          (run_script (deactivate (instance entry) (config (instance entry))))
          (λ e, logger (DeactivateHookFailed name e));;
        update_bus (off_all name);;
        update_entry name (set_active false);;
        update_entry name (set_error None);;
        _update_config name (SetEnabled false);;
        emit "plugin.deactivated" (Some [("name", VStr name)]);;
        mret true
  end.

(** [PluginManager.is_active] *)
Definition is_active (name : string) (m : PluginManager) : bool :=
  match _plugins m !! name with
  | Some entry => active entry
  | None => false
  end.

(** [PluginManager.get_plugin] *)
Definition get_plugin (name : string) (m : PluginManager) : option Plugin :=
  instance <$> _plugins m !! name.

(** [PluginManager.update_plugin_config] *)
Definition update_plugin_config (name : string) (new_config : Config)
  : M bool :=
  m ← get_manager;
  match _plugins m !! name with
  | None => mret false
  | Some entry =>
      let merged := new_config ∪ config (instance entry) in
      update_entry name (set_instance_config merged);;
      try_except
        (match on_config_changed (instance entry) merged with
         | Returned => mret ()
         | Raised msg => raise msg
         end)
        (λ e, logger (ConfigHookFailed name e));;
      _update_config name (SetConfig merged);;
      mret true
  end.

(** ** Discovery and loading *)

(** How a class fails to give an instance the loader can register.
    [InitRaises]: an exception before the name check, raised by
    [plugin_class()] or by [get_meta()].  [DefaultsRaise]: both return, the
    metadata being [meta], and an exception follows the name check, where
    [get_default_config()] raises or returns something that
    [{**default_config, **saved_config}] cannot unpack. *)
Inductive NoInstance : Type :=
  | InitRaises (e : string)
  | DefaultsRaise (meta : PluginMeta) (e : string).

(** A class object found in a loaded module.  [cls_new] is what
    [plugin_class()], [get_meta()] and [get_default_config()] lead to: an
    instance on which all three return, or the way they fail. *)
Record PyClass : Type := {
  cls_name : string;               (* attr.__name__ *)
  cls_module : string;             (* attr.__module__ *)
  cls_is_BasePlugin : bool;        (* attr is BasePlugin *)
  cls_issubclass_BasePlugin : bool;
  cls_new : NoInstance + Plugin
}.

(** The value of a module attribute: a type, or anything else. *)
Inductive Attr : Type :=
  | AttrType (c : PyClass)
  | AttrOther.

(** A [plugin.py]: whether [spec_from_file_location] yields a spec with a
    loader, what executing the module does (an exception, or the namespace
    listed as [dir(module)] lists it, each name with its value), and the
    directory it lies in. *)
Record PluginFile : Type := {
  pf_spec : bool;
  pf_exec_module : string + list (string * Attr);
  pf_parent : string
}.

(** [str.startswith] *)
Fixpoint startswith (s prefix : string) : bool :=
  match prefix, s with
  | EmptyString, _ => true
  | String a prefix', String b s' => bool_decide (a = b) && startswith s' prefix'
  | String _ _, EmptyString => false
  end.

(** The condition of the scan in [_load_plugin]. *)
Definition qualifies (module_name : string) (attr : Attr) : option PyClass :=
  match attr with
  | AttrType c =>
      if cls_issubclass_BasePlugin c
         && negb (cls_is_BasePlugin c)
         && negb (startswith (cls_name c) "_")
         && bool_decide (cls_module c = module_name)
      then Some c else None
  | AttrOther => None
  end.

(** The scan itself: the first attribute that qualifies, then [break]. *)
Fixpoint find_plugin_class (module_name : string)
    (namespace : list (string * Attr)) : option PyClass :=
  match namespace with
  | [] => None
  | (_, attr) :: rest =>
      match qualifies module_name attr with
      | Some c => Some c
      | None => find_plugin_class module_name rest
      end
  end.

Definition module_name_of (dir_name : string) : string :=
  "plugins." +:+ dir_name +:+ ".plugin".

(** [PluginManager._load_plugin] *)
Definition _load_plugin (dir_name : string) (plugin_file : PluginFile)
  : M unit :=
  let module_name := module_name_of dir_name in
  if negb (pf_spec plugin_file) then raise "ImportError: cannot load module"
  else
    match pf_exec_module plugin_file with
    | inl e => raise e
    | inr namespace =>
        match find_plugin_class module_name namespace with
        | None => raise "ImportError: no BasePlugin subclass found"
        | Some plugin_class =>
            match cls_new plugin_class with
            | inl (InitRaises e) => raise e
            | inl (DefaultsRaise meta e) =>
                let name := name meta in
                m ← get_manager;
                match _plugins m !! name with
                | Some _ => logger (NameConflict name)
                | None => raise e
                end
            | inr inst =>
                let meta := get_meta inst in
                let name := name meta in
                m ← get_manager;
                match _plugins m !! name with
                | Some _ => logger (NameConflict name)
                | None =>
                    let default_config := get_default_config inst in
                    let saved_config :=
                      default ∅ (default empty_record (_configs m !! name)).(cfg) in
                    let merged := saved_config ∪ default_config in
                    update_manager (λ m,
                      {| _plugins :=
                           <[name := {| instance := set_config merged inst;
                                        meta := meta; active := false;
                                        error := None;
                                        dir := pf_parent plugin_file |}]>
                             (_plugins m);
                         _configs := _configs m |});;
                    (if default false
                          (default empty_record (_configs m !! name)).(enabled)
                     then activate_plugin name;; mret ()
                     else mret ());;
                    emit "plugin.loaded"
                      (Some [("name", VStr name); ("meta", VDict (to_dict meta))])
                end
            end
        end
    end.

(** An entry of a plugin directory: its name, whether it is a directory, and
    its [plugin.py] when that exists. *)
Record Candidate : Type := {
  cand_name : string;
  cand_is_dir : bool;
  cand_plugin_file : option PluginFile
}.

(** The inner loop of [discover_plugins] over [sorted(plugin_dir.iterdir())]. *)
Fixpoint discover_candidates (candidates : list Candidate) : M unit :=
  match candidates with
  | [] => mret ()
  | candidate :: rest =>
      (if negb (cand_is_dir candidate) then mret ()
       else if startswith (cand_name candidate) "_"
               || startswith (cand_name candidate) "."
       then mret ()
       else
         match cand_plugin_file candidate with
         | None => mret ()
         | Some plugin_file =>
             try_except (_load_plugin (cand_name candidate) plugin_file)
               (λ e, logger (LoadFailed (cand_name candidate) e))
         end);;
      discover_candidates rest
  end.

(** A path of [plugin_dirs].  Nothing exists there; or it is a directory
    whose sorted listing is gone through to the end; or the visit stops
    with an exception raised outside the [try]: by [exists()] or
    [iterdir()] on the path itself (a regular file, a directory that may not
    be read), [candidates] being empty, or by [is_dir()] or [exists()] on
    an entry, after the entries [candidates] before it were gone through. *)
Inductive PluginDir : Type :=
  | Missing
  | Listing (candidates : list Candidate)
  | Stops (candidates : list Candidate) (e : string).

(** [PluginManager.discover_plugins].  Only the call of [_load_plugin] is
    inside the [try]; an exception of the listing or of the tests on an
    entry leaves the method. *)
Fixpoint discover_plugins (plugin_dirs : list PluginDir) : M unit :=
  match plugin_dirs with
  | [] => mret ()
  | Missing :: rest => discover_plugins rest
  | Listing candidates :: rest =>
      discover_candidates candidates;; discover_plugins rest
  | Stops candidates e :: _ => discover_candidates candidates;; raise e
  end.

(** ** The effect of a publish, in closed form *)

Definition call_of (event : string) (data : Data) (entry : Entry) : Call :=
  {| c_listener := l_id entry; c_handler := hid (l_handler entry);
     c_event := event; c_data := data |}.

(** The world after one listener was called inside [emit]'s [try]. *)
Definition after_call (entry : Entry) (event : string) (data : Data)
    (w : World) : World :=
  match hcall (l_handler entry) (w_calls w) event data with
  | Returned => add_call (call_of event data entry) w
  | Raised msg =>
      add_log (ListenerError event (l_source entry) msg)
        (add_call (call_of event data entry) w)
  end.

Fixpoint dispatch_world (l : list Entry) (event : string) (data : Data)
    (w : World) : World :=
  match l with
  | [] => w
  | entry :: rest => dispatch_world rest event data (after_call entry event data w)
  end.

Definition once_ids_of (l : list Entry) : list string :=
  l_id <$> filter (λ h, l_once h) l.

Definition emit_world (event : string) (data : option Data) (w : World)
  : World :=
  let d := default [] data in
  let w1 := with_bus (_record_history event d (w_clock w (w_tick w))) (tick w) in
  let snapshot := all_handlers event (w_bus w1) in
  let w2 := dispatch_world snapshot event d w1 in
  match once_ids_of snapshot with
  | [] => w2
  | ids => with_bus (remove_once event ids) w2
  end.


(** ** Vocabulary of the history properties *)

(** The [n] most recent elements of a list kept oldest first. *)
Definition most_recent {A : Type} (n : nat) (l : list A) : list A :=
  drop (length l - n) l.

(** The record that [publish(event, data)] leaves in the history when the
    clock reads [timestamp]. *)
Definition record_of (timestamp : string) (p : string * option Data)
  : EventRecord :=
  {| r_event := p.1; r_timestamp := timestamp;
     r_data_keys := (default [] p.2).*1 |}.

(** The records of consecutive publishes, the first at tick [t]. *)
Fixpoint records_of (clock : nat → string) (t : nat)
    (ps : list (string * option Data)) : list EventRecord :=
  match ps with
  | [] => []
  | p :: rest => record_of (clock t) p :: records_of clock (S t) rest
  end.

(** Consecutive publishes. *)
Fixpoint publish_all (ps : list (string * option Data)) : M unit :=
  match ps with
  | [] => mret ()
  | p :: rest => emit p.1 p.2;; publish_all rest
  end.

Definition publish_all_world (ps : list (string * option Data)) (w : World)
  : World :=
  foldl (λ w p, emit_world p.1 p.2 w) w ps.

(** ** Concrete worlds for the examples *)

(** A process that has just created the two singletons: nothing subscribed,
    nothing registered, no configuration file yet, a writable data
    directory, and a clock that always reads noon. *)
Definition fresh_world : World :=
  {| w_bus := EventBus_init;
     w_manager := {| _plugins := ∅; _configs := ∅ |};
     w_calls := []; w_log := [];
     w_clock := λ _, "12:00:00"; w_tick := 0;
     w_config_file := NoFile; w_writable := true |}.

(** ** Reachable states of the bus *)

(** The worlds in which the bus was created by [EventBus.__init__] and then
    only used through its methods. *)
Inductive bus_reachable : World → Prop :=
  | reachable_init (w : World) :
      w_bus w = EventBus_init → bus_reachable w
  | reachable_call (w : World) (c : BusCall) :
      bus_reachable w → bus_reachable (bus_call c w).2.

(** The character that separates the three parts of a listener id. *)
Definition colon : Ascii.ascii :=
  Eval cbv in match ":" with String c _ => c | EmptyString => Ascii.zero end.

Fixpoint no_colon (s : string) : Prop :=
  match s with
  | EmptyString => True
  | String c s' => c ≠ colon ∧ no_colon s'
  end.

(** Every entry filed under [event] carries the id computed from that event,
    its handler's identity and its source. *)
Definition ids_by_identity (bus : EventBus) : Prop :=
  ∀ event l x, _handlers bus !! event = Some l → x ∈ l →
    l_id x = listener_id event (l_handler x) (l_source x).

(** A callable at address 7 that returns normally. *)
Definition quiet_handler : Handler :=
  {| hid := 7; hcall := λ _ _ _, Returned |}.

(** The bus after [on("e", quiet_handler, source="p")] was called once, and
    twice. *)
Definition subscribed_once : string * EventBus :=
  on "e" quiet_handler 100 false "p" EventBus_init.

Definition subscribed_twice : string * EventBus :=
  on "e" quiet_handler 100 false "p" subscribed_once.2.

(** The entry those calls file under ["e"]. *)
Definition entry_e7p : Entry :=
  {| l_id := "e:7:p"; l_handler := quiet_handler; l_priority := 100;
     l_once := false; l_source := "p" |}.

(** ** Vocabulary of the ordering properties *)

Definition prio_le (x y : Entry) : Prop := l_priority x ≤ l_priority y.

(** The listeners of priority [p], in the order of the list. *)
Definition with_priority (p : Z) (l : list Entry) : list Entry :=
  filter (λ x, l_priority x = p) l.

(** The live subscriptions, oldest first, each with the event it was
    registered for: what the table would be if it were one list kept in
    registration order. *)
Abbreviation Journal := (list (string * Entry)).

(** The listeners registered for [event], in registration order. *)
Definition subscribed (j : Journal) (event : string) : list Entry :=
  (filter (λ p, p.1 = event) j).*2.

(** A publish of [event] reaches the listeners of [event] and of ["*"]. *)
Definition reached (event : string) (p : string * Entry) : Prop :=
  p.1 = event ∨ p.1 = "*".

(** The effect of a bus call on the journal. *)
Definition journal_call (c : BusCall) (j : Journal) : Journal :=
  match c with
  | CallOn event handler priority once source =>
      j ++ [(event, new_entry event handler priority once source)]
  | CallOff event (Some h) _ =>
      filter (λ p, ¬ (p.1 = event ∧ hid (l_handler p.2) = hid h)) j
  | CallOff event None (Some s) =>
      filter (λ p, ¬ (p.1 = event ∧ l_source p.2 = s)) j
  | CallOff event None None => filter (λ p, p.1 ≠ event) j
  | CallOffAll s => filter (λ p, l_source p.2 ≠ s) j
  | CallEmit event _ =>
      let fired := once_ids_of (subscribed j event ++ subscribed j "*") in
      filter (λ p, ¬ (reached event p ∧ l_id p.2 ∈ fired)) j
  end.

(** A sequence of bus calls, on the world and on the journal. *)
Definition run_calls (cs : list BusCall) (w : World) : World :=
  foldl (λ w c, (bus_call c w).2) w cs.

Definition journal_of (cs : list BusCall) : Journal :=
  foldl (λ j c, journal_call c j) [] cs.

(** The order the specification asks for: the listeners a publish reaches,
    by priority, ties broken by registration sequence over the whole merged
    set (a stable sort of the merged set taken in registration order). *)
Definition merged_by_registration (j : Journal) (event : string) : list Entry :=
  sort_by_priority (filter (reached event) j).*2.

(** The table agrees with the journal: each per-event list is the journal's
    listeners of that event, stably sorted by priority. *)
Definition tracks (bus : EventBus) (j : Journal) : Prop :=
  ∀ event, handlers_of bus event = sort_by_priority (subscribed j event).

(** What [off] keeps of the list of its event. *)
Definition off_keeps (handler : option Handler) (source : option string)
    (e : Entry) : Prop :=
  match handler, source with
  | Some h, _ => hid (l_handler e) ≠ hid h
  | None, Some s => l_source e ≠ s
  | None, None => False
  end.

#[local] Instance off_keeps_dec handler source e :
  Decision (off_keeps handler source e).
Proof. destruct handler; [|destruct source]; simpl; apply _. Defined.


(** ** Concrete subscriptions for the examples *)

(** A callable at address [n] that returns normally. *)
Definition handler_at (n : N) : Handler :=
  {| hid := n; hcall := λ _ _ _, Returned |}.

(** Priorities 10, 5, 5, 20 registered in that order on ["e"]; the handler
    addresses 1 to 4 tell the registration order. *)
Definition four_listeners : list BusCall :=
  [CallOn "e" (handler_at 1) 10 false ""; CallOn "e" (handler_at 2) 5 false "";
   CallOn "e" (handler_at 3) 5 false ""; CallOn "e" (handler_at 4) 20 false ""].

(** A listener of priority 100 on ["e"] (address 1), then a wildcard
    listener of priority 1 (address 2). *)
Definition event_then_wildcard : list BusCall :=
  [CallOn "e" (handler_at 1) 100 false ""; CallOn "*" (handler_at 2) 1 false ""].

(** A wildcard listener (address 1), then a listener on ["e"] (address 2),
    both of priority 5. *)
Definition tie_calls : list BusCall :=
  [CallOn "*" (handler_at 1) 5 false ""; CallOn "e" (handler_at 2) 5 false ""].

(** The handler addresses of a dispatch list. *)
Definition addresses (l : list Entry) : list N := (λ e, hid (l_handler e)) <$> l.

(** ** Vocabulary of the fault-isolation property *)

(** The error lines a dispatch over [l] writes, given the calls made before
    it started: one for each listener whose handler raises, carrying the
    listener's source. *)
Fixpoint dispatch_errors (calls : list Call) (l : list Entry) (event : string)
    (data : Data) : list LogRecord :=
  match l with
  | [] => []
  | x :: rest =>
      match hcall (l_handler x) calls event data with
      | Returned => []
      | Raised msg => [ListenerError event (l_source x) msg]
      end ++ dispatch_errors (calls ++ [call_of event data x]) rest event data
  end.

(** A callable at address [n] that always raises. *)
Definition failing_handler (n : N) : Handler :=
  {| hid := n; hcall := λ _ _ _, Raised "boom" |}.

(** Three listeners on ["e"], the first of which raises. *)
Definition first_of_three_fails : list BusCall :=
  [CallOn "e" (failing_handler 1) 100 false "a";
   CallOn "e" (handler_at 2) 100 false "b";
   CallOn "e" (handler_at 3) 100 false "c"].

(** One one-shot listener on the wildcard. *)
Definition wildcard_once : list BusCall :=
  [CallOn "*" (handler_at 1) 100 true "s"].

(** One one-shot listener on ["e"]. *)
Definition event_once : list BusCall :=
  [CallOn "e" (handler_at 1) 100 true "s"].

(** ** Vocabulary of the plugin properties *)

(** The listeners tagged with [source], as [get_listeners()] reports them. *)
Definition listeners_tagged (source : string) (bus : EventBus)
  : list ListenerInfo :=
  filter (λ i, i_source i = source) (get_listeners None bus).

(** No list of the table holds an entry of [source]. *)
Definition no_listeners_of (source : string) (bus : EventBus) : Prop :=
  ∀ event x, x ∈ handlers_of bus event → l_source x ≠ source.

(** [_update_config] in closed form. *)
Definition update_config_world (name : string) (u : Update) (w : World)
  : World :=
  let w1 :=
    with_manager (λ m,
      {| _plugins := _plugins m;
         _configs := <[name := apply_update u
                                 (default empty_record (_configs m !! name))]>
                       (_configs m) |}) w in
  if w_writable w1 then write_file (_configs (w_manager w1)) w1
  else add_log SaveFailed w1.

(** The stored record of a plugin, and the [enabled] and [config] keys the
    persisted document holds for it. *)
Definition stored_enabled (doc : gmap string ConfigRecord) (name : string)
  : option bool :=
  doc !! name ≫= enabled.

Definition stored_config (doc : gmap string ConfigRecord) (name : string)
  : option Config :=
  doc !! name ≫= cfg.

Definition persisted (w : World) : gmap string ConfigRecord :=
  match w_config_file w with
  | Document doc => doc
  | Unreadable | NoFile => ∅
  end.

(** ** Concrete plugins for the examples *)

Definition meta_named (n : string) : PluginMeta :=
  {| name := n; display_name := n; description := ""; version := "0.1.0";
     author := ""; plugin_type := "general"; homepage := ""; tags := [] |}.

(** A plugin named ["p"] whose [activate()] subscribes two listeners and
    whose [deactivate()] does nothing. *)
Definition two_listener_plugin : Plugin :=
  {| get_meta := meta_named "p";
     get_default_config := ∅;
     activate := λ _,
       ([CallOn "e" (handler_at 1) 100 false "p";
         CallOn "f" (handler_at 2) 100 false "p"], Returned);
     deactivate := λ _, ([], Returned);
     on_config_changed := λ _, Returned;
     config := ∅ |}.

(** The world in which that plugin is registered and active, and the
    configuration file says so. *)
Definition active_world : World :=
  {| w_bus := (on "f" (handler_at 2) 100 false "p"
                 (on "e" (handler_at 1) 100 false "p" EventBus_init).2).2;
     w_manager :=
       {| _plugins := {[ "p" := {| instance := two_listener_plugin;
                                   meta := meta_named "p"; active := true;
                                   error := None; dir := "plugins/p" |} ]};
          _configs := {[ "p" := {| enabled := Some true; cfg := None |} ]} |};
     w_calls := []; w_log := [];
     w_clock := λ _, "12:00:00"; w_tick := 0;
     w_config_file :=
       Document {[ "p" := {| enabled := Some true; cfg := None |} ]};
     w_writable := true |}.

(** The same world on a file system that refuses the write. *)
Definition read_only_active_world : World :=
  {| w_bus := w_bus active_world; w_manager := w_manager active_world;
     w_calls := []; w_log := [];
     w_clock := λ _, "12:00:00"; w_tick := 0;
     w_config_file := w_config_file active_world;
     w_writable := false |}.

(** What activation and publishing leave alone in the manager: the plugin
    instances with their configuration, the stored [config] of every
    plugin, and the writability of the file. *)
Definition keeps_configs (w w' : World) : Prop :=
  (∀ k, instance <$> _plugins (w_manager w') !! k
        = instance <$> _plugins (w_manager w) !! k)
  ∧ (∀ k, stored_config (_configs (w_manager w')) k
          = stored_config (_configs (w_manager w)) k)
  ∧ w_writable w' = w_writable w.

(** A plugin named ["q"] whose [activate()] subscribes one listener and then
    raises. *)
Definition half_activating_plugin : Plugin :=
  {| get_meta := meta_named "q";
     get_default_config := ∅;
     activate := λ _,
       ([CallOn "e" (handler_at 1) 100 false "q"], Raised "cannot start");
     deactivate := λ _, ([], Returned);
     on_config_changed := λ _, Returned;
     config := ∅ |}.

(** A public subclass of [BasePlugin] named [cls], defined in the
    [plugin.py] of directory [dir_name], whose instances behave as [p]. *)
Definition plugin_class (dir_name cls : string) (p : Plugin) : PyClass :=
  {| cls_name := cls; cls_module := module_name_of dir_name;
     cls_is_BasePlugin := false; cls_issubclass_BasePlugin := true;
     cls_new := inr p |}.

(** A [plugin.py] of directory [dir_name] that imports fine and defines
    [namespace]. *)
Definition plugin_file (dir_name : string) (namespace : list (string * Attr))
  : PluginFile :=
  {| pf_spec := true; pf_exec_module := inr namespace;
     pf_parent := "plugins/" +:+ dir_name |}.

(** The world after the plugin ["q"] was discovered and registered. *)
Definition registered_world : World :=
  (_load_plugin "q"
     (plugin_file "q"
        [("QPlugin", AttrType (plugin_class "q" "QPlugin" half_activating_plugin))])
     fresh_world).2.

(** A plugin named ["ab"] that declares the defaults [{"a": 1, "b": 2}]. *)
Definition ab_plugin : Plugin :=
  {| get_meta := meta_named "ab";
     get_default_config := {[ "a" := VInt 1; "b" := VInt 2 ]};
     activate := λ _, ([], Returned);
     deactivate := λ _, ([], Returned);
     on_config_changed := λ _, Returned;
     config := ∅ |}.

Definition ab_file : PluginFile :=
  plugin_file "ab" [("AbPlugin", AttrType (plugin_class "ab" "AbPlugin" ab_plugin))].

(** A manager constructed over a configuration file that holds
    [{"a": 9}] for ["ab"]; the file system accepts writes or not. *)
Definition ab_world (writable : bool) : World :=
  (PluginManager_init
    {| w_bus := EventBus_init;
       w_manager := {| _plugins := ∅; _configs := ∅ |};
       w_calls := []; w_log := [];
       w_clock := λ _, "12:00:00"; w_tick := 0;
       w_config_file :=
         Document {[ "ab" := {| enabled := None;
                                cfg := Some {[ "a" := VInt 9 ]} |} ]};
       w_writable := writable |}).2.

(** ** Vocabulary of the loader properties *)

(** The classes of a module that pass the loader's test, in the order of
    [dir(module)]. *)
Definition qualifying (module_name : string) (namespace : list (string * Attr))
  : list PyClass :=
  omap (λ a, qualifies module_name a.2) namespace.

(** Registered plugins stay registered. *)
Definition registry_grows (w w' : World) : Prop :=
  ∀ n, is_Some (_plugins (w_manager w) !! n) →
       is_Some (_plugins (w_manager w') !! n).

(** A directory entry that discovery does not skip and whose unit can be
    loaded: the module imports, some class qualifies, and the first one that
    does can be instantiated and gives its metadata and its defaults, the
    instance being [inst]. *)
Definition loadable (cand : Candidate) (inst : Plugin) : Prop :=
  cand_is_dir cand = true
  ∧ startswith (cand_name cand) "_" = false
  ∧ startswith (cand_name cand) "." = false
  ∧ ∃ file namespace c rest,
      cand_plugin_file cand = Some file
      ∧ pf_spec file = true
      ∧ pf_exec_module file = inr namespace
      ∧ qualifying (module_name_of (cand_name cand)) namespace = c :: rest
      ∧ cls_new c = inr inst.

(** A path that discovery gets past: nothing exists there, or it is a
    directory whose entries can all be listed and examined. *)
Definition completes (d : PluginDir) : Prop :=
  match d with Stops _ _ => False | _ => True end.

(** Two plugins, named ["first"] and ["second"]. *)
Definition first_plugin : Plugin :=
  {| get_meta := meta_named "first"; get_default_config := ∅;
     activate := λ _, ([], Returned); deactivate := λ _, ([], Returned);
     on_config_changed := λ _, Returned; config := ∅ |}.

Definition second_plugin : Plugin :=
  {| get_meta := meta_named "second"; get_default_config := ∅;
     activate := λ _, ([], Returned); deactivate := λ _, ([], Returned);
     on_config_changed := λ _, Returned; config := ∅ |}.

(** A [plugin.py] that defines two public subclasses of [BasePlugin],
    [Alpha] and [Beta], and imports [BasePlugin] itself. *)
Definition two_class_namespace : list (string * Attr) :=
  [("Alpha", AttrType (plugin_class "two" "Alpha" first_plugin));
   ("BasePlugin",
    AttrType {| cls_name := "BasePlugin";
                cls_module := "attention.core.plugin_interface";
                cls_is_BasePlugin := true; cls_issubclass_BasePlugin := true;
                cls_new := inl (InitRaises "TypeError: abstract class") |});
   ("Beta", AttrType (plugin_class "two" "Beta" second_plugin));
   ("__name__", AttrOther)].

Definition two_class_file : PluginFile := plugin_file "two" two_class_namespace.

(** A plugin directory with a unit that defines no plugin class, followed by
    the unit of ["ab"]. *)
Definition broken_then_ab : list Candidate :=
  [{| cand_name := "aa"; cand_is_dir := true;
      cand_plugin_file := Some (plugin_file "aa" [("__name__", AttrOther)]) |};
   {| cand_name := "ab"; cand_is_dir := true;
      cand_plugin_file := Some ab_file |}].

(** A unit whose only class can be instantiated and names itself ["nd"],
    but whose [get_default_config()] raises. *)
Definition no_defaults_file : PluginFile :=
  plugin_file "nd"
    [("Nd", AttrType
       {| cls_name := "Nd"; cls_module := module_name_of "nd";
          cls_is_BasePlugin := false; cls_issubclass_BasePlugin := true;
          cls_new := inl (DefaultsRaise (meta_named "nd")
                            "KeyError: 'defaults'") |})].

(** A plugins directory holding the unit without defaults twice (once
    under a name that discovery skips), the broken unit and ["ab"]. *)
Definition nd_listing : list Candidate :=
  {| cand_name := "_nd"; cand_is_dir := true;
     cand_plugin_file := Some no_defaults_file |}
  :: {| cand_name := "nd"; cand_is_dir := true;
        cand_plugin_file := Some no_defaults_file |}
  :: broken_then_ab.

(** Plugin paths: one where nothing exists and the directory above; and the
    same followed by a regular file. *)
Definition complete_dirs : list PluginDir := [Missing; Listing nd_listing].

Definition mixed_dirs : list PluginDir :=
  complete_dirs ++ [Stops [] "NotADirectoryError: plugins.txt"].

(** * Further vocabulary *)

(** ** Invariants of the bus *)

(** Every list of the table is in ascending priority. *)
Definition table_sorted (bus : EventBus) : Prop :=
  ∀ event, StronglySorted prio_le (handlers_of bus event).

(** The history respects the limit set by [__init__]. *)
Definition history_bounded (bus : EventBus) : Prop :=
  _history_limit bus = 100 ∧ (length (_event_history bus) ≤ 100)%nat.

(** Five subscriptions, one publish and one removal by source; the
    listeners at addresses 4 and 5 are left under ["e"]. *)
Definition mixed_calls : list BusCall :=
  [CallOn "e" (handler_at 1) 20 false "a"; CallOn "e" (handler_at 2) 10 true "b";
   CallOn "*" (handler_at 3) 10 false "a"; CallOn "e" (handler_at 5) 30 false "c";
   CallOn "e" (handler_at 4) 5 false "c"; CallEmit "e" None; CallOffAll "a"].

(** ** The lifecycle methods in closed form *)

(** The world after [activate_plugin(name)] found [entry] inactive and its
    [activate()] returned. *)
Definition activated_world (name : string) (entry : PluginEntry) (w : World)
  : World :=
  let script := activate (instance entry) (config (instance entry)) in
  emit_world "plugin.activated" (Some [("name", VStr name)])
    (update_config_world name (SetEnabled true)
       (with_manager (λ m,
          {| _plugins := alter (set_error None) name
                           (alter (set_active true) name (_plugins m));
             _configs := _configs m |})
          (run_calls script.1 w))).

(** The world after [activate_plugin(name)] found [entry] inactive and its
    [activate()] raised [msg]. *)
Definition activation_failed_world (name msg : string) (entry : PluginEntry)
    (w : World) : World :=
  let script := activate (instance entry) (config (instance entry)) in
  emit_world "plugin.error" (Some [("name", VStr name); ("error", VStr msg)])
    (add_log (ActivateFailed name msg)
       (with_manager (λ m,
          {| _plugins := alter (set_error (Some msg)) name (_plugins m);
             _configs := _configs m |})
          (run_calls script.1 w))).

(** The world after [deactivate_plugin(name)] found [entry] active. *)
Definition deactivated_world (name : string) (entry : PluginEntry) (w : World)
  : World :=
  let script := deactivate (instance entry) (config (instance entry)) in
  let w1 := match script.2 with
            | Returned => run_calls script.1 w
            | Raised msg =>
                add_log (DeactivateHookFailed name msg) (run_calls script.1 w)
            end in
  emit_world "plugin.deactivated" (Some [("name", VStr name)])
    (update_config_world name (SetEnabled false)
       (with_manager (λ m,
          {| _plugins := alter (set_error None) name
                           (alter (set_active false) name (_plugins m));
             _configs := _configs m |})
          (with_bus (off_all name) w1))).

(** The world after [update_plugin_config(name, new_config)] found [entry]. *)
Definition config_updated_world (name : string) (new_config : Config)
    (entry : PluginEntry) (w : World) : World :=
  let merged := new_config ∪ config (instance entry) in
  let w0 := with_manager (λ m,
              {| _plugins := alter (set_instance_config merged) name (_plugins m);
                 _configs := _configs m |}) w in
  update_config_world name (SetConfig merged)
    match on_config_changed (instance entry) merged with
    | Returned => w0
    | Raised msg => add_log (ConfigHookFailed name msg) w0
    end.

(** The plugin ["p"] registered but not active, nothing subscribed. *)
Definition inactive_world : World :=
  {| w_bus := EventBus_init;
     w_manager :=
       {| _plugins := {[ "p" := {| instance := two_listener_plugin;
                                   meta := meta_named "p"; active := false;
                                   error := None; dir := "plugins/p" |} ]};
          _configs := ∅ |};
     w_calls := []; w_log := [];
     w_clock := λ _, "12:00:00"; w_tick := 0;
     w_config_file := NoFile; w_writable := true |}.

(** A plugin named ["h"] whose [on_config_changed] raises. *)
Definition hook_failing_plugin : Plugin :=
  {| get_meta := meta_named "h";
     get_default_config := {[ "a" := VInt 1 ]};
     activate := λ _, ([], Returned);
     deactivate := λ _, ([], Returned);
     on_config_changed := λ _, Raised "bad value";
     config := {[ "a" := VInt 1 ]} |}.

(** [hook_failing_plugin] registered, next to a stored record of another
    plugin. *)
Definition hook_world : World :=
  {| w_bus := EventBus_init;
     w_manager :=
       {| _plugins := {[ "h" := {| instance := hook_failing_plugin;
                                   meta := meta_named "h"; active := false;
                                   error := None; dir := "plugins/h" |} ]};
          _configs := {[ "other" := {| enabled := Some true;
                                       cfg := Some {[ "k" := VInt 3 ]} |} ]} |};
     w_calls := []; w_log := [];
     w_clock := λ _, "12:00:00"; w_tick := 0;
     w_config_file := NoFile; w_writable := true |}.

(** ** Loading in closed form, and restarting *)

(** The registry entry [_load_plugin] creates for [inst]. *)
Definition fresh_entry (plugin_file : PluginFile) (inst : Plugin)
    (m : PluginManager) : PluginEntry :=
  let name := name (get_meta inst) in
  {| instance :=
       set_config (default ∅ (stored_config (_configs m) name)
                   ∪ get_default_config inst) inst;
     meta := get_meta inst; active := false; error := None;
     dir := pf_parent plugin_file |}.

(** The world after [_load_plugin] instantiated [inst] and found its name
    free: the entry is registered, the plugin activated when the store says
    it was enabled, and [plugin.loaded] published. *)
Definition loaded_world (plugin_file : PluginFile) (inst : Plugin) (w : World)
  : World :=
  let name := name (get_meta inst) in
  let w0 := with_manager (λ m,
              {| _plugins := <[name := fresh_entry plugin_file inst (w_manager w)]>
                               (_plugins m);
                 _configs := _configs m |}) w in
  emit_world "plugin.loaded"
    (Some [("name", VStr name); ("meta", VDict (to_dict (get_meta inst)))])
    (if default false (stored_enabled (_configs (w_manager w)) name)
     then (activate_plugin name w0).2 else w0).

(** A new process over the same file system: a fresh bus, and a manager
    constructed by [PluginManager.__init__], which reads the configuration
    file. *)
Definition restart (w : World) : World :=
  (PluginManager_init
     {| w_bus := EventBus_init;
        w_manager := {| _plugins := ∅; _configs := ∅ |};
        w_calls := []; w_log := [];
        w_clock := w_clock w; w_tick := w_tick w;
        w_config_file := w_config_file w; w_writable := w_writable w |}).2.

(** Two units, in directories ["one"] and ["two"], whose plugins both call
    themselves ["first"]. *)
Definition one_file : PluginFile :=
  plugin_file "one" [("One", AttrType (plugin_class "one" "One" first_plugin))].

Definition dup_file : PluginFile :=
  plugin_file "dup" [("Dup", AttrType (plugin_class "dup" "Dup" first_plugin))].

(** The unit of the plugin ["p"]. *)
Definition p_file : PluginFile :=
  plugin_file "p" [("P", AttrType (plugin_class "p" "P" two_listener_plugin))].

(** ** Vocabulary of discovery *)

(** The directory entries [discover_plugins] does not skip: directories
    whose name starts neither with an underscore nor with a dot and that
    contain a [plugin.py]. *)
Definition eligible (c : Candidate) : bool :=
  cand_is_dir c
  && negb (startswith (cand_name c) "_")
  && negb (startswith (cand_name c) ".")
  && bool_decide (is_Some (cand_plugin_file c)).

(** The eligible entries that discovery gets to, in the order it visits
    them: those of the directories that exist, up to the point where a
    visit stops. *)
Fixpoint eligible_units (plugin_dirs : list PluginDir) : list Candidate :=
  match plugin_dirs with
  | [] => []
  | Missing :: rest => eligible_units rest
  | Listing candidates :: rest =>
      filter (λ c, eligible c) candidates ++ eligible_units rest
  | Stops candidates _ :: _ => filter (λ c, eligible c) candidates
  end.

(** The exception of the first path whose visit stops, if there is one. *)
Fixpoint first_stop (plugin_dirs : list PluginDir) : option string :=
  match plugin_dirs with
  | [] => None
  | Stops _ e :: _ => Some e
  | _ :: rest => first_stop rest
  end.

(** A plugins directory as shipped: the template and a hidden directory,
    both holding a valid unit, a stray file, an empty directory, and the
    unit of ["ab"]. *)
Definition shipped_listing : list Candidate :=
  [{| cand_name := ".git"; cand_is_dir := true; cand_plugin_file := Some p_file |};
   {| cand_name := "README.md"; cand_is_dir := false; cand_plugin_file := None |};
   {| cand_name := "_template"; cand_is_dir := true;
      cand_plugin_file := Some one_file |};
   {| cand_name := "ab"; cand_is_dir := true; cand_plugin_file := Some ab_file |};
   {| cand_name := "empty"; cand_is_dir := true; cand_plugin_file := None |}].

(** ** [deactivate_all] *)

(** [PluginManager.deactivate_all].  [keys] is [list(self._plugins.keys())],
    the registered names in the dictionary's order, which the [gmap] of the
    registry does not record; a name missing from the registry would be a
    [KeyError]. *)
Fixpoint deactivate_all (keys : list string) : M unit :=
  match keys with
  | [] => mret ()
  | name :: rest =>
      m ← get_manager;
      match _plugins m !! name with
      | None => raise "KeyError"
      | Some entry =>
          (if active entry then deactivate_plugin name;; mret () else mret ());;
          deactivate_all rest
      end
  end.

(** Two registered plugins, both active. *)
Definition two_active_world : World :=
  {| w_bus := (on "f" (handler_at 2) 100 false "second"
                 (on "e" (handler_at 1) 100 false "first" EventBus_init).2).2;
     w_manager :=
       {| _plugins :=
            {[ "first" := {| instance := first_plugin; meta := meta_named "first";
                             active := true; error := None;
                             dir := "plugins/first" |};
               "second" := {| instance := second_plugin;
                              meta := meta_named "second"; active := true;
                              error := None; dir := "plugins/second" |} ]};
          _configs := ∅ |};
     w_calls := []; w_log := [];
     w_clock := λ _, "12:00:00"; w_tick := 0;
     w_config_file := NoFile; w_writable := true |}.

(** ** [plugin_interface.py]: the specialised base classes *)

(** [meta.plugin_type = t] *)
Definition with_plugin_type (t : string) (m : PluginMeta) : PluginMeta :=
  {| name := name m; display_name := display_name m;
     description := description m; version := version m; author := author m;
     plugin_type := t; homepage := homepage m; tags := tags m |}.

(** A subclass of [AnalyzerPlugin] that provides [_get_meta] and [analyze]
    (and possibly defaults) and inherits the rest. *)
Definition AnalyzerPlugin (_get_meta : PluginMeta) (analyze : Handler)
    (default_config : Config) : Plugin :=
  {| get_meta := with_plugin_type "analyzer" _get_meta;
     get_default_config := default_config;
     activate := λ _,
       ([CallOn "monitor.cycle_complete" analyze 50 false
           (name (with_plugin_type "analyzer" _get_meta))], Returned);
     deactivate := λ _, ([], Returned);
     on_config_changed := λ _, Returned;
     config := ∅ |}.

(** A subclass of [NudgePlugin] that provides [_get_meta] and
    [handle_nudge]. *)
Definition NudgePlugin (_get_meta : PluginMeta) (handle_nudge : Handler)
    (default_config : Config) : Plugin :=
  {| get_meta := with_plugin_type "nudge" _get_meta;
     get_default_config := default_config;
     activate := λ _,
       ([CallOn "nudge.triggered" handle_nudge 100 false
           (name (with_plugin_type "nudge" _get_meta))], Returned);
     deactivate := λ _, ([], Returned);
     on_config_changed := λ _, Returned;
     config := ∅ |}.

(** A subclass of [ReporterPlugin] that provides [_get_meta] and
    [handle_review]. *)
Definition ReporterPlugin (_get_meta : PluginMeta) (handle_review : Handler)
    (default_config : Config) : Plugin :=
  {| get_meta := with_plugin_type "reporter" _get_meta;
     get_default_config := default_config;
     activate := λ _,
       ([CallOn "review.generated" handle_review 100 false
           (name (with_plugin_type "reporter" _get_meta))], Returned);
     deactivate := λ _, ([], Returned);
     on_config_changed := λ _, Returned;
     config := ∅ |}.

(** The three base classes that subscribe on their own, with the event,
    priority and type each of them fixes. *)
Inductive Specialisation : Type := Analyzer | Nudge | Reporter.

Definition specialised (k : Specialisation)
  : PluginMeta → Handler → Config → Plugin :=
  match k with
  | Analyzer => AnalyzerPlugin
  | Nudge => NudgePlugin
  | Reporter => ReporterPlugin
  end.

Definition canonical_event (k : Specialisation) : string :=
  match k with
  | Analyzer => "monitor.cycle_complete"
  | Nudge => "nudge.triggered"
  | Reporter => "review.generated"
  end.

Definition fixed_priority (k : Specialisation) : Z :=
  match k with Analyzer => 50 | Nudge | Reporter => 100 end.

Definition type_name (k : Specialisation) : string :=
  match k with
  | Analyzer => "analyzer"
  | Nudge => "nudge"
  | Reporter => "reporter"
  end.

(** The entries of [source] in a list. *)
Definition of_source (source : string) (l : list Entry) : list Entry :=
  filter (λ x, l_source x = source) l.

(** An analyzer plugin named ["mood"], registered and inactive, next to a
    listener of another module on the same event. *)
Definition analyzer_world : World :=
  {| w_bus := (on "monitor.cycle_complete" (handler_at 8) 100 false "ui"
                 EventBus_init).2;
     w_manager :=
       {| _plugins :=
            {[ "mood" := {| instance := AnalyzerPlugin (meta_named "mood")
                                          (handler_at 1) ∅;
                            meta := with_plugin_type "analyzer" (meta_named "mood");
                            active := false; error := None;
                            dir := "plugins/mood" |} ]};
          _configs := ∅ |};
     w_calls := []; w_log := [];
     w_clock := λ _, "12:00:00"; w_tick := 0;
     w_config_file := NoFile; w_writable := true |}.

(** ** Unsubscribing by source, and the listing *)

(** [off(event, source=source)] called for each of [events] in turn. *)
Definition off_each (source : string) (events : list string) (bus : EventBus)
  : EventBus :=
  foldl (λ b ev, off ev None (Some source) b) bus events.

(** The rows of a listing that are filed under [event]. *)
Definition rows_of (event : string) (rows : list ListenerInfo)
  : list ListenerInfo :=
  filter (λ i, i_event i = event) rows.

(** Listeners of the sources ["a"] and ["b"] on the events ["e"], ["f"] and
    ["*"]. *)
Definition three_events : list BusCall :=
  [CallOn "e" (handler_at 1) 10 false "a"; CallOn "e" (handler_at 2) 5 false "b";
   CallOn "f" (handler_at 3) 5 false "a"; CallOn "*" (handler_at 4) 1 true "b"].
(** * Properties *)

(** ** What a publish does to the world *)

Lemma dispatch_run l event data once_ids w :
  dispatch l event data once_ids w
  = (Ok (once_ids ++ once_ids_of l), dispatch_world l event data w).
Proof.
  revert once_ids w.
  induction l as [|entry rest IH]; intros once_ids w; simpl.
  - unfold once_ids_of. simpl. by rewrite app_nil_r.
  - unfold mbind, M_bind, try_except, call_handler, after_call, logger.
    unfold once_ids_of. rewrite filter_cons.
    destruct (hcall (l_handler entry) (w_calls w) event data);
      rewrite IH; destruct (l_once entry); simpl;
      by rewrite <- ?app_assoc.
Qed.

Lemma emit_run event data w :
  emit event data w = (Ok (), emit_world event data w).
Proof.
  unfold emit, emit_world, mbind, M_bind, now, update_bus, get_bus. simpl.
  rewrite dispatch_run. simpl.
  by destruct (once_ids_of _).
Qed.

(** Listener calls leave everything but the trace and the log alone. *)
Lemma dispatch_world_bus l event data w :
  w_bus (dispatch_world l event data w) = w_bus w.
Proof.
  revert w. induction l as [|x l IH]; intros w; simpl; [done|].
  rewrite IH. unfold after_call. by destruct (hcall _ _ _ _).
Qed.

Lemma dispatch_world_manager l event data w :
  w_manager (dispatch_world l event data w) = w_manager w.
Proof.
  revert w. induction l as [|x l IH]; intros w; simpl; [done|].
  rewrite IH. unfold after_call. by destruct (hcall _ _ _ _).
Qed.

Lemma dispatch_world_file l event data w :
  w_config_file (dispatch_world l event data w) = w_config_file w
  ∧ w_writable (dispatch_world l event data w) = w_writable w.
Proof.
  revert w. induction l as [|x l IH]; intros w; simpl; [done|].
  destruct (IH (after_call x event data w)) as [-> ->].
  unfold after_call. by destruct (hcall _ _ _ _).
Qed.

Lemma dispatch_world_clock l event data w :
  w_clock (dispatch_world l event data w) = w_clock w
  ∧ w_tick (dispatch_world l event data w) = w_tick w.
Proof.
  revert w. induction l as [|x l IH]; intros w; simpl; [done|].
  destruct (IH (after_call x event data w)) as [-> ->].
  unfold after_call. by destruct (hcall _ _ _ _).
Qed.

Lemma dispatch_world_calls l event data w :
  w_calls (dispatch_world l event data w)
  = w_calls w ++ (call_of event data <$> l).
Proof.
  revert w. induction l as [|x l IH]; intros w; simpl.
  - by rewrite app_nil_r.
  - rewrite IH. unfold after_call.
    destruct (hcall _ _ _ _); simpl; by rewrite <- app_assoc.
Qed.

(** ** The event history *)

Lemma slice_from_0 {A : Type} (l : list A) : slice_from 0 l = l.
Proof.
  unfold slice_from. simpl.
  by replace (Z.min 0 (Z.of_nat (length l))) with 0 by lia.
Qed.

Lemma slice_from_neg {A : Type} (k : Z) (l : list A) :
  0 < k → slice_from (- k) l = most_recent (Z.to_nat k) l.
Proof.
  intros Hk. unfold slice_from, most_recent.
  destruct (Z.ltb_spec (- k) 0); [|lia].
  f_equal. lia.
Qed.

Lemma most_recent_all {A : Type} (n : nat) (l : list A) :
  (length l ≤ n)%nat → most_recent n l = l.
Proof.
  intros H. unfold most_recent.
  by replace (length l - n)%nat with 0%nat by lia.
Qed.

Lemma length_most_recent {A : Type} (n : nat) (l : list A) :
  length (most_recent n l) = (length l `min` n)%nat.
Proof. unfold most_recent. rewrite length_drop. lia. Qed.

Lemma most_recent_app_l {A : Type} (n : nat) (l k : list A) :
  most_recent n (most_recent n l ++ k) = most_recent n (l ++ k).
Proof.
  destruct (decide (length l ≤ n)%nat) as [Hl|Hl].
  { by rewrite (most_recent_all n l). }
  unfold most_recent at 1 3. rewrite !length_app, length_most_recent.
  destruct (decide (length k ≤ n)%nat) as [Hk|Hk].
  - rewrite !drop_app_le by (rewrite ?length_most_recent; lia).
    f_equal. unfold most_recent. rewrite drop_drop. f_equal. lia.
  - rewrite !drop_app_ge by (rewrite ?length_most_recent; lia).
    rewrite length_most_recent. f_equal. lia.
Qed.

Lemma most_recent_app {A : Type} (n : nat) (l k : list A) :
  (n ≤ length k)%nat → most_recent n (l ++ k) = most_recent n k.
Proof.
  intros H. unfold most_recent. rewrite length_app.
  rewrite drop_app_ge by lia. f_equal. lia.
Qed.

Lemma data_keys_fst (data : Data) :
  match data with [] => [] | _ => data.*1 end = data.*1.
Proof. by destruct data. Qed.

(** One [_record_history] appends the record and keeps the newest hundred. *)
Lemma record_history_history event data ts bus :
  _history_limit bus = 100 →
  _event_history (_record_history event (default [] data) ts bus)
  = most_recent 100 (_event_history bus ++ [record_of ts (event, data)]).
Proof.
  intros Hlim. unfold _record_history, record_of. simpl.
  rewrite Hlim, data_keys_fst.
  set (h := _event_history bus ++ _).
  destruct (Z.ltb_spec 100 (Z.of_nat (length h))).
  - rewrite (slice_from_neg 100); [done|lia].
  - rewrite most_recent_all; [done|lia].
Qed.

Lemma remove_once_history event ids bus :
  _event_history (remove_once event ids bus) = _event_history bus
  ∧ _history_limit (remove_once event ids bus) = _history_limit bus.
Proof.
  unfold remove_once. simpl.
  destruct (_handlers bus !! event); simpl;
    by destruct (_ !! "*").
Qed.

Lemma emit_world_history event data w :
  _event_history (w_bus (emit_world event data w))
  = _event_history
      (_record_history event (default [] data) (w_clock w (w_tick w)) (w_bus w))
  ∧ _history_limit (w_bus (emit_world event data w)) = _history_limit (w_bus w).
Proof.
  unfold emit_world.
  destruct (once_ids_of _); simpl;
    rewrite ?(proj1 (remove_once_history _ _ _)), ?(proj2 (remove_once_history _ _ _));
    by rewrite dispatch_world_bus.
Qed.

Lemma emit_world_clock event data w :
  w_clock (emit_world event data w) = w_clock w
  ∧ w_tick (emit_world event data w) = S (w_tick w).
Proof.
  unfold emit_world.
  destruct (once_ids_of _); simpl;
    by rewrite (proj1 (dispatch_world_clock _ _ _ _)), (proj2 (dispatch_world_clock _ _ _ _)).
Qed.

Lemma publish_all_run ps w :
  publish_all ps w = (Ok (), publish_all_world ps w).
Proof.
  revert w. induction ps as [|p ps IH]; intros w; simpl; [done|].
  unfold mbind, M_bind. by rewrite emit_run, IH.
Qed.

Lemma length_records_of clock t ps : length (records_of clock t ps) = length ps.
Proof. revert t. induction ps; intros t; simpl; by rewrite ?IHps. Qed.

(** The buffer after a run of publishes: the newest hundred of everything
    recorded so far. *)
Lemma publish_all_history ps w :
  _history_limit (w_bus w) = 100 →
  (length (_event_history (w_bus w)) ≤ 100)%nat →
  _event_history (w_bus (publish_all_world ps w))
  = most_recent 100
      (_event_history (w_bus w) ++ records_of (w_clock w) (w_tick w) ps).
Proof.
  revert w. induction ps as [|p ps IH]; intros w Hlim Hlen; simpl.
  - rewrite app_nil_r. by rewrite most_recent_all.
  - destruct (emit_world_history p.1 p.2 w) as [Hh Hl].
    destruct (emit_world_clock p.1 p.2 w) as [Hc Ht].
    assert (Hrec := record_history_history p.1 p.2 (w_clock w (w_tick w)) _ Hlim).
    rewrite IH.
    + rewrite Hh, Hc, Ht, Hrec.
      replace (p.1, p.2) with p by by destruct p.
      set (h := _event_history (w_bus w)). set (r := record_of _ p).
      set (rs := records_of _ _ ps).
      replace (h ++ r :: rs) with ((h ++ [r]) ++ rs) by by rewrite <- app_assoc.
      apply most_recent_app_l.
    + congruence.
    + rewrite Hh, Hrec, length_most_recent. lia.
Qed.

(** C10.  Whatever the history holds, [get_history(0)] returns all of it:
    the slice start [-0] is [0], the beginning of the list. *)
Theorem get_history_zero_returns_all (bus : EventBus) :
  get_history 0 bus = _event_history bus.
Proof. unfold get_history. apply slice_from_0. Qed.

(** C9 at [limit = 0]: after one publish the history holds one record and
    [get_history(0)] returns it, whereas the zero most recent records are
    none. *)
Theorem get_history_zero_not_most_recent :
  get_history 0 (w_bus (emit_world "e" None fresh_world))
  = [record_of "12:00:00" ("e", None)]
  ∧ most_recent (Z.to_nat 0)
      (_event_history (w_bus (emit_world "e" None fresh_world))) = []
  ∧ get_history 0 (w_bus (emit_world "e" None fresh_world))
    ≠ most_recent (Z.to_nat 0)
        (_event_history (w_bus (emit_world "e" None fresh_world))).
Proof. split; [reflexivity|]. split; [reflexivity|]. vm_compute. discriminate. Qed.

(** X3.  The history as a bounded buffer, for limits of at least one.  After any
    run of publishes the history holds the newest hundred of the records
    written so far, oldest first; after 150 publishes [get_history(1000)] is
    exactly the hundred records of the last hundred publishes in publishing
    order; and for every [limit] of at least one [get_history(limit)] is the
    [limit] most recent records (all of them when there are fewer), newest
    last. *)
Theorem history_bounded_fifo (w : World) (ps : list (string * option Data))
    (limit : Z) :
  _history_limit (w_bus w) = 100 →
  (length (_event_history (w_bus w)) ≤ 100)%nat →
  let w' := publish_all_world ps w in
  let recorded := records_of (w_clock w) (w_tick w) ps in
  publish_all ps w = (Ok (), w')
  ∧ _event_history (w_bus w')
    = most_recent 100 (_event_history (w_bus w) ++ recorded)
  ∧ (length ps = 150%nat →
     get_history 1000 (w_bus w') = drop 50 recorded
     ∧ length (get_history 1000 (w_bus w')) = 100%nat)
  ∧ (1 ≤ limit →
     get_history limit (w_bus w')
     = most_recent (Z.to_nat limit) (_event_history (w_bus w'))).
Proof.
  intros Hlim Hlen w' recorded.
  assert (Hh := publish_all_history ps w Hlim Hlen). fold w' recorded in Hh.
  split; [apply publish_all_run|]. split; [done|]. split.
  - intros Hps.
    assert (Hr : length recorded = 150%nat)
      by (unfold recorded; by rewrite length_records_of).
    assert (Hd : _event_history (w_bus w') = drop 50 recorded).
    { rewrite Hh, most_recent_app by lia. unfold most_recent. by rewrite Hr. }
    unfold get_history. rewrite (slice_from_neg 1000) by lia.
    rewrite most_recent_all; rewrite Hd, ?length_drop, ?Hr; [done|lia].
  - intros Hpos. unfold get_history. by rewrite slice_from_neg by lia.
Qed.

Lemma history_bounded_fifo_witness :
  length (get_history 1000
            (w_bus (publish_all_world (replicate 150 ("e", None)) fresh_world)))
  = 100%nat.
Proof.
  destruct (history_bounded_fifo fresh_world (replicate 150 ("e", None)) 1000)
    as (_ & _ & H & _).
  - reflexivity.
  - simpl. lia.
  - apply H. reflexivity.
Defined.

(** ** Sorting by priority *)

Lemma insert_by_priority_perm x l : insert_by_priority x l ≡ₚ x :: l.
Proof.
  induction l as [|y l IH]; simpl; [done|].
  destruct (l_priority x <=? l_priority y); [done|].
  by rewrite IH, Permutation_swap.
Qed.

Lemma sort_by_priority_perm l : sort_by_priority l ≡ₚ l.
Proof.
  induction l as [|x l IH]; simpl; [done|].
  by rewrite insert_by_priority_perm, IH.
Qed.

Lemma elem_of_sort_by_priority x l : x ∈ sort_by_priority l ↔ x ∈ l.
Proof. by rewrite sort_by_priority_perm. Qed.

(** ** Listener ids *)

Lemma append_inj_l (p a b : string) : p +:+ a = p +:+ b → a = b.
Proof. induction p as [|c p IH]; simpl; [done|]. intros [= H]. auto. Qed.

Lemma append_colon_inj (a b s t : string) :
  no_colon a → no_colon b →
  a +:+ String colon s = b +:+ String colon t → a = b ∧ s = t.
Proof.
  revert b. induction a as [|c a IH]; intros [|d b]; simpl.
  - intros _ _ [= ->]. done.
  - intros _ [Hd _] [= Hc _]. by destruct Hd.
  - intros [Hc _] _ [= Hd _]. by destruct Hc.
  - intros [_ Ha] [_ Hb] [= -> H]. destruct (IH b Ha Hb H) as [-> ->]. done.
Qed.

Lemma pretty_N_go_no_colon (x : N) (s : string) :
  no_colon s → no_colon (pretty_N_go x s).
Proof.
  revert s. induction (N.lt_wf_0 x) as [x _ IH]; intros s Hs.
  destruct (decide (x = 0)%N) as [->|Hx].
  - by rewrite pretty_N_go_0.
  - rewrite pretty_N_go_step by lia. apply IH.
    + apply N.div_lt; lia.
    + simpl. split; [|done].
      unfold pretty_N_char. repeat case_match; discriminate.
Qed.

Lemma pretty_N_no_colon (x : N) : no_colon (pretty x).
Proof.
  unfold pretty, pretty_N. case_decide.
  - simpl. split; [discriminate|done].
  - by apply pretty_N_go_no_colon.
Qed.

(** Under one event name the id determines the handler identity and the
    source, and nothing else. *)
Lemma listener_id_inj event h h' s s' :
  listener_id event h s = listener_id event h' s' ↔ hid h = hid h' ∧ s = s'.
Proof.
  unfold listener_id. split.
  - intros H. apply append_inj_l in H. simpl in H. injection H as H.
    apply append_colon_inj in H; try apply pretty_N_no_colon.
    destruct H as [H ->]. by apply (inj pretty) in H.
  - by intros [-> ->].
Qed.

Lemma ids_by_identity_set_handlers bus event l :
  ids_by_identity bus →
  (∀ x, x ∈ l → l_id x = listener_id event (l_handler x) (l_source x)) →
  ids_by_identity (set_handlers bus event l).
Proof.
  intros Hbus Hl ev l' x. unfold set_handlers. simpl.
  destruct (decide (event = ev)) as [->|Hne].
  - rewrite lookup_insert_eq. intros [= <-]. apply Hl.
  - rewrite lookup_insert_ne by done. apply Hbus.
Qed.

Lemma ids_by_identity_on event h p o s bus :
  ids_by_identity bus → ids_by_identity (on event h p o s bus).2.
Proof.
  intros Hbus. apply ids_by_identity_set_handlers; [done|].
  intros x. rewrite elem_of_sort_by_priority, elem_of_app, list_elem_of_singleton.
  intros [Hx| ->]; [|done].
  unfold handlers_of in Hx.
  destruct (_handlers bus !! event) as [l|] eqn:Hl; simpl in Hx.
  - by apply (Hbus event l).
  - by apply elem_of_nil in Hx.
Qed.

Lemma ids_by_identity_off event h s bus :
  ids_by_identity bus → ids_by_identity (off event h s bus).
Proof.
  intros Hbus. unfold off.
  destruct (_handlers bus !! event) as [l|] eqn:Hl; [|done].
  destruct h as [h|]; [|destruct s as [s|]];
    apply ids_by_identity_set_handlers; try done; intros x;
    rewrite ?list_elem_of_filter, ?elem_of_nil; try tauto;
    intros [_ Hx]; by apply (Hbus event l).
Qed.

Lemma ids_by_identity_off_all s bus :
  ids_by_identity bus → ids_by_identity (off_all s bus).
Proof.
  intros Hbus ev l x. unfold off_all. simpl. rewrite lookup_fmap.
  destruct (_handlers bus !! ev) as [l'|] eqn:Hl; simpl; [|done].
  intros [= <-]. rewrite list_elem_of_filter. intros [_ Hx].
  by apply (Hbus ev l').
Qed.

Lemma ids_by_identity_record_history event data ts bus :
  ids_by_identity bus → ids_by_identity (_record_history event data ts bus).
Proof. intros Hbus ev l x. simpl. apply Hbus. Qed.

Lemma ids_by_identity_remove_once event ids bus :
  ids_by_identity bus → ids_by_identity (remove_once event ids bus).
Proof.
  intros Hbus. unfold remove_once. simpl.
  assert (Hstep : ∀ b k, ids_by_identity b →
    ids_by_identity
      match _handlers b !! k with
      | Some l => set_handlers b k (filter (λ h, l_id h ∉ ids) l)
      | None => b
      end).
  { intros b k Hb. destruct (_handlers b !! k) as [l|] eqn:Hl; [|done].
    apply ids_by_identity_set_handlers; [done|].
    intros x. rewrite list_elem_of_filter. intros [_ Hx]. by apply (Hb k l). }
  by apply Hstep, Hstep.
Qed.

Lemma ids_by_identity_emit event data w :
  ids_by_identity (w_bus w) → ids_by_identity (w_bus (emit_world event data w)).
Proof.
  intros Hbus. unfold emit_world.
  destruct (once_ids_of _); simpl; rewrite dispatch_world_bus; simpl;
    try apply ids_by_identity_remove_once;
    by apply ids_by_identity_record_history.
Qed.

Lemma bus_call_run c w : ∃ w', bus_call c w = (Ok (), w').
Proof.
  destruct c; simpl; try (eexists; reflexivity).
  rewrite emit_run. by eexists.
Qed.

Lemma ids_by_identity_reachable w :
  bus_reachable w → ids_by_identity (w_bus w).
Proof.
  induction 1 as [w Hw|w c _ IH].
  - rewrite Hw. intros ev l x. simpl. by rewrite lookup_empty.
  - destruct c; simpl.
    + by apply ids_by_identity_on.
    + by apply ids_by_identity_off.
    + by apply ids_by_identity_off_all.
    + rewrite emit_run. simpl. by apply ids_by_identity_emit.
Qed.

(** C1 as stated fails: subscribing the same handler twice to the same
    event with the same source returns the same id twice, and the table then
    holds two entries with that id. *)
Lemma subscribe_twice_same_id :
  subscribed_once.1 = subscribed_twice.1
  ∧ l_id <$> handlers_of subscribed_twice.2 "e" = ["e:7:p"; "e:7:p"]
  ∧ ¬ NoDup (l_id <$> handlers_of subscribed_twice.2 "e").
Proof.
  split; [reflexivity|]. split; [reflexivity|].
  change (l_id <$> handlers_of subscribed_twice.2 "e") with ["e:7:p"; "e:7:p"].
  rewrite NoDup_cons, list_elem_of_singleton. tauto.
Qed.

(** C1, amended.  In every state reached through the bus's methods, the id
    of an entry is the text [event:id(handler):source], which is also what
    [on] returns; hence two entries under one event name have the same id
    exactly when they have the same handler identity and the same source. *)
Theorem listener_ids_follow_identity (w : World) (event : string)
    (x y : Entry) (h : Handler) (priority : Z) (once : bool) (source : string) :
  bus_reachable w →
  x ∈ handlers_of (w_bus w) event →
  y ∈ handlers_of (w_bus w) event →
  (on event h priority once source (w_bus w)).1 = listener_id event h source
  ∧ l_id x = listener_id event (l_handler x) (l_source x)
  ∧ (l_id x = l_id y
     ↔ hid (l_handler x) = hid (l_handler y) ∧ l_source x = l_source y).
Proof.
  intros Hw Hx Hy. apply ids_by_identity_reachable in Hw.
  unfold handlers_of in Hx, Hy.
  destruct (_handlers (w_bus w) !! event) as [l|] eqn:Hl; simpl in *;
    [|by apply elem_of_nil in Hx].
  pose proof (Hw event l x Hl Hx) as Ex.
  pose proof (Hw event l y Hl Hy) as Ey.
  split; [done|]. split; [done|].
  rewrite Ex, Ey. apply listener_id_inj.
Qed.

Lemma listener_ids_follow_identity_witness :
  (on "e" quiet_handler 5 true "q" subscribed_twice.2).1 = "e:7:q"
  ∧ l_id entry_e7p = "e:7:p"
  ∧ (l_id entry_e7p = l_id entry_e7p ↔ 7%N = 7%N ∧ "p" = "p").
Proof.
  assert (Hw : bus_reachable
                 (bus_call (CallOn "e" quiet_handler 100 false "p")
                    (bus_call (CallOn "e" quiet_handler 100 false "p")
                       fresh_world).2).2).
  { apply reachable_call, reachable_call, reachable_init. reflexivity. }
  assert (Hx : entry_e7p
               ∈ handlers_of
                   (w_bus (bus_call (CallOn "e" quiet_handler 100 false "p")
                      (bus_call (CallOn "e" quiet_handler 100 false "p")
                         fresh_world).2).2) "e").
  { vm_compute. left. }
  exact (listener_ids_follow_identity _ "e" entry_e7p entry_e7p
           quiet_handler 5 true "q" Hw Hx Hx).
Defined.

(** ** The stable sort, characterised *)

Lemma prio_le_trans : Transitive prio_le.
Proof. unfold prio_le. intros x y z. lia. Qed.

Lemma insert_by_priority_sorted x l :
  StronglySorted prio_le l → StronglySorted prio_le (insert_by_priority x l).
Proof.
  induction 1 as [|y l Hl IH Hy]; simpl.
  - repeat constructor.
  - destruct (Z.leb_spec (l_priority x) (l_priority y)) as [Hxy|Hxy].
    + constructor; [by constructor|].
      constructor; [done|].
      eapply Forall_impl; [exact Hy|]. unfold prio_le. intros z. simpl. lia.
    + constructor; [done|].
      rewrite insert_by_priority_perm. constructor; [|done].
      unfold prio_le. lia.
Qed.

Lemma sort_by_priority_sorted l : StronglySorted prio_le (sort_by_priority l).
Proof.
  induction l as [|x l IH]; simpl; [constructor|].
  by apply insert_by_priority_sorted.
Qed.

Lemma with_priority_insert p x l :
  with_priority p (insert_by_priority x l) = with_priority p (x :: l).
Proof.
  unfold with_priority. induction l as [|y l IH]; simpl; [done|].
  destruct (Z.leb_spec (l_priority x) (l_priority y)) as [Hxy|Hxy]; [done|].
  rewrite (filter_cons _ y), IH, !filter_cons.
  destruct (decide (l_priority x = p)), (decide (l_priority y = p)); try done.
  lia.
Qed.

(** Stability: listeners of equal priority keep their relative order. *)
Lemma with_priority_sort p l :
  with_priority p (sort_by_priority l) = with_priority p l.
Proof.
  induction l as [|x l IH]; simpl; [done|].
  rewrite with_priority_insert. unfold with_priority in *.
  by rewrite !filter_cons, IH.
Qed.

(** Two sorted lists with the same listeners of each priority, in the same
    order, are the same list. *)
Lemma stable_sorted_unique l1 l2 :
  StronglySorted prio_le l1 → StronglySorted prio_le l2 →
  (∀ p, with_priority p l1 = with_priority p l2) → l1 = l2.
Proof.
  intros H1. revert l2.
  induction H1 as [|x l1 Hl1 IH Hx]; intros l2 H2 Heq.
  - destruct l2 as [|y l2]; [done|].
    specialize (Heq (l_priority y)). unfold with_priority in Heq.
    rewrite filter_cons in Heq. by rewrite decide_True in Heq.
  - destruct H2 as [|y l2 Hl2 Hy].
    { specialize (Heq (l_priority x)). unfold with_priority in Heq.
      rewrite filter_cons in Heq. by rewrite decide_True in Heq. }
    assert (Hxin : x ∈ y :: l2).
    { eapply (list_elem_of_filter (λ z, l_priority z = l_priority x)).
      unfold with_priority in Heq. rewrite <- Heq, filter_cons.
      rewrite decide_True by done. left. }
    assert (Hyin : y ∈ x :: l1).
    { eapply (list_elem_of_filter (λ z, l_priority z = l_priority y)).
      unfold with_priority in Heq. rewrite Heq, filter_cons.
      rewrite decide_True by done. left. }
    assert (Hp : l_priority x = l_priority y).
    { apply Z.le_antisymm.
      - apply elem_of_cons in Hyin as [->|Hyin]; [done|].
        rewrite Forall_forall in Hx. by apply Hx.
      - apply elem_of_cons in Hxin as [->|Hxin]; [done|].
        rewrite Forall_forall in Hy. by apply Hy. }
    assert (Hhead := Heq (l_priority x)). unfold with_priority in Hhead.
    rewrite !filter_cons, Hp, !decide_True in Hhead by done.
    injection Hhead as -> Htail. f_equal. apply IH; [done|].
    intros p. specialize (Heq p). unfold with_priority in *.
    rewrite !filter_cons in Heq.
    destruct (decide (l_priority y = p)); [by injection Heq|done].
Qed.

(** The stable sort of [l] is the only list that is sorted by priority and
    keeps, for each priority, the listeners of [l] in their order. *)
Lemma sort_by_priority_unique l s :
  StronglySorted prio_le s →
  (∀ p, with_priority p s = with_priority p l) →
  s = sort_by_priority l.
Proof.
  intros Hs Heq. apply stable_sorted_unique; [done|apply sort_by_priority_sorted|].
  intros p. by rewrite with_priority_sort.
Qed.

Lemma with_priority_app p l k :
  with_priority p (l ++ k) = with_priority p l ++ with_priority p k.
Proof. apply filter_app. Qed.

Lemma sort_by_priority_app_sorted l k :
  sort_by_priority (sort_by_priority l ++ sort_by_priority k)
  = sort_by_priority (l ++ k).
Proof.
  symmetry. apply sort_by_priority_unique; [apply sort_by_priority_sorted|].
  intros p. by rewrite with_priority_sort, !with_priority_app, !with_priority_sort.
Qed.

Lemma sort_by_priority_snoc l x :
  sort_by_priority (sort_by_priority l ++ [x]) = sort_by_priority (l ++ [x]).
Proof.
  symmetry. apply sort_by_priority_unique; [apply sort_by_priority_sorted|].
  intros p. by rewrite with_priority_sort, !with_priority_app, !with_priority_sort.
Qed.

Lemma StronglySorted_filter (P : Entry → Prop) `{∀ x, Decision (P x)} l :
  StronglySorted prio_le l → StronglySorted prio_le (filter P l).
Proof.
  induction 1 as [|x l Hl IH Hx]; [constructor|].
  rewrite filter_cons. destruct (decide (P x)); [|done].
  constructor; [done|].
  apply Forall_forall. intros z [_ Hz]%list_elem_of_filter.
  rewrite Forall_forall in Hx. by apply Hx.
Qed.

Lemma filter_comm {A : Type} (P Q : A → Prop)
    `{∀ x, Decision (P x)} `{∀ x, Decision (Q x)} (l : list A) :
  filter P (filter Q l) = filter Q (filter P l).
Proof. rewrite !list_filter_filter. apply list_filter_iff. tauto. Qed.

Lemma filter_sort_by_priority (P : Entry → Prop) `{∀ x, Decision (P x)} l :
  filter P (sort_by_priority l) = sort_by_priority (filter P l).
Proof.
  apply sort_by_priority_unique.
  - apply StronglySorted_filter, sort_by_priority_sorted.
  - intros p. unfold with_priority.
    rewrite filter_comm. fold (with_priority p (sort_by_priority l)).
    rewrite with_priority_sort. apply filter_comm.
Qed.

(** ** The table against the registration journal *)

Lemma handlers_of_set_handlers bus event l ev :
  handlers_of (set_handlers bus event l) ev
  = if decide (ev = event) then l else handlers_of bus ev.
Proof.
  unfold handlers_of, set_handlers. simpl. case_decide as H.
  - subst. by rewrite lookup_insert_eq.
  - by rewrite lookup_insert_ne.
Qed.

Lemma handlers_of_on event h p o s bus ev :
  handlers_of (on event h p o s bus).2 ev
  = if decide (ev = event)
    then sort_by_priority (handlers_of bus event ++ [new_entry event h p o s])
    else handlers_of bus ev.
Proof. unfold on. simpl. apply handlers_of_set_handlers. Qed.

Lemma filter_False {A : Type} (l : list A) : filter (λ _, False) l = [].
Proof. induction l; [done|]. by rewrite filter_cons_False by tauto. Qed.

Lemma filter_True {A : Type} (P : A → Prop) `{∀ x, Decision (P x)} (l : list A) :
  (∀ x, P x) → filter P l = l.
Proof.
  intros HP. induction l as [|x l IH]; [done|].
  rewrite filter_cons_True by done. by rewrite IH.
Qed.

Lemma handlers_of_off event handler source bus ev :
  handlers_of (off event handler source bus) ev
  = if decide (ev = event)
    then filter (off_keeps handler source) (handlers_of bus ev)
    else handlers_of bus ev.
Proof.
  unfold off.
  destruct (_handlers bus !! event) as [l|] eqn:Hl.
  - assert (Hev : handlers_of bus event = l) by (unfold handlers_of; by rewrite Hl).
    destruct handler as [h|]; [|destruct source as [s|]];
      rewrite handlers_of_set_handlers; case_decide; subst; try done.
    symmetry. apply filter_False.
  - case_decide; [|done]. subst. unfold handlers_of. by rewrite Hl.
Qed.

Lemma handlers_of_off_all source bus ev :
  handlers_of (off_all source bus) ev
  = filter (λ e, l_source e ≠ source) (handlers_of bus ev).
Proof.
  unfold handlers_of, off_all. simpl. rewrite lookup_fmap.
  by destruct (_handlers bus !! ev).
Qed.

Lemma handlers_of_remove_once event ids bus ev :
  handlers_of (remove_once event ids bus) ev
  = if decide (ev = event ∨ ev = "*")
    then filter (λ h, l_id h ∉ ids) (handlers_of bus ev)
    else handlers_of bus ev.
Proof.
  assert (Hstep : ∀ b k, handlers_of
      match _handlers b !! k with
      | Some l => set_handlers b k (filter (λ h, l_id h ∉ ids) l)
      | None => b
      end ev
    = if decide (ev = k) then filter (λ h, l_id h ∉ ids) (handlers_of b ev)
      else handlers_of b ev).
  { intros b k. destruct (_handlers b !! k) as [l|] eqn:Hl.
    - rewrite handlers_of_set_handlers. case_decide; [|done].
      subst. unfold handlers_of. by rewrite Hl.
    - case_decide; [|done]. subst. unfold handlers_of. by rewrite Hl. }
  unfold remove_once. simpl. rewrite Hstep, Hstep.
  destruct (decide (ev = "*")), (decide (ev = event)); subst;
    case_decide; try tauto; try done.
  rewrite list_filter_filter. apply list_filter_iff. tauto.
Qed.

Lemma handlers_of_record_history event data ts bus ev :
  handlers_of (_record_history event data ts bus) ev = handlers_of bus ev.
Proof. done. Qed.

Lemma all_handlers_record_history event data ts bus ev :
  all_handlers ev (_record_history event data ts bus) = all_handlers ev bus.
Proof. done. Qed.

(** The table after a publish: the listeners the publish reached lose their
    fired one-shot entries, matched by id; nothing else changes. *)
Lemma handlers_of_emit event data w ev :
  handlers_of (w_bus (emit_world event data w)) ev
  = if decide (ev = event ∨ ev = "*")
    then filter (λ h, l_id h ∉ once_ids_of (all_handlers event (w_bus w)))
           (handlers_of (w_bus w) ev)
    else handlers_of (w_bus w) ev.
Proof.
  unfold emit_world. simpl. rewrite all_handlers_record_history.
  destruct (once_ids_of (all_handlers event (w_bus w))) as [|i ids] eqn:Hids.
  - rewrite dispatch_world_bus. simpl.
    rewrite handlers_of_record_history. case_decide; [|done].
    symmetry. apply filter_True. intros x. apply not_elem_of_nil.
  - simpl. rewrite handlers_of_remove_once, dispatch_world_bus. done.
Qed.

Lemma subscribed_snoc j event x ev :
  subscribed (j ++ [(event, x)]) ev
  = if decide (ev = event) then subscribed j ev ++ [x] else subscribed j ev.
Proof.
  unfold subscribed. rewrite filter_app, fmap_app, filter_cons. simpl.
  destruct (decide (event = ev)); case_decide; subst; try done.
  by rewrite app_nil_r.
Qed.

Lemma subscribed_filter (P : string * Entry → Prop) (Q : Entry → Prop)
    `{∀ p, Decision (P p)} `{∀ x, Decision (Q x)} j ev :
  (∀ x, P (ev, x) ↔ Q x) →
  subscribed (filter P j) ev = filter Q (subscribed j ev).
Proof.
  intros HPQ. unfold subscribed.
  induction j as [|[e x] j IH]; [done|].
  rewrite (filter_cons P), (filter_cons (λ p, p.1 = ev) (e, x)).
  destruct (decide (P (e, x))) as [HP|HP];
    [rewrite (filter_cons (λ p, p.1 = ev) (e, x))|];
    destruct (decide ((e, x).1 = ev)) as [Hev|Hev]; simpl in Hev; subst;
    rewrite ?fmap_cons, ?IH; simpl.
  - by rewrite filter_cons_True by by apply HPQ.
  - done.
  - by rewrite filter_cons_False by by rewrite <- HPQ.
  - done.
Qed.

Lemma all_handlers_tracks bus j event :
  tracks bus j →
  all_handlers event bus
  = sort_by_priority (subscribed j event ++ subscribed j "*").
Proof.
  intros Ht. unfold all_handlers.
  change (default [] (_handlers bus !! event)) with (handlers_of bus event).
  change (default [] (_handlers bus !! "*")) with (handlers_of bus "*").
  rewrite !Ht. apply sort_by_priority_app_sorted.
Qed.

Lemma once_ids_of_perm l k : l ≡ₚ k → once_ids_of l ≡ₚ once_ids_of k.
Proof. intros H. unfold once_ids_of. by rewrite H. Qed.

Lemma bus_call_bus c w :
  w_bus (bus_call c w).2
  = match c with
    | CallOn event h p o s => (on event h p o s (w_bus w)).2
    | CallOff event h s => off event h s (w_bus w)
    | CallOffAll s => off_all s (w_bus w)
    | CallEmit event data => w_bus (emit_world event data w)
    end.
Proof. destruct c; try reflexivity. simpl. by rewrite emit_run. Qed.

Lemma tracks_call c w j :
  tracks (w_bus w) j → tracks (w_bus (bus_call c w).2) (journal_call c j).
Proof.
  intros Ht ev. rewrite bus_call_bus.
  destruct c as [event h p o s|event h s|s|event data];
    unfold journal_call; fold (once_ids_of).
  - rewrite handlers_of_on, subscribed_snoc. case_decide; [|done].
    subst. rewrite Ht. apply sort_by_priority_snoc.
  - rewrite handlers_of_off, Ht.
    destruct (decide (ev = event)) as [->|Hne].
    + rewrite filter_sort_by_priority. f_equal. symmetry.
      destruct h as [h|]; [|destruct s as [s|]];
        apply subscribed_filter; intros x; simpl; tauto.
    + f_equal. symmetry.
      rewrite <- (filter_True (λ _, True) (subscribed j ev)) by done.
      destruct h as [h|]; [|destruct s as [s|]];
        apply subscribed_filter; intros x; simpl; tauto.
  - rewrite handlers_of_off_all, Ht, filter_sort_by_priority. f_equal.
    symmetry. by apply subscribed_filter.
  - rewrite handlers_of_emit, Ht.
    rewrite (all_handlers_tracks _ j) by done.
    set (fired := once_ids_of (subscribed j event ++ subscribed j "*")).
    assert (Hfired : ∀ i,
      i ∈ once_ids_of
            (sort_by_priority (subscribed j event ++ subscribed j "*"))
      ↔ i ∈ fired).
    { intros i. unfold fired.
      by rewrite (once_ids_of_perm _ _ (sort_by_priority_perm _)). }
    case_decide as Hr.
    + rewrite filter_sort_by_priority. f_equal.
      rewrite (subscribed_filter _ (λ h, l_id h ∉ fired)).
      * apply list_filter_iff. intros x. by rewrite Hfired.
      * intros x. unfold reached. simpl. tauto.
    + f_equal. symmetry.
      rewrite <- (filter_True (λ _, True) (subscribed j ev)) by done.
      apply subscribed_filter. intros x. unfold reached. simpl. tauto.
Qed.

Lemma tracks_run_calls cs w j :
  tracks (w_bus w) j →
  tracks (w_bus (run_calls cs w)) (foldl (λ j c, journal_call c j) j cs).
Proof.
  revert w j. induction cs as [|c cs IH]; intros w j Ht; simpl; [done|].
  by apply IH, tracks_call.
Qed.

Lemma tracks_init w :
  w_bus w = EventBus_init → tracks (w_bus w) [].
Proof. intros -> ev. done. Qed.

Lemma emit_world_calls event data w :
  w_calls (emit_world event data w)
  = w_calls w
    ++ (call_of event (default [] data) <$> all_handlers event (w_bus w)).
Proof.
  unfold emit_world. simpl. rewrite all_handlers_record_history.
  destruct (once_ids_of _); simpl; by rewrite dispatch_world_calls.
Qed.

(** ** Dispatch order *)

(** C4 as stated fails: with a wildcard listener registered first and a
    listener on ["e"] registered second, both of priority 5, a publish of
    ["e"] calls the second one first, whereas registration sequence as the
    tie-break over the merged set puts the wildcard listener first. *)
Lemma tie_between_event_and_wildcard :
  addresses (all_handlers "e" (w_bus (run_calls tie_calls fresh_world)))
  = [2; 1]%N
  ∧ addresses (merged_by_registration (journal_of tie_calls) "e") = [1; 2]%N
  ∧ all_handlers "e" (w_bus (run_calls tie_calls fresh_world))
    ≠ merged_by_registration (journal_of tie_calls) "e".
Proof.
  split; [reflexivity|]. split; [vm_compute; reflexivity|].
  intros H. apply (f_equal addresses) in H. vm_compute in H. discriminate.
Qed.

(** C4, amended.  A publish calls, one after the other, the listeners of a
    snapshot: those registered under the event followed by those registered
    under the wildcard, stably sorted by ascending priority.  So priority is
    the primary key; among listeners of equal priority those of the event
    come before those of the wildcard, and within each of the two groups
    registration order decides.  Priorities 10, 5, 5, 20 registered in that
    order dispatch as second, third, first, fourth; a wildcard listener of
    priority 1 runs before a listener of the event of priority 100. *)
Theorem dispatch_order (cs : list BusCall) (w0 : World) (event : string)
    (data : option Data) :
  w_bus w0 = EventBus_init →
  let w := run_calls cs w0 in
  let j := journal_of cs in
  let snapshot := all_handlers event (w_bus w) in
  emit event data w = (Ok (), emit_world event data w)
  ∧ w_calls (emit_world event data w)
    = w_calls w ++ (call_of event (default [] data) <$> snapshot)
  ∧ snapshot = sort_by_priority (subscribed j event ++ subscribed j "*")
  ∧ snapshot ≡ₚ subscribed j event ++ subscribed j "*"
  ∧ StronglySorted prio_le snapshot
  ∧ (∀ p, with_priority p snapshot
          = with_priority p (subscribed j event)
            ++ with_priority p (subscribed j "*"))
  ∧ addresses (all_handlers "e" (w_bus (run_calls four_listeners fresh_world)))
    = [2; 3; 1; 4]%N
  ∧ addresses
      (all_handlers "e" (w_bus (run_calls event_then_wildcard fresh_world)))
    = [2; 1]%N.
Proof.
  intros Hinit w j snapshot.
  assert (Ht : tracks (w_bus w) j) by by apply tracks_run_calls, tracks_init.
  assert (Hs : snapshot
               = sort_by_priority (subscribed j event ++ subscribed j "*"))
    by by apply all_handlers_tracks.
  split; [apply emit_run|]. split; [apply emit_world_calls|].
  split; [done|]. rewrite Hs.
  split; [apply sort_by_priority_perm|].
  split; [apply sort_by_priority_sorted|].
  split; [|by split].
  intros p. by rewrite with_priority_sort, with_priority_app.
Qed.

Lemma dispatch_order_witness :
  w_calls (emit_world "e" None (run_calls four_listeners fresh_world))
  = w_calls (run_calls four_listeners fresh_world)
    ++ (call_of "e" []
          <$> all_handlers "e" (w_bus (run_calls four_listeners fresh_world))).
Proof.
  destruct (dispatch_order four_listeners fresh_world "e" None)
    as (_ & H & _).
  - reflexivity.
  - exact H.
Defined.

(** ** Fault isolation *)

Lemma dispatch_world_log l event data w :
  w_log (dispatch_world l event data w)
  = w_log w ++ dispatch_errors (w_calls w) l event data.
Proof.
  revert w. induction l as [|x l IH]; intros w; simpl.
  - by rewrite app_nil_r.
  - rewrite IH. unfold after_call.
    destruct (hcall _ _ _ _); simpl; by rewrite <- ?app_assoc.
Qed.

Lemma emit_world_log event data w :
  w_log (emit_world event data w)
  = w_log w
    ++ dispatch_errors (w_calls w) (all_handlers event (w_bus w)) event
         (default [] data).
Proof.
  unfold emit_world. simpl. rewrite all_handlers_record_history.
  destruct (once_ids_of _); simpl; by rewrite dispatch_world_log.
Qed.

Lemma dispatch_errors_raised calls before x after event data msg :
  hcall (l_handler x) (calls ++ (call_of event data <$> before)) event data
  = Raised msg →
  ListenerError event (l_source x) msg
  ∈ dispatch_errors calls (before ++ x :: after) event data.
Proof.
  revert calls. induction before as [|y before IH]; intros calls; simpl.
  - rewrite app_nil_r. intros ->. simpl. left.
  - intros H. rewrite elem_of_app. right. apply IH.
    by rewrite <- app_assoc.
Qed.

(** C6.  Whatever the listeners do, a publish returns normally; it calls
    every listener of its snapshot, in dispatch order, with the same event
    and data, whether or not earlier ones raised; and each exception is
    caught and logged with the source of the listener that raised it. *)
Theorem publish_isolates_failures (w : World) (event : string)
    (data : option Data) :
  let d := default [] data in
  let snapshot := all_handlers event (w_bus w) in
  let w' := emit_world event data w in
  emit event data w = (Ok (), w')
  ∧ w_calls w' = w_calls w ++ (call_of event d <$> snapshot)
  ∧ w_log w' = w_log w ++ dispatch_errors (w_calls w) snapshot event d
  ∧ ∀ before x after msg,
      snapshot = before ++ x :: after →
      hcall (l_handler x) (w_calls w ++ (call_of event d <$> before)) event d
      = Raised msg →
      ListenerError event (l_source x) msg ∈ w_log w'
      ∧ w_calls w'
        = (w_calls w ++ (call_of event d <$> before))
          ++ call_of event d x :: (call_of event d <$> after).
Proof.
  intros d snapshot w'.
  assert (Hcalls := emit_world_calls event data w).
  assert (Hlog := emit_world_log event data w).
  fold d snapshot w' in Hcalls, Hlog.
  split; [apply emit_run|]. split; [done|]. split; [done|].
  intros before x after msg Hsnap Hraise. split.
  - rewrite Hlog, Hsnap, elem_of_app. right.
    by apply dispatch_errors_raised.
  - by rewrite Hcalls, Hsnap, fmap_app, fmap_cons, app_assoc.
Qed.

(** The example of the specification: the first of three listeners raises,
    the other two are still called, and the publish returns. *)
Lemma publish_isolates_failures_witness :
  emit "e" None (run_calls first_of_three_fails fresh_world)
  = (Ok (), emit_world "e" None (run_calls first_of_three_fails fresh_world))
  ∧ c_handler
      <$> w_calls (emit_world "e" None (run_calls first_of_three_fails fresh_world))
    = [1; 2; 3]%N
  ∧ w_log (emit_world "e" None (run_calls first_of_three_fails fresh_world))
    = [ListenerError "e" "a" "boom"].
Proof.
  destruct (publish_isolates_failures
              (run_calls first_of_three_fails fresh_world) "e" None)
    as (Hret & Hcalls & Hlog & _).
  split; [exact Hret|]. split.
  - rewrite Hcalls. reflexivity.
  - rewrite Hlog. reflexivity.
Defined.

(** ** One-shot listeners *)

Lemma elem_of_all_handlers x event bus :
  x ∈ all_handlers event bus
  ↔ x ∈ handlers_of bus event ∨ x ∈ handlers_of bus "*".
Proof.
  unfold all_handlers. by rewrite elem_of_sort_by_priority, elem_of_app.
Qed.

(** C7 at the wildcard: a one-shot listener subscribed on ["*"] is called
    twice by the first publish of ["*"], because the snapshot takes the
    list of ["*"] both as the exact match and as the wildcard; it is
    removed afterwards. *)
Theorem once_listener_on_wildcard_called_twice :
  c_listener
    <$> w_calls (emit_world "*" None (run_calls wildcard_once fresh_world))
  = ["*:1:s"; "*:1:s"]
  ∧ handlers_of
      (w_bus (emit_world "*" None (run_calls wildcard_once fresh_world))) "*"
    = []
  ∧ c_listener
      <$> w_calls (emit_world "e" None (run_calls event_once fresh_world))
    = ["e:1:s"].
Proof. split; [reflexivity|]. split; reflexivity. Qed.

(** ** Plugin code and the manager's state *)

Lemma emit_world_outside event data w :
  w_manager (emit_world event data w) = w_manager w
  ∧ w_config_file (emit_world event data w) = w_config_file w
  ∧ w_writable (emit_world event data w) = w_writable w.
Proof.
  unfold emit_world.
  destruct (once_ids_of _); simpl;
    rewrite dispatch_world_manager,
      (proj1 (dispatch_world_file _ _ _ _)),
      (proj2 (dispatch_world_file _ _ _ _)); done.
Qed.

Lemma bus_call_outside c w :
  w_manager (bus_call c w).2 = w_manager w
  ∧ w_config_file (bus_call c w).2 = w_config_file w
  ∧ w_writable (bus_call c w).2 = w_writable w.
Proof.
  destruct c; try done. simpl. rewrite emit_run. apply emit_world_outside.
Qed.

Lemma run_calls_outside cs w :
  w_manager (run_calls cs w) = w_manager w
  ∧ w_config_file (run_calls cs w) = w_config_file w
  ∧ w_writable (run_calls cs w) = w_writable w.
Proof.
  revert w. induction cs as [|c cs IH]; intros w; simpl; [done|].
  destruct (IH (bus_call c w).2) as (-> & -> & ->). apply bus_call_outside.
Qed.

Lemma bus_calls_run cs w : bus_calls cs w = (Ok (), run_calls cs w).
Proof.
  revert w. induction cs as [|c cs IH]; intros w; [done|].
  change (run_calls (c :: cs) w) with (run_calls cs (bus_call c w).2).
  change (bus_calls (c :: cs) w) with ((bus_call c;; bus_calls cs) w).
  unfold mbind, M_bind. destruct (bus_call_run c w) as [w' Hw'].
  rewrite Hw'. apply IH.
Qed.

Lemma run_script_run (s : Script) w :
  run_script s w
  = (match s.2 with Returned => Ok () | Raised msg => Exc msg end,
     run_calls s.1 w).
Proof.
  unfold run_script, mbind, M_bind. rewrite bus_calls_run.
  by destruct s.2.
Qed.

Lemma _update_config_run name u w :
  _update_config name u w = (Ok (), update_config_world name u w).
Proof.
  unfold _update_config, update_config_world, mbind, M_bind, update_manager,
    _save_configs. simpl. by destruct (w_writable w).
Qed.

(** ** Listeners of a source *)

Lemma filter_nil_not_elem_of {A : Type} (P : A → Prop) `{∀ x, Decision (P x)}
    (l : list A) :
  (∀ x, x ∈ l → ¬ P x) → filter P l = [].
Proof.
  induction l as [|x l IH]; intros HP; [done|].
  rewrite filter_cons_False by (apply HP; left).
  apply IH. intros y Hy. apply HP. by right.
Qed.

Lemma no_listeners_tagged source bus :
  no_listeners_of source bus → listeners_tagged source bus = [].
Proof.
  intros Hno. unfold listeners_tagged, get_listeners.
  apply filter_nil_not_elem_of. intros i Hi.
  apply list_elem_of_bind in Hi as ([evt hs] & Hi & Hin).
  apply elem_of_map_to_list in Hin.
  apply list_elem_of_fmap in Hi as (x & -> & Hx). simpl.
  apply (Hno evt). unfold handlers_of. by rewrite Hin.
Qed.

Lemma no_listeners_off_all source bus :
  no_listeners_of source (off_all source bus).
Proof.
  intros ev x. rewrite handlers_of_off_all.
  by intros [? _]%list_elem_of_filter.
Qed.

Lemma no_listeners_emit source event data w :
  no_listeners_of source (w_bus w) →
  no_listeners_of source (w_bus (emit_world event data w)).
Proof.
  intros Hno ev x. rewrite handlers_of_emit.
  case_decide; [|apply Hno].
  intros [_ Hx]%list_elem_of_filter. by apply (Hno ev).
Qed.

(** ** Writing the configuration *)

Lemma update_config_world_bus name u w :
  w_bus (update_config_world name u w) = w_bus w.
Proof. unfold update_config_world. simpl. by destruct (w_writable w). Qed.

Lemma update_config_world_plugins name u w :
  _plugins (w_manager (update_config_world name u w)) = _plugins (w_manager w).
Proof. unfold update_config_world. simpl. by destruct (w_writable w). Qed.

Lemma update_config_world_configs name u w :
  _configs (w_manager (update_config_world name u w))
  = <[name := apply_update u
                (default empty_record (_configs (w_manager w) !! name))]>
      (_configs (w_manager w)).
Proof. unfold update_config_world. simpl. by destruct (w_writable w). Qed.

Lemma update_config_world_writable name u w :
  w_writable (update_config_world name u w) = w_writable w.
Proof.
  unfold update_config_world. simpl. by destruct (w_writable w) eqn:E.
Qed.

(** A successful write leaves the whole in-memory store in the file; a
    failed one leaves the file as it was. *)
Lemma update_config_world_file name u w :
  w_config_file (update_config_world name u w)
  = if w_writable w
    then Document (_configs (w_manager (update_config_world name u w)))
    else w_config_file w.
Proof.
  unfold update_config_world. simpl. by destruct (w_writable w) eqn:E.
Qed.

(** ** Deactivation *)

(** C5 as stated fails when the configuration file cannot be written: the
    [IOError] is logged and swallowed, [deactivate_plugin] returns [True],
    and the persisted document does not say [enabled=false]. *)
Lemma deactivate_unwritable_not_persisted :
  (deactivate_plugin "p" read_only_active_world).1 = Ok true
  ∧ stored_enabled (persisted read_only_active_world) "p" = Some true
  ∧ stored_enabled
      (persisted (deactivate_plugin "p" read_only_active_world).2) "p"
    = Some true
  ∧ SaveFailed ∈ w_log (deactivate_plugin "p" read_only_active_world).2.
Proof.
  split; [vm_compute; reflexivity|]. split; [vm_compute; reflexivity|]. split; [vm_compute; reflexivity|].
  vm_compute. left.
Qed.

(** C5, amended.  For every active plugin, [deactivate_plugin(name)]
    returns [True] whatever the plugin's own [deactivate()] does; afterwards
    no listener tagged with the plugin's name is left on the bus, the plugin
    is marked inactive, [enabled=false] is in the manager's configuration
    store, and, when the configuration file can be written, in the persisted
    document. *)
Theorem deactivate_cleans_up (w : World) (name : string) (entry : PluginEntry) :
  _plugins (w_manager w) !! name = Some entry →
  active entry = true →
  ∃ w',
    deactivate_plugin name w = (Ok true, w')
    ∧ listeners_tagged name (w_bus w') = []
    ∧ is_active name (w_manager w') = false
    ∧ stored_enabled (_configs (w_manager w')) name = Some false
    ∧ (w_writable w = true → stored_enabled (persisted w') name = Some false).
Proof.
  intros Hentry Hactive.
  unfold deactivate_plugin, mbind, M_bind, get_manager.
  rewrite Hentry, Hactive. cbn [negb].
  unfold try_except. rewrite run_script_run.
  set (script := deactivate (instance entry) (config (instance entry))).
  destruct (run_calls_outside script.1 w) as (Hm & Hf & Hw).
  set (w1 := match script.2 with
             | Returned => run_calls script.1 w
             | Raised msg =>
                 add_log (DeactivateHookFailed name msg) (run_calls script.1 w)
             end).
  assert (Hm1 : w_manager w1 = w_manager w) by (unfold w1; by destruct script.2).
  assert (Hw1 : w_writable w1 = w_writable w) by (unfold w1; by destruct script.2).
  set (w2 := with_manager (λ m,
                {| _plugins := alter (set_error None) name
                                 (alter (set_active false) name (_plugins m));
                   _configs := _configs m |})
               (with_bus (off_all name) w1)).
  set (w3 := update_config_world name (SetEnabled false) w2).
  exists (emit_world "plugin.deactivated" (Some [("name", VStr name)]) w3).
  destruct (emit_world_outside "plugin.deactivated"
              (Some [("name", VStr name)]) w3) as (Hm4 & Hf4 & Hw4).
  split; [|split; [|split; [|split]]].
  - replace (match
               match script.2 with Returned => Ok () | Raised msg => Exc msg end
             with
             | Ok a => (Ok a, run_calls script.1 w)
             | Exc e => logger (DeactivateHookFailed name e) (run_calls script.1 w)
             end) with (Ok (), w1)
      by (unfold w1, logger; by destruct script.2).
    unfold update_bus, update_entry, update_manager.
    rewrite _update_config_run, emit_run. reflexivity.
  - apply no_listeners_tagged, no_listeners_emit.
    unfold w3. rewrite update_config_world_bus. simpl.
    apply no_listeners_off_all.
  - unfold is_active. rewrite Hm4. unfold w3.
    rewrite update_config_world_plugins. simpl.
    rewrite !lookup_alter_eq, Hm1, Hentry. done.
  - unfold stored_enabled. rewrite Hm4. unfold w3.
    rewrite update_config_world_configs, lookup_insert_eq. done.
  - intros Hwr. unfold persisted. rewrite Hf4. unfold w3 at 1.
    rewrite update_config_world_file.
    replace (w_writable w2) with true by (simpl; congruence).
    unfold stored_enabled, w3.
    rewrite update_config_world_configs, lookup_insert_eq. done.
Qed.

Lemma deactivate_cleans_up_witness :
  ∃ w',
    deactivate_plugin "p" active_world = (Ok true, w')
    ∧ listeners_tagged "p" (w_bus w') = []
    ∧ is_active "p" (w_manager w') = false
    ∧ stored_enabled (_configs (w_manager w')) "p" = Some false
    ∧ (w_writable active_world = true →
       stored_enabled (persisted w') "p" = Some false).
Proof.
  exact (deactivate_cleans_up active_world "p" _ eq_refl eq_refl).
Defined.

(** ** Activation *)

(** C2 at a failing activation: the plugin ["q"] subscribes one listener in
    [activate()] and then raises.  [activate_plugin] returns [False], the
    plugin stays inactive with the error recorded, and its listener stays on
    the bus; a later [deactivate_plugin] returns early and does not remove
    it either. *)
Theorem failed_activation_leaves_listener :
  is_active "q" (w_manager registered_world) = false
  ∧ listeners_tagged "q" (w_bus registered_world) = []
  ∧ (activate_plugin "q" registered_world).1 = Ok false
  ∧ is_active "q" (w_manager (activate_plugin "q" registered_world).2) = false
  ∧ i_id <$> listeners_tagged "q" (w_bus (activate_plugin "q" registered_world).2)
    = ["e:1:q"]
  ∧ (deactivate_plugin "q" (activate_plugin "q" registered_world).2).1 = Ok true
  ∧ i_id
      <$> listeners_tagged "q"
            (w_bus (deactivate_plugin "q"
                      (activate_plugin "q" registered_world).2).2)
    = ["e:1:q"].
Proof. repeat split; vm_compute; reflexivity. Qed.

(** ** What activation leaves alone *)

Lemma keeps_configs_refl w : keeps_configs w w.
Proof. done. Qed.

Lemma keeps_configs_trans w1 w2 w3 :
  keeps_configs w1 w2 → keeps_configs w2 w3 → keeps_configs w1 w3.
Proof.
  intros (Hi & Hc & Hw) (Hi' & Hc' & Hw'). split; [|split].
  - intros k. by rewrite Hi', Hi.
  - intros k. by rewrite Hc', Hc.
  - by rewrite Hw', Hw.
Qed.

Lemma keeps_configs_same_manager w w' :
  w_manager w' = w_manager w → w_writable w' = w_writable w →
  keeps_configs w w'.
Proof. intros Hm Hw. unfold keeps_configs. by rewrite Hm, Hw. Qed.

Lemma keeps_configs_emit event data w :
  keeps_configs w (emit_world event data w).
Proof.
  destruct (emit_world_outside event data w) as (Hm & _ & Hw).
  by apply keeps_configs_same_manager.
Qed.

Lemma keeps_configs_run_calls cs w : keeps_configs w (run_calls cs w).
Proof.
  destruct (run_calls_outside cs w) as (Hm & _ & Hw).
  by apply keeps_configs_same_manager.
Qed.

Lemma keeps_configs_alter (f : PluginEntry → PluginEntry) name w :
  (∀ e, instance (f e) = instance e) →
  keeps_configs w
    (with_manager (λ m, {| _plugins := alter f name (_plugins m);
                           _configs := _configs m |}) w).
Proof.
  intros Hf. split; [|done]. intros k. simpl.
  rewrite lookup_alter. case_decide; [|done]. subst.
  destruct (_plugins (w_manager w) !! k); simpl; by rewrite ?Hf.
Qed.

Lemma keeps_configs_set_enabled name b w :
  keeps_configs w (update_config_world name (SetEnabled b) w).
Proof.
  split; [|split].
  - intros k. by rewrite update_config_world_plugins.
  - intros k. unfold stored_config.
    rewrite update_config_world_configs.
    destruct (decide (name = k)) as [->|Hne].
    + rewrite lookup_insert_eq. simpl.
      by destruct (_configs (w_manager w) !! k).
    + by rewrite lookup_insert_ne.
  - apply update_config_world_writable.
Qed.

Lemma keeps_configs_add_log r w : keeps_configs w (add_log r w).
Proof. done. Qed.

(** [activate_plugin] always returns, and touches neither configurations
    nor instances. *)
Lemma activate_plugin_keeps name w :
  ∃ r w', activate_plugin name w = (Ok r, w') ∧ keeps_configs w w'.
Proof.
  unfold activate_plugin, mbind, M_bind, get_manager.
  destruct (_plugins (w_manager w) !! name) as [entry|] eqn:Hentry.
  - destruct (active entry).
    + by eexists _, _.
    + unfold try_except. rewrite run_script_run.
      set (script := activate (instance entry) (config (instance entry))).
      pose proof (keeps_configs_run_calls script.1 w) as H1.
      destruct script.2 as [|msg].
      * unfold update_entry, update_manager.
        rewrite _update_config_run, emit_run.
        eexists _, _. split; [reflexivity|].
        eapply keeps_configs_trans; [|apply keeps_configs_emit].
        eapply keeps_configs_trans; [|apply keeps_configs_set_enabled].
        eapply keeps_configs_trans; [|by apply keeps_configs_alter].
        eapply keeps_configs_trans; [|by apply keeps_configs_alter].
        exact H1.
      * unfold update_entry, update_manager, logger.
        rewrite emit_run.
        eexists _, _. split; [reflexivity|].
        eapply keeps_configs_trans; [|apply keeps_configs_emit].
        eapply keeps_configs_trans; [|apply keeps_configs_add_log].
        eapply keeps_configs_trans; [|by apply keeps_configs_alter].
        exact H1.
  - unfold logger. by eexists _, _.
Qed.

(** ** Loading a unit *)

Lemma saved_config_stored (m : PluginManager) (name : string) :
  default ∅ (cfg (default empty_record (_configs m !! name)))
  = default ∅ (stored_config (_configs m) name).
Proof. unfold stored_config. by destruct (_configs m !! name). Qed.

(** A unit whose first qualifying class can be instantiated, and whose
    plugin name is free, is registered with the merged configuration. *)
Lemma load_registers dir_name file namespace cls inst w :
  pf_spec file = true →
  pf_exec_module file = inr namespace →
  find_plugin_class (module_name_of dir_name) namespace = Some cls →
  cls_new cls = inr inst →
  _plugins (w_manager w) !! name (get_meta inst) = None →
  ∃ w',
    _load_plugin dir_name file w = (Ok (), w')
    ∧ instance <$> _plugins (w_manager w') !! name (get_meta inst)
      = Some (set_config
                (default ∅ (stored_config (_configs (w_manager w))
                              (name (get_meta inst)))
                 ∪ get_default_config inst) inst)
    ∧ (∀ k, stored_config (_configs (w_manager w')) k
            = stored_config (_configs (w_manager w)) k)
    ∧ w_writable w' = w_writable w.
Proof.
  intros Hspec Hexec Hfind Hnew Hfree.
  unfold _load_plugin. rewrite Hspec, Hexec, Hfind, Hnew. cbn [negb].
  unfold mbind, M_bind, get_manager. rewrite Hfree.
  unfold update_manager. rewrite saved_config_stored.
  set (n := name (get_meta inst)).
  set (merged := default ∅ (stored_config (_configs (w_manager w)) n)
                 ∪ get_default_config inst).
  set (w0 := with_manager _ w).
  assert (H0 : instance <$> _plugins (w_manager w0) !! n
               = Some (set_config merged inst))
    by (unfold w0; simpl; by rewrite lookup_insert_eq).
  assert (Hfin : ∀ w1, keeps_configs w0 w1 →
    instance <$> _plugins (w_manager w1) !! n = Some (set_config merged inst)
    ∧ (∀ k, stored_config (_configs (w_manager w1)) k
            = stored_config (_configs (w_manager w)) k)
    ∧ w_writable w1 = w_writable w).
  { intros w1 (Hi & Hc & Hw). split; [by rewrite Hi|]. split; [|done].
    intros k. by rewrite Hc. }
  destruct (default false (enabled (default empty_record
              (_configs (w_manager w) !! n)))).
  - destruct (activate_plugin_keeps n w0) as (r & w1 & Hrun & Hk).
    rewrite Hrun. cbv beta iota. unfold mret, M_ret. rewrite emit_run.
    eexists. split; [reflexivity|]. apply Hfin.
    eapply keeps_configs_trans; [exact Hk|apply keeps_configs_emit].
  - unfold mret, M_ret. rewrite emit_run. eexists. split; [reflexivity|].
    apply Hfin, keeps_configs_emit.
Qed.

(** ** Updating a configuration *)

Lemma update_plugin_config_run name new_config entry w :
  _plugins (w_manager w) !! name = Some entry →
  ∃ w',
    update_plugin_config name new_config w = (Ok true, w')
    ∧ config <$> get_plugin name (w_manager w')
      = Some (new_config ∪ config (instance entry))
    ∧ stored_config (_configs (w_manager w')) name
      = Some (new_config ∪ config (instance entry))
    ∧ w_config_file w'
      = if w_writable w then Document (_configs (w_manager w'))
        else w_config_file w.
Proof.
  intros Hentry.
  unfold update_plugin_config, mbind, M_bind, get_manager. rewrite Hentry.
  unfold update_entry, update_manager, try_except.
  set (merged := new_config ∪ config (instance entry)).
  set (w0 := with_manager _ w).
  set (w1 := match on_config_changed (instance entry) merged with
             | Returned => w0
             | Raised msg => add_log (ConfigHookFailed name msg) w0
             end).
  replace (match
             match on_config_changed (instance entry) merged with
             | Returned => mret ()
             | Raised msg => raise msg
             end w0
           with
           | (Ok a, w') => (Ok a, w')
           | (Exc e, w') => logger (ConfigHookFailed name e) w'
           end) with (Ok (), w1)
    by (unfold w1, logger; by destruct (on_config_changed _ _)).
  rewrite _update_config_run.
  assert (Hm1 : w_manager w1 = w_manager w0)
    by (unfold w1; by destruct (on_config_changed _ _)).
  assert (Hf1 : w_config_file w1 = w_config_file w
                ∧ w_writable w1 = w_writable w)
    by (unfold w1; by destruct (on_config_changed _ _)).
  eexists. split; [reflexivity|]. split; [|split].
  - unfold get_plugin. rewrite update_config_world_plugins, Hm1.
    unfold w0. simpl. rewrite lookup_alter_eq, Hentry. done.
  - unfold stored_config.
    rewrite update_config_world_configs, lookup_insert_eq. done.
  - rewrite update_config_world_file. destruct Hf1 as [-> ->]. done.
Qed.

(** ** Configuration merge *)

(** C8 as stated fails when the configuration file cannot be written:
    [update_plugin_config] returns [True] and the in-memory configuration is
    the merged one, but the persisted document still holds [{"a": 9}]. *)
Lemma update_unwritable_not_persisted :
  (update_plugin_config "ab" {[ "b" := VInt 7 ]}
     (_load_plugin "ab" ab_file (ab_world false)).2).1 = Ok true
  ∧ config
      <$> get_plugin "ab"
            (w_manager
               (update_plugin_config "ab" {[ "b" := VInt 7 ]}
                  (_load_plugin "ab" ab_file (ab_world false)).2).2)
    = Some {[ "a" := VInt 9; "b" := VInt 7 ]}
  ∧ stored_config
      (persisted
         (update_plugin_config "ab" {[ "b" := VInt 7 ]}
            (_load_plugin "ab" ab_file (ab_world false)).2).2) "ab"
    = Some {[ "a" := VInt 9 ]}.
Proof. repeat split; vm_compute; reflexivity. Qed.

(** C8, amended.  At load the effective configuration is the persisted one
    laid over the declared defaults, key by key; [update_plugin_config]
    lays the partial configuration over that, stores the result in the
    manager's configuration store and, when the configuration file can be
    written, in the persisted document before it returns.  With defaults
    [{"a": 1, "b": 2}], persisted [{"a": 9}] and update [{"b": 7}] the two
    configurations are [{"a": 9, "b": 2}] and [{"a": 9, "b": 7}]. *)
Theorem config_merge (w : World) (dir_name : string) (file : PluginFile)
    (namespace : list (string * Attr)) (cls : PyClass) (inst : Plugin)
    (saved partial : Config) :
  pf_spec file = true →
  pf_exec_module file = inr namespace →
  find_plugin_class (module_name_of dir_name) namespace = Some cls →
  cls_new cls = inr inst →
  _plugins (w_manager w) !! name (get_meta inst) = None →
  stored_config (_configs (w_manager w)) (name (get_meta inst)) = Some saved →
  let n := name (get_meta inst) in
  let defaults := get_default_config inst in
  ∃ w1 w2,
    _load_plugin dir_name file w = (Ok (), w1)
    ∧ config <$> get_plugin n (w_manager w1) = Some (saved ∪ defaults)
    ∧ (∀ k, (saved ∪ defaults) !! k
            = match saved !! k with Some v => Some v | None => defaults !! k end)
    ∧ update_plugin_config n partial w1 = (Ok true, w2)
    ∧ config <$> get_plugin n (w_manager w2)
      = Some (partial ∪ (saved ∪ defaults))
    ∧ stored_config (_configs (w_manager w2)) n
      = Some (partial ∪ (saved ∪ defaults))
    ∧ (w_writable w = true →
       stored_config (persisted w2) n = Some (partial ∪ (saved ∪ defaults)))
    ∧ (defaults = {[ "a" := VInt 1; "b" := VInt 2 ]} →
       saved = {[ "a" := VInt 9 ]} →
       partial = {[ "b" := VInt 7 ]} →
       saved ∪ defaults = {[ "a" := VInt 9; "b" := VInt 2 ]}
       ∧ partial ∪ (saved ∪ defaults) = {[ "a" := VInt 9; "b" := VInt 7 ]}).
Proof.
  intros Hspec Hexec Hfind Hnew Hfree Hsaved n defaults. subst n defaults.
  set (n := name (get_meta inst)) in *.
  set (defaults := get_default_config inst) in *.
  destruct (load_registers dir_name file namespace cls inst w
              Hspec Hexec Hfind Hnew Hfree) as (w1 & Hload & Hinst & Hcfg & Hwr).
  fold n defaults in Hinst. rewrite Hsaved in Hinst. simpl in Hinst.
  destruct (_plugins (w_manager w1) !! n) as [entry|] eqn:Hentry;
    [|discriminate].
  injection Hinst as Hinst.
  destruct (update_plugin_config_run n partial entry w1 Hentry)
    as (w2 & Hupd & Hconf & Hstored & Hfile).
  rewrite Hinst in Hconf, Hstored. simpl in Hconf, Hstored.
  exists w1, w2.
  split; [done|]. split.
  { unfold get_plugin. rewrite Hentry. simpl. by rewrite Hinst. }
  split.
  { intros k. rewrite lookup_union.
    by destruct (saved !! k), (defaults !! k). }
  split; [done|]. split; [done|]. split; [done|]. split.
  - intros Hw. unfold persisted. rewrite Hfile, Hwr, Hw. done.
  - intros -> -> ->. split; vm_compute; reflexivity.
Qed.

Lemma config_merge_witness :
  ∃ w1 w2,
    _load_plugin "ab" ab_file (ab_world true) = (Ok (), w1)
    ∧ config <$> get_plugin "ab" (w_manager w1)
      = Some {[ "a" := VInt 9; "b" := VInt 2 ]}
    ∧ update_plugin_config "ab" {[ "b" := VInt 7 ]} w1 = (Ok true, w2)
    ∧ config <$> get_plugin "ab" (w_manager w2)
      = Some {[ "a" := VInt 9; "b" := VInt 7 ]}
    ∧ stored_config (persisted w2) "ab"
      = Some {[ "a" := VInt 9; "b" := VInt 7 ]}.
Proof.
  destruct (config_merge (ab_world true) "ab" ab_file
              [("AbPlugin", AttrType (plugin_class "ab" "AbPlugin" ab_plugin))]
              (plugin_class "ab" "AbPlugin" ab_plugin) ab_plugin
              {[ "a" := VInt 9 ]} {[ "b" := VInt 7 ]}
              eq_refl eq_refl eq_refl eq_refl eq_refl eq_refl)
    as (w1 & w2 & Hload & Hc1 & _ & Hupd & Hc2 & _ & Hp & _).
  exists w1, w2.
  split; [exact Hload|]. split; [exact Hc1|]. split; [exact Hupd|].
  split; [exact Hc2|]. exact (Hp eq_refl).
Defined.

(** ** Discovery *)

Lemma find_plugin_class_head module_name namespace :
  find_plugin_class module_name namespace
  = head (qualifying module_name namespace).
Proof.
  unfold qualifying.
  induction namespace as [|[attr_name attr] rest IH]; simpl; [done|].
  by destruct (qualifies module_name attr).
Qed.

Lemma registry_grows_refl w : registry_grows w w.
Proof. by intros n. Qed.

Lemma registry_grows_trans w1 w2 w3 :
  registry_grows w1 w2 → registry_grows w2 w3 → registry_grows w1 w3.
Proof. intros H1 H2 n Hn. by apply H2, H1. Qed.

Lemma keeps_configs_registry w w' : keeps_configs w w' → registry_grows w w'.
Proof.
  intros (Hi & _) n Hn.
  apply (fmap_is_Some instance). rewrite Hi. by apply fmap_is_Some.
Qed.

(** Whatever a unit does, loading it removes nothing from the registry. *)
Lemma load_plugin_registry dir_name file w :
  registry_grows w (_load_plugin dir_name file w).2.
Proof.
  unfold _load_plugin.
  destruct (pf_spec file); cbn [negb]; [|apply registry_grows_refl].
  destruct (pf_exec_module file) as [e|namespace]; [apply registry_grows_refl|].
  destruct (find_plugin_class _ namespace) as [cls|];
    [|apply registry_grows_refl].
  destruct (cls_new cls) as [[e|meta e]|inst]; [apply registry_grows_refl| |].
  { unfold mbind, M_bind, get_manager.
    destruct (_plugins (w_manager w) !! name meta); by intros n Hn. }
  unfold mbind, M_bind, get_manager.
  destruct (_plugins (w_manager w) !! name (get_meta inst)) eqn:Hfree;
    [by intros n Hn|].
  unfold update_manager.
  set (w0 := with_manager _ w).
  assert (H0 : registry_grows w w0).
  { intros n Hn. unfold w0. simpl.
    destruct (decide (name (get_meta inst) = n)) as [->|Hne].
    - by rewrite lookup_insert_eq.
    - by rewrite lookup_insert_ne. }
  destruct (default false _).
  - destruct (activate_plugin_keeps (name (get_meta inst)) w0)
      as (r & w1 & Hrun & Hk).
    rewrite Hrun. cbv beta iota. unfold mret, M_ret. rewrite emit_run. simpl.
    eapply registry_grows_trans; [exact H0|].
    apply keeps_configs_registry.
    eapply keeps_configs_trans; [exact Hk|apply keeps_configs_emit].
  - unfold mret, M_ret. rewrite emit_run. simpl.
    eapply registry_grows_trans; [exact H0|].
    apply keeps_configs_registry, keeps_configs_emit.
Qed.

(** A loadable unit ends up with its plugin name registered: by this load,
    or because the name was taken before. *)
Lemma load_plugin_loadable dir_name file namespace c rest inst w :
  pf_spec file = true →
  pf_exec_module file = inr namespace →
  qualifying (module_name_of dir_name) namespace = c :: rest →
  cls_new c = inr inst →
  ∃ w', _load_plugin dir_name file w = (Ok (), w')
        ∧ is_Some (_plugins (w_manager w') !! name (get_meta inst)).
Proof.
  intros Hspec Hexec Hq Hnew.
  assert (Hfind : find_plugin_class (module_name_of dir_name) namespace = Some c)
    by (by rewrite find_plugin_class_head, Hq).
  destruct (_plugins (w_manager w) !! name (get_meta inst)) as [e|] eqn:Hfree.
  - unfold _load_plugin. rewrite Hspec, Hexec, Hfind, Hnew. cbn [negb].
    unfold mbind, M_bind, get_manager. rewrite Hfree. unfold logger.
    eexists. split; [reflexivity|]. simpl. by rewrite Hfree.
  - destruct (load_registers dir_name file namespace c inst w
                Hspec Hexec Hfind Hnew Hfree) as (w' & Hrun & Hinst & _).
    exists w'. split; [done|].
    apply (fmap_is_Some instance). by rewrite Hinst.
Qed.

(** The loop over a directory listing never raises, removes nothing from the
    registry, and registers the name of every loadable unit of the listing,
    whatever the other units do. *)
Lemma discover_candidates_run candidates w :
  ∃ w', discover_candidates candidates w = (Ok (), w')
        ∧ registry_grows w w'
        ∧ ∀ cand inst, cand ∈ candidates → loadable cand inst →
            is_Some (_plugins (w_manager w') !! name (get_meta inst)).
Proof.
  revert w. induction candidates as [|cand rest IH]; intros w.
  - exists w. split; [done|]. split; [apply registry_grows_refl|].
    intros cand inst Hin. by apply elem_of_nil in Hin.
  - assert (Hstep : ∃ w1,
      (if negb (cand_is_dir cand) then mret ()
       else if startswith (cand_name cand) "_"
               || startswith (cand_name cand) "."
       then mret ()
       else
         match cand_plugin_file cand with
         | None => mret ()
         | Some plugin_file =>
             try_except (_load_plugin (cand_name cand) plugin_file)
               (λ e, logger (LoadFailed (cand_name cand) e))
         end) w = (Ok (), w1)
      ∧ registry_grows w w1
      ∧ ∀ inst, loadable cand inst →
          is_Some (_plugins (w_manager w1) !! name (get_meta inst))).
    { destruct (cand_is_dir cand) eqn:Hdir; cbn [negb].
      2:{ exists w. split; [done|]. split; [apply registry_grows_refl|].
          intros inst (Hd & _). congruence. }
      destruct (startswith (cand_name cand) "_") eqn:Hu; cbn [orb].
      { exists w. split; [done|]. split; [apply registry_grows_refl|].
        intros inst (_ & Hu' & _). congruence. }
      destruct (startswith (cand_name cand) ".") eqn:Hdot.
      { exists w. split; [done|]. split; [apply registry_grows_refl|].
        intros inst (_ & _ & Hdot' & _). congruence. }
      destruct (cand_plugin_file cand) as [file|] eqn:Hfile.
      2:{ exists w. split; [done|]. split; [apply registry_grows_refl|].
          intros inst (_ & _ & _ & f & ns & c & r & Hf & _). congruence. }
      pose proof (load_plugin_registry (cand_name cand) file w) as Hgrow.
      unfold try_except.
      destruct (_load_plugin (cand_name cand) file w) as [[[]|e] w1] eqn:Hrun.
      - exists w1. split; [done|]. split; [done|].
        intros inst (_ & _ & _ & f & ns & c & r & Hf & Hs & He & Hq & Hn).
        assert (f = file) as -> by congruence.
        destruct (load_plugin_loadable (cand_name cand) file ns c r inst w
                    Hs He Hq Hn) as (w' & Hrun' & Hreg).
        rewrite Hrun in Hrun'. by injection Hrun' as <-.
      - eexists. split; [reflexivity|]. split; [done|].
        intros inst (_ & _ & _ & f & ns & c & r & Hf & Hs & He & Hq & Hn).
        assert (f = file) as -> by congruence.
        destruct (load_plugin_loadable (cand_name cand) file ns c r inst w
                    Hs He Hq Hn) as (w' & Hrun' & Hreg).
        rewrite Hrun in Hrun'. discriminate. }
    destruct Hstep as (w1 & Hrun1 & Hgrow1 & Hreg1).
    destruct (IH w1) as (w' & Hrun & Hgrow & Hreg).
    exists w'. split; [|split].
    + cbn [discover_candidates]. unfold mbind, M_bind at 1.
      by rewrite Hrun1.
    + by eapply registry_grows_trans.
    + intros c inst [->|Hin]%elem_of_cons Hload.
      * by apply Hgrow, Hreg1.
      * by eapply Hreg.
Qed.

(** Over paths whose visit completes, discovery does not raise, removes
    nothing from the registry, and registers the name of every loadable
    unit. *)
Lemma discover_plugins_run plugin_dirs w :
  Forall completes plugin_dirs →
  ∃ w', discover_plugins plugin_dirs w = (Ok (), w')
        ∧ registry_grows w w'
        ∧ ∀ candidates cand inst,
            Listing candidates ∈ plugin_dirs → cand ∈ candidates →
            loadable cand inst →
            is_Some (_plugins (w_manager w') !! name (get_meta inst)).
Proof.
  intros Hl. revert w.
  induction Hl as [|[|candidates|candidates e] rest Hd _ IH]; intros w.
  - exists w. split; [done|]. split; [apply registry_grows_refl|].
    intros ? ? ? Hin. by apply elem_of_nil in Hin.
  - destruct (IH w) as (w' & Hrun & Hg & Hr).
    exists w'. split; [done|]. split; [done|].
    intros cs cand inst [[=]|Hin]%elem_of_cons Hc Hload. by eapply Hr.
  - destruct (discover_candidates_run candidates w) as (w1 & Hrun1 & Hg1 & Hr1).
    destruct (IH w1) as (w' & Hrun & Hg & Hr).
    exists w'. split; [|split].
    + cbn [discover_plugins]. unfold mbind, M_bind at 1.
      by rewrite Hrun1.
    + by eapply registry_grows_trans.
    + intros cs cand inst [[= ->]|Hin]%elem_of_cons Hc Hload.
      * by eapply Hg, Hr1.
      * by eapply Hr.
  - destruct Hd.
Qed.

(** A path whose visit stops ends discovery with that exception, after the
    paths before it and its own entries up to that point were visited. *)
Lemma discover_plugins_stops before candidates e rest w :
  Forall completes before →
  ∃ w1 w2, discover_plugins before w = (Ok (), w1)
           ∧ discover_candidates candidates w1 = (Ok (), w2)
           ∧ discover_plugins (before ++ Stops candidates e :: rest) w
             = (Exc e, w2).
Proof.
  intros Hl. revert w.
  induction Hl as [|[|l|l e0] before Hd _ IH]; intros w.
  - destruct (discover_candidates_run candidates w) as (w2 & Hrun & _).
    exists w, w2. split; [done|]. split; [done|].
    cbn [app discover_plugins]. unfold mbind, M_bind. by rewrite Hrun.
  - apply IH.
  - destruct (discover_candidates_run l w) as (w0 & Hrun0 & _).
    destruct (IH w0) as (w1 & w2 & Hrun & Hcand & Hexc).
    exists w1, w2. rewrite <- app_comm_cons. cbn [discover_plugins].
    unfold mbind, M_bind at 1 2. by rewrite Hrun0.
  - destruct Hd.
Qed.

(** C3 as stated fails: a unit that defines two qualifying classes, [Alpha]
    and [Beta], does not fail to load; the loader takes [Alpha], the first
    in attribute order, and registers its plugin. *)
Lemma two_candidates_still_load :
  cls_name <$> qualifying (module_name_of "two") two_class_namespace
  = ["Alpha"; "Beta"]
  ∧ (_load_plugin "two" two_class_file fresh_world).1 = Ok ()
  ∧ (λ e, name (meta e))
      <$> _plugins (w_manager (_load_plugin "two" two_class_file fresh_world).2)
          !! "first"
    = Some "first"
  ∧ _plugins (w_manager (_load_plugin "two" two_class_file fresh_world).2)
      !! "second"
    = None.
Proof. repeat split; vm_compute; reflexivity. Qed.

(** C3, amended.  Loading a unit fails with an import error when no class
    of the unit qualifies (a public class defined in the unit that is a
    proper subclass of the plugin base).  When one or more qualify the
    loader takes the first in attribute order and does not fail on the
    others; what happens next depends on that class alone.  If the class
    cannot be instantiated or its metadata cannot be had, the load fails
    with that exception.  If its default configuration cannot be had, the
    load fails with that exception when the reported name is free, and is
    skipped as a name conflict when the name is taken.  Otherwise, the
    configuration store being of the shape the manager writes, the load
    returns with the plugin's name registered, by this load when the name
    was free.  Failures of units are isolated: over plugin paths that are
    missing or are directories whose entries can all be listed and
    examined, discovery does not raise, removes nothing from the registry,
    and ends with the name of every loadable unit registered, whatever the
    other units did.  A failure to list a path or to examine an entry is
    not isolated: discovery visits what comes before it and then raises
    that exception. *)
Theorem loader_takes_first_candidate (w : World) (dir_name : string)
    (file : PluginFile) (namespace : list (string * Attr))
    (plugin_dirs : list PluginDir) :
  pf_spec file = true →
  pf_exec_module file = inr namespace →
  let candidates := qualifying (module_name_of dir_name) namespace in
  (candidates = [] →
   _load_plugin dir_name file w
   = (Exc "ImportError: no BasePlugin subclass found", w))
  ∧ (∀ c rest e, candidates = c :: rest → cls_new c = inl (InitRaises e) →
       _load_plugin dir_name file w = (Exc e, w))
  ∧ (∀ c rest meta e, candidates = c :: rest →
       cls_new c = inl (DefaultsRaise meta e) →
       (_plugins (w_manager w) !! name meta = None →
        _load_plugin dir_name file w = (Exc e, w))
       ∧ (is_Some (_plugins (w_manager w) !! name meta) →
          _load_plugin dir_name file w
          = (Ok (), add_log (NameConflict (name meta)) w)))
  ∧ (∀ c rest inst, candidates = c :: rest → cls_new c = inr inst →
       ∃ w', _load_plugin dir_name file w = (Ok (), w')
             ∧ is_Some (_plugins (w_manager w') !! name (get_meta inst))
             ∧ (_plugins (w_manager w) !! name (get_meta inst) = None →
                get_meta <$> get_plugin (name (get_meta inst)) (w_manager w')
                = Some (get_meta inst)))
  ∧ (Forall completes plugin_dirs →
     ∃ w', discover_plugins plugin_dirs w = (Ok (), w')
           ∧ registry_grows w w'
           ∧ ∀ listing cand inst,
               Listing listing ∈ plugin_dirs → cand ∈ listing →
               loadable cand inst →
               is_Some (_plugins (w_manager w') !! name (get_meta inst)))
  ∧ (∀ before visited e rest,
       plugin_dirs = before ++ Stops visited e :: rest →
       Forall completes before →
       ∃ w1 w2, discover_plugins before w = (Ok (), w1)
                ∧ discover_candidates visited w1 = (Ok (), w2)
                ∧ discover_plugins plugin_dirs w = (Exc e, w2)).
Proof.
  intros Hspec Hexec candidates.
  assert (Hscan : ∀ c rest, candidates = c :: rest →
    _load_plugin dir_name file w
    = match cls_new c with
      | inl (InitRaises e) => raise e w
      | inl (DefaultsRaise meta e) =>
          match _plugins (w_manager w) !! name meta with
          | Some _ => logger (NameConflict (name meta)) w
          | None => raise e w
          end
      | inr inst => _load_plugin dir_name file w
      end).
  { intros c rest Hc. unfold _load_plugin.
    rewrite Hspec, Hexec, find_plugin_class_head. fold candidates.
    rewrite Hc. simpl. destruct (cls_new c) as [[e|meta e]|inst]; try done.
    unfold mbind, M_bind, get_manager.
    by destruct (_plugins (w_manager w) !! name meta). }
  split; [|split; [|split; [|split; [|split]]]].
  - intros Hnone. unfold _load_plugin.
    rewrite Hspec, Hexec, find_plugin_class_head. fold candidates.
    by rewrite Hnone.
  - intros c rest e Hc Hnew. by rewrite (Hscan c rest Hc), Hnew.
  - intros c rest meta e Hc Hnew. rewrite (Hscan c rest Hc), Hnew.
    split; [by intros ->|]. by intros [entry ->].
  - intros c rest inst Hc Hnew.
    destruct (load_plugin_loadable dir_name file namespace c rest inst w
                Hspec Hexec Hc Hnew) as (w' & Hrun & Hreg).
    exists w'. split; [done|]. split; [done|].
    intros Hfree.
    assert (Hfind : find_plugin_class (module_name_of dir_name) namespace
                    = Some c)
      by (rewrite find_plugin_class_head; fold candidates; by rewrite Hc).
    destruct (load_registers dir_name file namespace c inst w
                Hspec Hexec Hfind Hnew Hfree) as (w'' & Hrun' & Hinst & _).
    rewrite Hrun in Hrun'. injection Hrun' as <-.
    unfold get_plugin. rewrite Hinst. done.
  - apply discover_plugins_run.
  - intros before visited e rest -> Hl. by apply discover_plugins_stops.
Qed.

Lemma loader_takes_first_candidate_witness :
  (∃ w', discover_plugins complete_dirs fresh_world = (Ok (), w')
         ∧ is_Some (_plugins (w_manager w') !! "ab")
         ∧ _plugins (w_manager w') !! "nd" = None)
  ∧ (_load_plugin "nd" no_defaults_file fresh_world).1
    = Exc "KeyError: 'defaults'"
  ∧ ∃ w', discover_plugins complete_dirs fresh_world = (Ok (), w')
          ∧ discover_plugins mixed_dirs fresh_world
            = (Exc "NotADirectoryError: plugins.txt", w').
Proof.
  split; [|split].
  - destruct (loader_takes_first_candidate fresh_world "two" two_class_file
                two_class_namespace complete_dirs eq_refl eq_refl)
      as (_ & _ & _ & _ & Hdisc & _).
    destruct Hdisc as (w' & Hrun & _ & Hreg).
    { repeat constructor. }
    exists w'. split; [exact Hrun|]. split.
    + apply (Hreg nd_listing
               {| cand_name := "ab"; cand_is_dir := true;
                  cand_plugin_file := Some ab_file |} ab_plugin).
      * right. left.
      * do 3 right. left.
      * split; [reflexivity|]. split; [reflexivity|]. split; [reflexivity|].
        exists ab_file,
          [("AbPlugin", AttrType (plugin_class "ab" "AbPlugin" ab_plugin))],
          (plugin_class "ab" "AbPlugin" ab_plugin), [].
        repeat split; reflexivity.
    + assert (Hw' : w' = (discover_plugins complete_dirs fresh_world).2)
        by (by rewrite Hrun).
      rewrite Hw'. vm_compute. reflexivity.
  - destruct (loader_takes_first_candidate fresh_world "nd" no_defaults_file
                _ [] eq_refl eq_refl) as (_ & _ & Hnd & _).
    destruct (Hnd _ [] (meta_named "nd") "KeyError: 'defaults'"
                eq_refl eq_refl) as [Hfree _].
    by rewrite Hfree.
  - destruct (loader_takes_first_candidate fresh_world "two" two_class_file
                two_class_namespace mixed_dirs eq_refl eq_refl)
      as (_ & _ & _ & _ & _ & Hstop).
    destruct (Hstop complete_dirs [] "NotADirectoryError: plugins.txt" []
                eq_refl) as (w1 & w2 & Hrun & Hvisit & Hexc).
    + repeat constructor.
    + exists w1. split; [exact Hrun|].
      rewrite Hexc. by injection Hvisit as ->.
Defined.

(** * Further properties of the bus *)

(** ** The table stays sorted *)

Lemma sort_by_priority_sorted_id l :
  StronglySorted prio_le l → sort_by_priority l = l.
Proof. intros Hl. symmetry. by apply sort_by_priority_unique. Qed.

Lemma table_sorted_call c w :
  table_sorted (w_bus w) → table_sorted (w_bus (bus_call c w).2).
Proof.
  intros Hs ev. rewrite bus_call_bus.
  destruct c as [event h p o s|event h s|s|event data].
  - rewrite handlers_of_on. case_decide; [|apply Hs].
    apply sort_by_priority_sorted.
  - rewrite handlers_of_off. case_decide; [|apply Hs].
    apply StronglySorted_filter, Hs.
  - rewrite handlers_of_off_all. apply StronglySorted_filter, Hs.
  - rewrite handlers_of_emit. case_decide; [|apply Hs].
    apply StronglySorted_filter, Hs.
Qed.

Lemma table_sorted_reachable w : bus_reachable w → table_sorted (w_bus w).
Proof.
  induction 1 as [w Hw|w c _ IH].
  - rewrite Hw. intros ev. constructor.
  - by apply table_sorted_call.
Qed.

(** X1.  In every state reached through the bus's methods each per-event
    list is in ascending priority, so sorting it again changes nothing, and
    the rows [get_listeners(event)] reports are in ascending priority. *)
Theorem listener_lists_stay_sorted (w : World) (event : string) :
  bus_reachable w →
  StronglySorted prio_le (handlers_of (w_bus w) event)
  ∧ sort_by_priority (handlers_of (w_bus w) event) = handlers_of (w_bus w) event
  ∧ (event ≠ "" →
     StronglySorted Z.le (i_priority <$> get_listeners (Some event) (w_bus w))).
Proof.
  intros Hw. pose proof (table_sorted_reachable w Hw event) as Hs.
  split; [done|]. split; [by apply sort_by_priority_sorted_id|].
  intros Hne. unfold get_listeners. rewrite decide_False by done.
  change (default [] (_handlers (w_bus w) !! event))
    with (handlers_of (w_bus w) event).
  induction Hs as [|x l Hl IH Hx]; [constructor|].
  rewrite !fmap_cons. constructor; [exact IH|].
  rewrite Forall_fmap, Forall_fmap. exact Hx.
Qed.

Lemma listener_lists_stay_sorted_witness :
  StronglySorted prio_le
    (handlers_of (w_bus (run_calls mixed_calls fresh_world)) "e")
  ∧ sort_by_priority (handlers_of (w_bus (run_calls mixed_calls fresh_world)) "e")
    = handlers_of (w_bus (run_calls mixed_calls fresh_world)) "e"
  ∧ ("e" ≠ "" →
     StronglySorted Z.le
       (i_priority
          <$> get_listeners (Some "e") (w_bus (run_calls mixed_calls fresh_world)))).
Proof.
  apply (listener_lists_stay_sorted (run_calls mixed_calls fresh_world) "e").
  do 7 apply reachable_call. apply reachable_init. reflexivity.
Defined.

(** ** The history stays bounded *)

Lemma history_bounded_call c w :
  history_bounded (w_bus w) → history_bounded (w_bus (bus_call c w).2).
Proof.
  intros [Hlim Hlen]. rewrite bus_call_bus.
  destruct c as [event h p o s|event h s|s|event data]; try done.
  - unfold off. destruct (_handlers (w_bus w) !! event); [|done].
    by destruct h, s.
  - destruct (emit_world_history event data w) as [Hh Hl].
    split; [congruence|].
    rewrite Hh, record_history_history, length_most_recent by done. lia.
Qed.

(** X2.  In every state reached through the bus's methods the history limit
    is still 100 and the history holds at most 100 records. *)
Theorem history_never_exceeds_limit (w : World) :
  bus_reachable w →
  _history_limit (w_bus w) = 100 ∧ (length (_event_history (w_bus w)) ≤ 100)%nat.
Proof.
  induction 1 as [w Hw|w c _ IH].
  - rewrite Hw. simpl. split; [done|lia].
  - by apply history_bounded_call.
Qed.

Lemma history_never_exceeds_limit_witness :
  _history_limit (w_bus (run_calls mixed_calls fresh_world)) = 100
  ∧ (length (_event_history (w_bus (run_calls mixed_calls fresh_world))) ≤ 100)%nat.
Proof.
  apply (history_never_exceeds_limit (run_calls mixed_calls fresh_world)).
  do 7 apply reachable_call. apply reachable_init. reflexivity.
Defined.

(** X4.  A negative limit does not raise: [get_history(-k)] drops the [k]
    oldest records and returns the rest, oldest first. *)
Theorem get_history_negative_limit (bus : EventBus) (k : Z) :
  0 < k →
  get_history (- k) bus = drop (Z.to_nat k) (_event_history bus).
Proof.
  intros Hk. unfold get_history, slice_from. rewrite Z.opp_involutive.
  destruct (Z.ltb_spec k 0); [lia|].
  destruct (Z.min_spec k (Z.of_nat (length (_event_history bus))))
    as [[Hlt ->]|[Hge ->]]; [done|].
  rewrite Nat2Z.id, drop_all. symmetry. apply drop_ge. lia.
Qed.

Lemma get_history_negative_limit_witness :
  get_history (- 1) (w_bus (publish_all_world [("a", None); ("b", None)] fresh_world))
  = drop (Z.to_nat 1)
      (_event_history
         (w_bus (publish_all_world [("a", None); ("b", None)] fresh_world))).
Proof.
  apply (get_history_negative_limit
           (w_bus (publish_all_world [("a", None); ("b", None)] fresh_world)) 1).
  lia.
Defined.

(** ** Unsubscribing *)

Lemma all_handlers_off_all source bus ev :
  all_handlers ev (off_all source bus)
  = filter (λ e, l_source e ≠ source) (all_handlers ev bus).
Proof.
  unfold all_handlers.
  change (default [] (_handlers ?b !! ?e)) with (handlers_of b e).
  by rewrite !handlers_of_off_all, filter_sort_by_priority, filter_app.
Qed.

(** X5.  [off_all(source)] removes the entries of that source from the list
    of every event, the wildcard included, keeps all other entries in their
    order, and leaves the history alone; the next publish therefore calls
    the listeners it would have called before, minus those of the source, in
    the same order. *)
Theorem off_all_removes_only_the_source (w : World) (source event : string)
    (data : option Data) :
  let w1 := (bus_call (CallOffAll source) w).2 in
  no_listeners_of source (w_bus w1)
  ∧ listeners_tagged source (w_bus w1) = []
  ∧ handlers_of (w_bus w1) event
    = filter (λ e, l_source e ≠ source) (handlers_of (w_bus w) event)
  ∧ _event_history (w_bus w1) = _event_history (w_bus w)
  ∧ w_calls (emit_world event data w1)
    = w_calls w
      ++ (call_of event (default [] data)
            <$> filter (λ e, l_source e ≠ source) (all_handlers event (w_bus w))).
Proof.
  intros w1.
  assert (Hbus : w_bus w1 = off_all source (w_bus w)) by done.
  split; [rewrite Hbus; apply no_listeners_off_all|].
  split; [rewrite Hbus; apply no_listeners_tagged, no_listeners_off_all|].
  split; [rewrite Hbus; apply handlers_of_off_all|].
  split; [done|].
  by rewrite emit_world_calls, Hbus, all_handlers_off_all.
Qed.

Lemma filter_all {A : Type} (P : A → Prop) `{∀ x, Decision (P x)} (l : list A) :
  (∀ x, x ∈ l → P x) → filter P l = l.
Proof.
  induction l as [|x l IH]; intros HP; [done|].
  rewrite filter_cons_True by (apply HP; left).
  rewrite IH; [done|]. intros y Hy. apply HP. by right.
Qed.

(** X7.  Subscribe and unsubscribe undo each other: in a reachable state,
    subscribing a handler that has no entry under the event yet and then
    calling [off(event, handler)] gives back every per-event list exactly as
    it was. *)
Theorem on_then_off_restores_lists (w : World) (event ev : string)
    (h : Handler) (priority : Z) (once : bool) (source : string) :
  bus_reachable w →
  (∀ x, x ∈ handlers_of (w_bus w) event → hid (l_handler x) ≠ hid h) →
  handlers_of
    (off event (Some h) None (on event h priority once source (w_bus w)).2) ev
  = handlers_of (w_bus w) ev.
Proof.
  intros Hw Hfresh. rewrite handlers_of_off, handlers_of_on.
  case_decide as Hev; [|done]. subst ev.
  change (off_keeps (Some h) None) with (λ e : Entry, hid (l_handler e) ≠ hid h).
  rewrite filter_sort_by_priority, filter_app.
  rewrite (filter_cons _ (new_entry event h priority once source)).
  rewrite decide_False by (simpl; tauto).
  rewrite filter_nil, app_nil_r.
  rewrite (filter_all _ (handlers_of (w_bus w) event)) by done.
  apply sort_by_priority_sorted_id, table_sorted_reachable, Hw.
Qed.

Lemma on_then_off_restores_lists_witness :
  handlers_of
    (off "e" (Some (handler_at 9)) None
       (on "e" (handler_at 9) 15 false "z"
          (w_bus (run_calls mixed_calls fresh_world))).2) "e"
  = handlers_of (w_bus (run_calls mixed_calls fresh_world)) "e".
Proof.
  apply (on_then_off_restores_lists (run_calls mixed_calls fresh_world)).
  - do 7 apply reachable_call. apply reachable_init. reflexivity.
  - intros x Hx. vm_compute in Hx.
    repeat (apply elem_of_cons in Hx as [->|Hx]; [intros [=]|]).
    by apply elem_of_nil in Hx.
Defined.

(** * Further properties of the plugin manager *)

(** ** The lifecycle methods, run *)

Lemma activate_plugin_success_run name entry w :
  _plugins (w_manager w) !! name = Some entry →
  active entry = false →
  (activate (instance entry) (config (instance entry))).2 = Returned →
  activate_plugin name w = (Ok true, activated_world name entry w).
Proof.
  intros Hentry Hactive Hret.
  unfold activate_plugin, activated_world, mbind, M_bind, get_manager.
  rewrite Hentry, Hactive. unfold try_except.
  rewrite run_script_run, Hret.
  unfold update_entry, update_manager.
  by rewrite _update_config_run, emit_run.
Qed.

Lemma activate_plugin_failure_run name entry msg w :
  _plugins (w_manager w) !! name = Some entry →
  active entry = false →
  (activate (instance entry) (config (instance entry))).2 = Raised msg →
  activate_plugin name w = (Ok false, activation_failed_world name msg entry w).
Proof.
  intros Hentry Hactive Hret.
  unfold activate_plugin, activation_failed_world, mbind, M_bind, get_manager.
  rewrite Hentry, Hactive. unfold try_except.
  rewrite run_script_run, Hret.
  unfold update_entry, update_manager, logger.
  by rewrite emit_run.
Qed.

Lemma deactivate_plugin_run name entry w :
  _plugins (w_manager w) !! name = Some entry →
  active entry = true →
  deactivate_plugin name w = (Ok true, deactivated_world name entry w).
Proof.
  intros Hentry Hactive.
  unfold deactivate_plugin, deactivated_world, mbind, M_bind, get_manager.
  rewrite Hentry, Hactive. cbn [negb].
  unfold try_except. rewrite run_script_run.
  destruct (deactivate (instance entry) (config (instance entry))).2;
    unfold logger, update_bus, update_entry, update_manager;
    by rewrite _update_config_run, emit_run.
Qed.

Lemma update_plugin_config_closed name new_config entry w :
  _plugins (w_manager w) !! name = Some entry →
  update_plugin_config name new_config w
  = (Ok true, config_updated_world name new_config entry w).
Proof.
  intros Hentry.
  unfold update_plugin_config, config_updated_world, mbind, M_bind, get_manager.
  rewrite Hentry. unfold update_entry, update_manager, try_except.
  destruct (on_config_changed (instance entry) _);
    unfold logger, mret, M_ret, raise; cbv beta iota;
    by rewrite _update_config_run.
Qed.

Lemma activated_world_plugins name entry w :
  _plugins (w_manager w) !! name = Some entry →
  _plugins (w_manager (activated_world name entry w))
  = <[name := set_error None (set_active true entry)]> (_plugins (w_manager w)).
Proof.
  intros Hentry. unfold activated_world.
  rewrite (proj1 (emit_world_outside _ _ _)), update_config_world_plugins.
  simpl. rewrite (proj1 (run_calls_outside _ _)).
  apply map_eq. intros k. destruct (decide (name = k)) as [->|Hne].
  - by rewrite lookup_insert_eq, !lookup_alter_eq, Hentry.
  - by rewrite lookup_insert_ne, !lookup_alter_ne.
Qed.

Lemma deactivated_world_plugins name entry w :
  _plugins (w_manager w) !! name = Some entry →
  _plugins (w_manager (deactivated_world name entry w))
  = <[name := set_error None (set_active false entry)]> (_plugins (w_manager w)).
Proof.
  intros Hentry. unfold deactivated_world.
  rewrite (proj1 (emit_world_outside _ _ _)), update_config_world_plugins.
  simpl.
  assert (Hm : ∀ (s : Script),
    w_manager match s.2 with
              | Returned => run_calls s.1 w
              | Raised msg =>
                  add_log (DeactivateHookFailed name msg) (run_calls s.1 w)
              end = w_manager w).
  { intros s. destruct s.2; simpl; apply run_calls_outside. }
  rewrite Hm.
  apply map_eq. intros k. destruct (decide (name = k)) as [->|Hne].
  - by rewrite lookup_insert_eq, !lookup_alter_eq, Hentry.
  - by rewrite lookup_insert_ne, !lookup_alter_ne.
Qed.

(** ** Activation *)

(** X11.  Activating a registered, inactive plugin whose [activate()]
    returns: [activate_plugin] returns [True], the plugin is active with no
    error, [enabled=true] is in the configuration store and, when the file
    can be written, in the persisted document.  Activation is idempotent:
    a second [activate_plugin] returns [True] and changes nothing, so
    [activate()] is not run again and no subscription is duplicated. *)
Theorem activate_once_then_noop (w : World) (name : string)
    (entry : PluginEntry) :
  _plugins (w_manager w) !! name = Some entry →
  active entry = false →
  (activate (instance entry) (config (instance entry))).2 = Returned →
  let w1 := activated_world name entry w in
  activate_plugin name w = (Ok true, w1)
  ∧ is_active name (w_manager w1) = true
  ∧ error <$> _plugins (w_manager w1) !! name = Some None
  ∧ stored_enabled (_configs (w_manager w1)) name = Some true
  ∧ (w_writable w = true → stored_enabled (persisted w1) name = Some true)
  ∧ activate_plugin name w1 = (Ok true, w1).
Proof.
  intros Hentry Hactive Hret w1.
  pose proof (activated_world_plugins name entry w Hentry) as Hp.
  fold w1 in Hp.
  assert (Hl : _plugins (w_manager w1) !! name
               = Some (set_error None (set_active true entry)))
    by (by rewrite Hp, lookup_insert_eq).
  split; [by apply activate_plugin_success_run|].
  split; [unfold is_active; by rewrite Hl|].
  split; [by rewrite Hl|].
  split.
  { unfold w1, activated_world, stored_enabled.
    rewrite (proj1 (emit_world_outside _ _ _)).
    by rewrite update_config_world_configs, lookup_insert_eq. }
  split.
  { intros Hwr. unfold w1, activated_world, persisted, stored_enabled.
    rewrite (proj1 (proj2 (emit_world_outside _ _ _))).
    rewrite update_config_world_file. simpl.
    rewrite (proj2 (proj2 (run_calls_outside _ _))), Hwr.
    by rewrite update_config_world_configs, lookup_insert_eq. }
  unfold activate_plugin, mbind, M_bind, get_manager. by rewrite Hl.
Qed.

Lemma activate_once_then_noop_witness :
  activate_plugin "p" inactive_world
  = (Ok true, activated_world "p"
                {| instance := two_listener_plugin; meta := meta_named "p";
                   active := false; error := None; dir := "plugins/p" |}
                inactive_world)
  ∧ i_id
      <$> listeners_tagged "p"
            (w_bus (activate_plugin "p" (activate_plugin "p" inactive_world).2).2)
    = ["e:1:p"; "f:2:p"].
Proof.
  destruct (activate_once_then_noop inactive_world "p" _ eq_refl eq_refl eq_refl)
    as (Hrun & _ & _ & _ & _ & Hagain).
  split; [exact Hrun|]. rewrite Hrun. simpl snd. rewrite Hagain.
  vm_compute. reflexivity.
Defined.

(** X12.  Activating a registered, inactive plugin whose [activate()]
    raises: [activate_plugin] returns [False] instead of raising, the plugin
    stays inactive, the message is recorded as its error and logged, and
    neither the configuration store nor the configuration file changes. *)
Theorem failed_activation_is_recorded (w : World) (name msg : string)
    (entry : PluginEntry) :
  _plugins (w_manager w) !! name = Some entry →
  active entry = false →
  (activate (instance entry) (config (instance entry))).2 = Raised msg →
  let w1 := activation_failed_world name msg entry w in
  activate_plugin name w = (Ok false, w1)
  ∧ is_active name (w_manager w1) = false
  ∧ error <$> _plugins (w_manager w1) !! name = Some (Some msg)
  ∧ ActivateFailed name msg ∈ w_log w1
  ∧ _configs (w_manager w1) = _configs (w_manager w)
  ∧ w_config_file w1 = w_config_file w.
Proof.
  intros Hentry Hactive Hret w1.
  destruct (run_calls_outside
              (activate (instance entry) (config (instance entry))).1 w)
    as (Hm & Hf & _).
  assert (Hman : w_manager w1
                 = {| _plugins := alter (set_error (Some msg)) name
                                    (_plugins (w_manager w));
                      _configs := _configs (w_manager w) |}).
  { unfold w1, activation_failed_world.
    rewrite (proj1 (emit_world_outside _ _ _)). simpl. by rewrite Hm. }
  split; [by apply activate_plugin_failure_run|].
  split.
  { unfold is_active. rewrite Hman. simpl.
    by rewrite lookup_alter_eq, Hentry. }
  split.
  { rewrite Hman. simpl. by rewrite lookup_alter_eq, Hentry. }
  split.
  { unfold w1, activation_failed_world. rewrite emit_world_log.
    rewrite elem_of_app. left. simpl. rewrite elem_of_app. right. left. }
  split; [by rewrite Hman|].
  unfold w1, activation_failed_world.
  by rewrite (proj1 (proj2 (emit_world_outside _ _ _))).
Qed.

Lemma failed_activation_is_recorded_witness :
  (activate_plugin "q" registered_world).1 = Ok false
  ∧ ActivateFailed "q" "cannot start"
    ∈ w_log (activate_plugin "q" registered_world).2.
Proof.
  destruct (failed_activation_is_recorded registered_world "q" "cannot start"
              _ eq_refl eq_refl eq_refl) as (Hrun & _ & _ & Hlog & _).
  rewrite Hrun. split; [reflexivity|exact Hlog].
Defined.

(** ** Deactivation, continued *)

(** X14.  Deactivation is idempotent: after [deactivate_plugin] of an active
    plugin, a second call returns [True] and changes nothing; the plugin's
    [deactivate()] is not run again. *)
Theorem deactivate_once_then_noop (w : World) (name : string)
    (entry : PluginEntry) :
  _plugins (w_manager w) !! name = Some entry →
  active entry = true →
  let w1 := deactivated_world name entry w in
  deactivate_plugin name w = (Ok true, w1)
  ∧ is_active name (w_manager w1) = false
  ∧ error <$> _plugins (w_manager w1) !! name = Some None
  ∧ deactivate_plugin name w1 = (Ok true, w1).
Proof.
  intros Hentry Hactive w1.
  pose proof (deactivated_world_plugins name entry w Hentry) as Hp.
  fold w1 in Hp.
  assert (Hl : _plugins (w_manager w1) !! name
               = Some (set_error None (set_active false entry)))
    by (by rewrite Hp, lookup_insert_eq).
  split; [by apply deactivate_plugin_run|].
  split; [unfold is_active; by rewrite Hl|].
  split; [by rewrite Hl|].
  unfold deactivate_plugin, mbind, M_bind, get_manager. by rewrite Hl.
Qed.

Lemma deactivate_once_then_noop_witness :
  deactivate_plugin "p" (deactivate_plugin "p" active_world).2
  = (Ok true, (deactivate_plugin "p" active_world).2).
Proof.
  destruct (deactivate_once_then_noop active_world "p" _ eq_refl eq_refl)
    as (Hrun & _ & _ & Hagain).
  rewrite Hrun. exact Hagain.
Defined.

(** ** Configurations are only changed by [update_plugin_config] *)

Lemma keeps_configs_alter2 (f g : PluginEntry → PluginEntry) name w :
  (∀ e, instance (f e) = instance e) →
  (∀ e, instance (g e) = instance e) →
  keeps_configs w
    (with_manager (λ m, {| _plugins := alter f name (alter g name (_plugins m));
                           _configs := _configs m |}) w).
Proof.
  intros Hf Hg. split; [|done]. intros k. simpl.
  destruct (decide (name = k)) as [->|Hne];
    [rewrite !lookup_alter_eq|by rewrite !lookup_alter_ne].
  destruct (_plugins (w_manager w) !! k); simpl; by rewrite ?Hf, ?Hg.
Qed.

Lemma deactivate_plugin_keeps name w :
  ∃ r w', deactivate_plugin name w = (Ok r, w') ∧ keeps_configs w w'.
Proof.
  destruct (_plugins (w_manager w) !! name) as [entry|] eqn:Hentry.
  - destruct (active entry) eqn:Hactive.
    + eexists _, _. split; [by apply deactivate_plugin_run|].
      unfold deactivated_world.
      eapply keeps_configs_trans; [|apply keeps_configs_emit].
      eapply keeps_configs_trans; [|apply keeps_configs_set_enabled].
      eapply keeps_configs_trans;
        [|apply (keeps_configs_alter2 (set_error None) (set_active false));
          reflexivity].
      eapply keeps_configs_trans;
        [|apply keeps_configs_same_manager; reflexivity].
      destruct (deactivate (instance entry) (config (instance entry))).2.
      * apply keeps_configs_run_calls.
      * eapply keeps_configs_trans;
          [apply keeps_configs_run_calls|apply keeps_configs_add_log].
    + unfold deactivate_plugin, mbind, M_bind, get_manager.
      rewrite Hentry, Hactive. by eexists _, _.
  - unfold deactivate_plugin, mbind, M_bind, get_manager.
    rewrite Hentry. by eexists _, _.
Qed.

(** X15.  Activating or deactivating any plugin, successfully or not, never
    changes the configuration of any plugin instance nor the [config] stored
    for any plugin: only the [enabled] flag of the store is written. *)
Theorem lifecycle_keeps_configs (w : World) (name k : string) :
  let wa := (activate_plugin name w).2 in
  let wd := (deactivate_plugin name w).2 in
  config <$> get_plugin k (w_manager wa) = config <$> get_plugin k (w_manager w)
  ∧ stored_config (_configs (w_manager wa)) k
    = stored_config (_configs (w_manager w)) k
  ∧ config <$> get_plugin k (w_manager wd) = config <$> get_plugin k (w_manager w)
  ∧ stored_config (_configs (w_manager wd)) k
    = stored_config (_configs (w_manager w)) k.
Proof.
  intros wa wd.
  destruct (activate_plugin_keeps name w) as (ra & wa' & Ha & Hia & Hca & _).
  destruct (deactivate_plugin_keeps name w) as (rd & wd' & Hd & Hid & Hcd & _).
  unfold wa, wd, get_plugin. rewrite Ha, Hd. simpl.
  by rewrite Hia, Hca, Hid, Hcd.
Qed.

(** X16.  [update_plugin_config] of a registered plugin returns [True]
    whether or not the plugin's [on_config_changed] raises (a failure is
    only logged).  The new configuration is the partial one laid over the
    current one key by key; it is stored for that plugin, in the file as
    well when it can be written; the plugin's [enabled] flag and the records
    and instances of all other plugins are left as they were. *)
Theorem update_config_survives_hook (w : World) (name : string)
    (partial : Config) (entry : PluginEntry) :
  _plugins (w_manager w) !! name = Some entry →
  let old := config (instance entry) in
  let w1 := config_updated_world name partial entry w in
  update_plugin_config name partial w = (Ok true, w1)
  ∧ config <$> get_plugin name (w_manager w1) = Some (partial ∪ old)
  ∧ (∀ key, (partial ∪ old) !! key
            = match partial !! key with
              | Some v => Some v
              | None => old !! key
              end)
  ∧ stored_config (_configs (w_manager w1)) name = Some (partial ∪ old)
  ∧ stored_enabled (_configs (w_manager w1)) name
    = stored_enabled (_configs (w_manager w)) name
  ∧ (w_writable w = true →
     w_config_file w1 = Document (_configs (w_manager w1)))
  ∧ (∀ k, k ≠ name →
       _plugins (w_manager w1) !! k = _plugins (w_manager w) !! k
       ∧ _configs (w_manager w1) !! k = _configs (w_manager w) !! k)
  ∧ (∀ msg, on_config_changed (instance entry) (partial ∪ old) = Raised msg →
       ConfigHookFailed name msg ∈ w_log w1).
Proof.
  intros Hentry old w1.
  set (merged := partial ∪ old).
  set (w0 := with_manager (λ m,
               {| _plugins := alter (set_instance_config merged) name (_plugins m);
                  _configs := _configs m |}) w).
  set (wh := match on_config_changed (instance entry) merged with
             | Returned => w0
             | Raised msg => add_log (ConfigHookFailed name msg) w0
             end).
  assert (Hw1 : w1 = update_config_world name (SetConfig merged) wh) by done.
  assert (Hm : w_manager wh = w_manager w0)
    by (unfold wh; by destruct (on_config_changed _ _)).
  assert (Hwr : w_writable wh = w_writable w)
    by (unfold wh; by destruct (on_config_changed _ _)).
  split; [by apply update_plugin_config_closed|].
  split.
  { unfold get_plugin. rewrite Hw1, update_config_world_plugins, Hm.
    unfold w0. simpl. by rewrite lookup_alter_eq, Hentry. }
  split.
  { intros key. unfold merged. rewrite lookup_union.
    by destruct (partial !! key), (old !! key). }
  split.
  { unfold stored_config.
    by rewrite Hw1, update_config_world_configs, lookup_insert_eq. }
  split.
  { unfold stored_enabled.
    rewrite Hw1, update_config_world_configs, lookup_insert_eq, Hm.
    unfold w0. simpl. by destruct (_configs (w_manager w) !! name). }
  split.
  { intros Hw. rewrite Hw1, update_config_world_file, Hwr, Hw. done. }
  split.
  { intros k Hk. rewrite Hw1, update_config_world_plugins,
      update_config_world_configs, Hm. unfold w0. simpl.
    by rewrite lookup_alter_ne, lookup_insert_ne. }
  intros msg Hmsg. rewrite Hw1.
  assert (Hlog : ConfigHookFailed name msg ∈ w_log wh).
  { unfold wh. rewrite Hmsg. simpl. rewrite elem_of_app. right. left. }
  unfold update_config_world. simpl.
  destruct (w_writable wh); simpl; [done|].
  rewrite elem_of_app. by left.
Qed.

Lemma update_config_survives_hook_witness :
  (update_plugin_config "h" {[ "b" := VInt 2 ]} hook_world).1 = Ok true
  ∧ ConfigHookFailed "h" "bad value"
    ∈ w_log (update_plugin_config "h" {[ "b" := VInt 2 ]} hook_world).2
  ∧ stored_config
      (_configs
         (w_manager (update_plugin_config "h" {[ "b" := VInt 2 ]} hook_world).2))
      "h"
    = Some {[ "a" := VInt 1; "b" := VInt 2 ]}.
Proof.
  destruct (update_config_survives_hook hook_world "h" {[ "b" := VInt 2 ]}
              _ eq_refl) as (Hrun & _ & _ & Hst & _ & _ & _ & Hlog).
  rewrite Hrun. split; [reflexivity|]. split.
  - apply Hlog. reflexivity.
  - simpl snd. rewrite Hst. vm_compute. reflexivity.
Defined.

(** ** Loading, run *)

Lemma stored_enabled_default (m : PluginManager) (name : string) :
  default false (enabled (default empty_record (_configs m !! name)))
  = default false (stored_enabled (_configs m) name).
Proof. unfold stored_enabled. by destruct (_configs m !! name). Qed.

Lemma load_plugin_closed dir_name file namespace cls inst w :
  pf_spec file = true →
  pf_exec_module file = inr namespace →
  find_plugin_class (module_name_of dir_name) namespace = Some cls →
  cls_new cls = inr inst →
  _plugins (w_manager w) !! name (get_meta inst) = None →
  _load_plugin dir_name file w = (Ok (), loaded_world file inst w).
Proof.
  intros Hspec Hexec Hfind Hnew Hfree.
  unfold _load_plugin, loaded_world.
  rewrite Hspec, Hexec, Hfind, Hnew. cbn [negb].
  unfold mbind, M_bind, get_manager. rewrite Hfree.
  unfold update_manager, fresh_entry.
  rewrite saved_config_stored, stored_enabled_default.
  destruct (default false _).
  - match goal with
    | |- context [activate_plugin ?n ?w0] =>
        destruct (activate_plugin_keeps n w0) as (r & w1 & Hrun & _)
    end.
    rewrite Hrun. cbv beta iota. unfold mret, M_ret.
    by rewrite emit_run.
  - unfold mret, M_ret. by rewrite emit_run.
Qed.

Lemma load_plugin_conflict dir_name file namespace cls inst existing w :
  pf_spec file = true →
  pf_exec_module file = inr namespace →
  find_plugin_class (module_name_of dir_name) namespace = Some cls →
  cls_new cls = inr inst →
  _plugins (w_manager w) !! name (get_meta inst) = Some existing →
  _load_plugin dir_name file w
  = (Ok (), add_log (NameConflict (name (get_meta inst))) w).
Proof.
  intros Hspec Hexec Hfind Hnew Htaken.
  unfold _load_plugin. rewrite Hspec, Hexec, Hfind, Hnew. cbn [negb].
  unfold mbind, M_bind, get_manager. by rewrite Htaken.
Qed.

(** Activation changes the [active] and [error] keys of an entry and
    nothing else. *)
Lemma activate_plugin_static name w k e :
  _plugins (w_manager w) !! k = Some e →
  ∃ e', _plugins (w_manager (activate_plugin name w).2) !! k = Some e'
        ∧ instance e' = instance e ∧ meta e' = meta e ∧ dir e' = dir e.
Proof.
  intros Hk.
  destruct (_plugins (w_manager w) !! name) as [entry|] eqn:Hentry.
  - destruct (active entry) eqn:Hactive.
    + unfold activate_plugin, mbind, M_bind, get_manager.
      rewrite Hentry, Hactive. by exists e.
    + destruct (activate (instance entry) (config (instance entry))).2
        as [|msg] eqn:Hret.
      * rewrite (activate_plugin_success_run name entry w) by done. simpl.
        rewrite activated_world_plugins by done.
        destruct (decide (name = k)) as [->|Hne].
        -- rewrite lookup_insert_eq. eexists. split; [done|].
           assert (entry = e) as -> by congruence. done.
        -- rewrite lookup_insert_ne by done. by exists e.
      * rewrite (activate_plugin_failure_run name entry msg w) by done.
        unfold activation_failed_world. simpl.
        rewrite (proj1 (emit_world_outside _ _ _)). simpl.
        rewrite (proj1 (run_calls_outside _ _)).
        destruct (decide (name = k)) as [->|Hne].
        -- rewrite lookup_alter_eq, Hk. simpl. by eexists.
        -- rewrite lookup_alter_ne by done. by exists e.
  - unfold activate_plugin, mbind, M_bind, get_manager.
    rewrite Hentry. by exists e.
Qed.

Lemma loaded_world_entry file inst w :
  ∃ e, _plugins (w_manager (loaded_world file inst w)) !! name (get_meta inst)
       = Some e
       ∧ instance e = instance (fresh_entry file inst (w_manager w))
       ∧ meta e = get_meta inst ∧ dir e = pf_parent file.
Proof.
  unfold loaded_world.
  rewrite (proj1 (emit_world_outside _ _ _)).
  set (n := name (get_meta inst)).
  set (w0 := with_manager _ w).
  assert (H0 : _plugins (w_manager w0) !! n
               = Some (fresh_entry file inst (w_manager w)))
    by (unfold w0; simpl; by rewrite lookup_insert_eq).
  destruct (default false _).
  - destruct (activate_plugin_static n w0 n _ H0) as (e' & He' & Hi & Hm & Hd).
    exists e'. by rewrite He', Hi, Hm, Hd.
  - eexists. by rewrite H0.
Qed.

(** ** Name collisions *)

(** X17.  When two units report the same plugin name, the first one loaded
    keeps the name: loading the second returns normally, only logs the
    conflict (no activation, no [plugin.loaded] event, nothing written), and
    the registry entry still carries the first unit's metadata, directory
    and instance. *)
Theorem first_unit_keeps_the_name (w : World) (dir1 dir2 : string)
    (file1 file2 : PluginFile) (ns1 ns2 : list (string * Attr))
    (cls1 cls2 : PyClass) (inst1 inst2 : Plugin) :
  pf_spec file1 = true → pf_exec_module file1 = inr ns1 →
  find_plugin_class (module_name_of dir1) ns1 = Some cls1 →
  cls_new cls1 = inr inst1 →
  pf_spec file2 = true → pf_exec_module file2 = inr ns2 →
  find_plugin_class (module_name_of dir2) ns2 = Some cls2 →
  cls_new cls2 = inr inst2 →
  name (get_meta inst2) = name (get_meta inst1) →
  _plugins (w_manager w) !! name (get_meta inst1) = None →
  let n := name (get_meta inst1) in
  let w1 := loaded_world file1 inst1 w in
  _load_plugin dir1 file1 w = (Ok (), w1)
  ∧ _load_plugin dir2 file2 w1 = (Ok (), add_log (NameConflict n) w1)
  ∧ ∃ e, _plugins (w_manager (add_log (NameConflict n) w1)) !! n = Some e
         ∧ meta e = get_meta inst1 ∧ dir e = pf_parent file1
         ∧ instance e = instance (fresh_entry file1 inst1 (w_manager w)).
Proof.
  intros Hs1 He1 Hf1 Hn1 Hs2 He2 Hf2 Hn2 Hsame Hfree n w1. subst n w1.
  destruct (loaded_world_entry file1 inst1 w) as (e & He & Hi & Hm & Hd).
  split; [by apply (load_plugin_closed dir1 file1 ns1 cls1)|].
  split.
  - rewrite <- Hsame.
    apply (load_plugin_conflict dir2 file2 ns2 cls2 inst2 e); try done.
    by rewrite Hsame.
  - exists e. by rewrite <- Hi.
Qed.

Lemma first_unit_keeps_the_name_witness :
  _load_plugin "dup" dup_file (loaded_world one_file first_plugin fresh_world)
  = (Ok (), add_log (NameConflict "first")
              (loaded_world one_file first_plugin fresh_world))
  ∧ dir
      <$> _plugins
            (w_manager
               (_load_plugin "dup" dup_file
                  (_load_plugin "one" one_file fresh_world).2).2) !! "first"
    = Some "plugins/one".
Proof.
  destruct (first_unit_keeps_the_name fresh_world "one" "dup" one_file dup_file
              _ _ _ _ first_plugin first_plugin
              eq_refl eq_refl eq_refl eq_refl eq_refl eq_refl eq_refl eq_refl
              eq_refl eq_refl) as (H1 & H2 & _).
  split; [exact H2|]. rewrite H1. simpl snd. rewrite H2. vm_compute. reflexivity.
Defined.

(** ** Startup *)

Lemma restart_configs w doc :
  w_config_file w = Document doc →
  _configs (w_manager (restart w)) = doc
  ∧ _plugins (w_manager (restart w)) = ∅
  ∧ w_bus (restart w) = EventBus_init.
Proof.
  intros Hdoc. unfold restart, PluginManager_init, mbind, M_bind, _load_configs.
  simpl. by rewrite Hdoc.
Qed.

(** X18.  What is stored decides what a new session starts with.  When the
    configuration file holds the store of the previous session, a restarted
    manager reads that store back, and loading a unit registers its plugin
    with the stored configuration laid over its defaults and, provided its
    [activate()] returns, leaves it active exactly when it was stored as
    enabled. *)
Theorem startup_restores_enabled_plugins (w : World) (dir_name : string)
    (file : PluginFile) (namespace : list (string * Attr)) (cls : PyClass)
    (inst : Plugin) :
  w_config_file w = Document (_configs (w_manager w)) →
  pf_spec file = true →
  pf_exec_module file = inr namespace →
  find_plugin_class (module_name_of dir_name) namespace = Some cls →
  cls_new cls = inr inst →
  (∀ c, (activate inst c).2 = Returned) →
  let n := name (get_meta inst) in
  let w' := loaded_world file inst (restart w) in
  _configs (w_manager (restart w)) = _configs (w_manager w)
  ∧ _load_plugin dir_name file (restart w) = (Ok (), w')
  ∧ config <$> get_plugin n (w_manager w')
    = Some (default ∅ (stored_config (_configs (w_manager w)) n)
            ∪ get_default_config inst)
  ∧ is_active n (w_manager w')
    = default false (stored_enabled (_configs (w_manager w)) n).
Proof.
  intros Hfile Hspec Hexec Hfind Hnew Hret n w'. subst n w'.
  destruct (restart_configs w _ Hfile) as (Hc & Hp & _).
  assert (Hfree : _plugins (w_manager (restart w)) !! name (get_meta inst) = None)
    by (by rewrite Hp, lookup_empty).
  split; [done|].
  split; [by apply (load_plugin_closed dir_name file namespace cls)|].
  split.
  { destruct (loaded_world_entry file inst (restart w)) as (e & He & Hi & _).
    unfold get_plugin. rewrite He. simpl. rewrite Hi. simpl. by rewrite Hc. }
  unfold loaded_world, is_active.
  rewrite (proj1 (emit_world_outside _ _ _)), Hc.
  set (n := name (get_meta inst)).
  set (w0 := with_manager _ (restart w)).
  assert (H0 : _plugins (w_manager w0) !! n
               = Some (fresh_entry file inst (w_manager (restart w))))
    by (unfold w0; simpl; by rewrite lookup_insert_eq).
  destruct (default false (stored_enabled (_configs (w_manager w)) n)).
  - rewrite (activate_plugin_success_run n _ w0 H0) by (done || apply Hret).
    simpl. rewrite activated_world_plugins by done.
    by rewrite lookup_insert_eq.
  - by rewrite H0.
Qed.

Lemma startup_restores_enabled_plugins_witness :
  is_active "p"
    (w_manager
       (_load_plugin "p" p_file
          (restart (activate_plugin "p" inactive_world).2)).2)
  = true.
Proof.
  destruct (startup_restores_enabled_plugins
              (activate_plugin "p" inactive_world).2 "p" p_file _ _
              two_listener_plugin eq_refl eq_refl eq_refl eq_refl eq_refl
              (λ _, eq_refl)) as (_ & Hrun & _ & Hact).
  rewrite Hrun. simpl snd.
  transitivity
    (default false
       (stored_enabled
          (_configs (w_manager (activate_plugin "p" inactive_world).2)) "p")).
  - exact Hact.
  - vm_compute. reflexivity.
Defined.

(** ** Discovery, continued *)

Lemma discover_candidates_cons cand rest w :
  discover_candidates (cand :: rest) w
  = if eligible cand
    then match cand_plugin_file cand with
         | Some file =>
             match _load_plugin (cand_name cand) file w with
             | (Ok _, w') => discover_candidates rest w'
             | (Exc e, w') =>
                 discover_candidates rest
                   (add_log (LoadFailed (cand_name cand) e) w')
             end
         | None => discover_candidates rest w
         end
    else discover_candidates rest w.
Proof.
  cbn [discover_candidates]. unfold eligible, mbind, M_bind at 1.
  destruct (cand_is_dir cand); cbn [negb andb]; [|done].
  destruct (startswith (cand_name cand) "_"); cbn [negb andb orb]; [done|].
  destruct (startswith (cand_name cand) "."); cbn [negb andb]; [done|].
  destruct (cand_plugin_file cand) as [file|]; [|done].
  rewrite bool_decide_eq_true_2 by by eexists.
  unfold try_except, logger.
  by destruct (_load_plugin (cand_name cand) file w) as [[[]|e] w'].
Qed.

Lemma discover_candidates_filter l w :
  discover_candidates l w = discover_candidates (filter (λ c, eligible c) l) w.
Proof.
  revert w. induction l as [|cand rest IH]; intros w; [done|].
  rewrite filter_cons. rewrite discover_candidates_cons.
  destruct (eligible cand) eqn:Hel.
  - rewrite decide_True by done. rewrite discover_candidates_cons, Hel.
    destruct (cand_plugin_file cand) as [file|]; [|apply IH].
    destruct (_load_plugin (cand_name cand) file w) as [[[]|e] w']; apply IH.
  - rewrite decide_False by (simpl; tauto). apply IH.
Qed.

Lemma discover_candidates_app l k w :
  discover_candidates (l ++ k) w
  = discover_candidates k (discover_candidates l w).2.
Proof.
  revert w. induction l as [|cand rest IH]; intros w; [done|].
  rewrite <- app_comm_cons, !discover_candidates_cons.
  destruct (eligible cand); [|apply IH].
  destruct (cand_plugin_file cand) as [file|]; [|apply IH].
  destruct (_load_plugin (cand_name cand) file w) as [[[]|e] w']; apply IH.
Qed.

(** X19.  Discovery sees only eligible units: directory entries that are
    not directories, whose name starts with an underscore or a dot, or that
    hold no [plugin.py], and plugin paths where nothing exists, have no
    effect whatever; the outcome is that of visiting the eligible entries in
    order.  A failure to list a path or to examine one of its entries ends
    the visit there: the eligible entries before that point are visited,
    then that exception is raised. *)
Theorem discovery_visits_eligible_units_only
    (plugin_dirs : list PluginDir) (w : World) :
  discover_plugins plugin_dirs w
  = let visited := discover_candidates (eligible_units plugin_dirs) w in
    match first_stop plugin_dirs with
    | None => visited
    | Some e => (Exc e, visited.2)
    end.
Proof.
  revert w. induction plugin_dirs as [|[|l|l e] rest IH]; intros w; [done| | |].
  - cbn [discover_plugins eligible_units first_stop]. apply IH.
  - cbn [discover_plugins eligible_units first_stop].
    unfold mbind, M_bind at 1.
    destruct (discover_candidates_run l w) as (w1 & Hrun & _).
    rewrite Hrun, IH. cbv zeta.
    by rewrite discover_candidates_app, <- discover_candidates_filter, Hrun.
  - cbn [discover_plugins eligible_units first_stop]. cbv zeta.
    unfold mbind, M_bind.
    destruct (discover_candidates_run l w) as (w1 & Hrun & _).
    by rewrite <- discover_candidates_filter, Hrun.
Qed.

Lemma discovery_visits_eligible_units_only_witness :
  cand_name <$> eligible_units [Missing; Listing shipped_listing] = ["ab"]
  ∧ discover_plugins [Missing; Listing shipped_listing] fresh_world
    = _load_plugin "ab" ab_file fresh_world
  ∧ discover_plugins
      [Missing; Stops shipped_listing "PermissionError"; Listing broken_then_ab]
      fresh_world
    = (Exc "PermissionError", (_load_plugin "ab" ab_file fresh_world).2).
Proof.
  split; [reflexivity|]. split.
  - rewrite (discovery_visits_eligible_units_only
               [Missing; Listing shipped_listing] fresh_world).
    vm_compute. reflexivity.
  - rewrite (discovery_visits_eligible_units_only
               [Missing; Stops shipped_listing "PermissionError";
                Listing broken_then_ab] fresh_world).
    vm_compute. reflexivity.
Defined.

(** ** Shutting down *)

Lemma deactivated_world_configs name entry w :
  _configs (w_manager (deactivated_world name entry w))
  = <[name := apply_update (SetEnabled false)
                (default empty_record (_configs (w_manager w) !! name))]>
      (_configs (w_manager w)).
Proof.
  unfold deactivated_world.
  rewrite (proj1 (emit_world_outside _ _ _)), update_config_world_configs.
  simpl.
  assert (Hm : ∀ (s : Script),
    w_manager match s.2 with
              | Returned => run_calls s.1 w
              | Raised msg =>
                  add_log (DeactivateHookFailed name msg) (run_calls s.1 w)
              end = w_manager w).
  { intros s. destruct s.2; simpl; apply run_calls_outside. }
  by rewrite Hm.
Qed.

Lemma deactivate_all_run keys w :
  (∀ n, n ∈ keys → is_Some (_plugins (w_manager w) !! n)) →
  ∃ w',
    deactivate_all keys w = (Ok (), w')
    ∧ (∀ k, is_Some (_plugins (w_manager w') !! k)
            ↔ is_Some (_plugins (w_manager w) !! k))
    ∧ (∀ k, k ∈ keys → is_active k (w_manager w') = false)
    ∧ (∀ k, is_active k (w_manager w) = false →
            is_active k (w_manager w') = false)
    ∧ (∀ k, k ∈ keys → is_active k (w_manager w) = true →
            stored_enabled (_configs (w_manager w')) k = Some false)
    ∧ (∀ k, stored_enabled (_configs (w_manager w)) k = Some false →
            stored_enabled (_configs (w_manager w')) k = Some false).
Proof.
  revert w. induction keys as [|name rest IH]; intros w Hkeys.
  - exists w. repeat split; try done.
    + intros k Hk. by apply elem_of_nil in Hk.
    + intros k Hk. by apply elem_of_nil in Hk.
  - destruct (Hkeys name) as [entry Hentry]; [left|].
    cbn [deactivate_all]. unfold mbind, M_bind at 1, get_manager.
    rewrite Hentry. unfold mbind, M_bind at 1.
    destruct (active entry) eqn:Hactive.
    + unfold mbind, M_bind at 1.
      rewrite (deactivate_plugin_run name entry w Hentry Hactive).
      cbv beta iota. unfold mret, M_ret at 1.
      pose proof (deactivated_world_plugins name entry w Hentry) as Hp.
      pose proof (deactivated_world_configs name entry w) as Hc.
      set (w1 := deactivated_world name entry w) in *.
      assert (Hdom : ∀ k, is_Some (_plugins (w_manager w1) !! k)
                          ↔ is_Some (_plugins (w_manager w) !! k)).
      { intros k. rewrite Hp. destruct (decide (name = k)) as [->|Hne].
        - rewrite lookup_insert_eq, Hentry. split; by eexists.
        - by rewrite lookup_insert_ne. }
      assert (Hname : is_active name (w_manager w1) = false).
      { unfold is_active. by rewrite Hp, lookup_insert_eq. }
      assert (Hother : ∀ k, is_active k (w_manager w) = false →
                            is_active k (w_manager w1) = false).
      { intros k Hk. destruct (decide (name = k)) as [->|Hne]; [done|].
        unfold is_active in *. by rewrite Hp, lookup_insert_ne. }
      assert (Hotherk : ∀ k, k ≠ name →
                is_active k (w_manager w1) = is_active k (w_manager w)).
      { intros k Hk. unfold is_active. by rewrite Hp, lookup_insert_ne. }
      assert (Hen : stored_enabled (_configs (w_manager w1)) name = Some false).
      { unfold stored_enabled. by rewrite Hc, lookup_insert_eq. }
      assert (Henk : ∀ k, stored_enabled (_configs (w_manager w)) k = Some false →
                stored_enabled (_configs (w_manager w1)) k = Some false).
      { intros k Hk. destruct (decide (name = k)) as [->|Hne]; [done|].
        unfold stored_enabled in *. by rewrite Hc, lookup_insert_ne. }
      destruct (IH w1) as (w' & Hrun & Hd & Hin & Hkeep & Hst & Hstk).
      { intros n Hn. apply Hdom, Hkeys. by right. }
      exists w'. split; [done|]. split; [|split; [|split; [|split]]].
      * intros k. by rewrite Hd, Hdom.
      * intros k [->|Hk]%elem_of_cons; [by apply Hkeep|by apply Hin].
      * intros k Hk. by apply Hkeep, Hother.
      * intros k [->|Hk]%elem_of_cons Hact; [by apply Hstk|].
        destruct (decide (k = name)) as [->|Hne]; [by apply Hstk|].
        apply Hst; [done|]. by rewrite Hotherk.
      * intros k Hk. by apply Hstk, Henk.
    + unfold mret, M_ret at 1. cbv beta iota.
      destruct (IH w) as (w' & Hrun & Hd & Hin & Hkeep & Hst & Hstk).
      { intros n Hn. apply Hkeys. by right. }
      exists w'. split; [done|]. split; [done|]. split; [|split; [done|split]].
      * intros k [->|Hk]%elem_of_cons; [|by apply Hin].
        apply Hkeep. unfold is_active. by rewrite Hentry.
      * intros k [->|Hk]%elem_of_cons Hact; [|by apply Hst].
        unfold is_active in Hact. rewrite Hentry in Hact. congruence.
      * done.
Qed.

(** X20.  [deactivate_all], run over the registered names in any order,
    returns normally and leaves no plugin active; every plugin that was
    active is stored as [enabled=false], and the set of registered plugins
    is unchanged. *)
Theorem deactivate_all_leaves_none_active (keys : list string) (w : World) :
  (∀ n, n ∈ keys ↔ is_Some (_plugins (w_manager w) !! n)) →
  ∃ w',
    deactivate_all keys w = (Ok (), w')
    ∧ (∀ k, is_active k (w_manager w') = false)
    ∧ (∀ k, is_active k (w_manager w) = true →
            stored_enabled (_configs (w_manager w')) k = Some false)
    ∧ (∀ k, is_Some (_plugins (w_manager w') !! k)
            ↔ is_Some (_plugins (w_manager w) !! k)).
Proof.
  intros Hkeys.
  destruct (deactivate_all_run keys w) as (w' & Hrun & Hd & Hin & Hkeep & Hst & _).
  { intros n Hn. by apply Hkeys. }
  exists w'. split; [done|]. split; [|split; [|done]].
  - intros k. destruct (_plugins (w_manager w) !! k) as [e|] eqn:Hk.
    + apply Hin, Hkeys. by rewrite Hk.
    + apply Hkeep. unfold is_active. by rewrite Hk.
  - intros k Hact. apply Hst; [|done]. apply Hkeys.
    unfold is_active in Hact.
    destruct (_plugins (w_manager w) !! k); [by eexists|discriminate].
Qed.

Lemma deactivate_all_leaves_none_active_witness :
  ∃ w',
    deactivate_all ["second"; "first"] two_active_world = (Ok (), w')
    ∧ (∀ k, is_active k (w_manager w') = false)
    ∧ (∀ k, is_active k (w_manager two_active_world) = true →
            stored_enabled (_configs (w_manager w')) k = Some false)
    ∧ (∀ k, is_Some (_plugins (w_manager w') !! k)
            ↔ is_Some (_plugins (w_manager two_active_world) !! k)).
Proof.
  apply (deactivate_all_leaves_none_active ["second"; "first"] two_active_world).
  intros n. rewrite !elem_of_cons, elem_of_nil. split.
  - intros [->|[->|[]]]; by eexists.
  - intros [e He]. unfold two_active_world in He.
    cbn [w_manager _plugins] in He.
    destruct (decide (n = "first")) as [->|H1]; [tauto|].
    destruct (decide (n = "second")) as [->|H2]; [tauto|].
    rewrite lookup_insert_ne in He by done.
    by rewrite lookup_singleton_ne in He.
Defined.

(** ** The scan for the plugin class *)



(** ** The specialised base classes *)

Lemma specialised_activate k m cb defaults c :
  activate (specialised k m cb defaults) c
  = ([CallOn (canonical_event k) cb (fixed_priority k) false (name m)], Returned)
  ∧ deactivate (specialised k m cb defaults) c = ([], Returned)
  ∧ name (get_meta (specialised k m cb defaults)) = name m
  ∧ plugin_type (get_meta (specialised k m cb defaults)) = type_name k.
Proof. by destruct k. Qed.

Lemma of_source_nil source l :
  (∀ x, x ∈ l → l_source x ≠ source) → of_source source l = [].
Proof. intros H. by apply filter_nil_not_elem_of. Qed.

(** X22.  A plugin built on [AnalyzerPlugin], [NudgePlugin] or
    [ReporterPlugin] reports the type of its base class, and activating it
    through the manager installs exactly one listener tagged with its name:
    on the base class's event (cycle complete, nudge triggered, review
    generated), with the base class's priority (50 for analyzers, 100
    otherwise), not one-shot.  A publish of that event then calls the
    plugin's callback, and deactivating the plugin removes the listener. *)
Theorem specialised_plugin_subscribes_once (w : World) (k : Specialisation)
    (m : PluginMeta) (cb : Handler) (defaults c : Config)
    (entry : PluginEntry) (data : option Data) :
  _plugins (w_manager w) !! name m = Some entry →
  instance entry = set_config c (specialised k m cb defaults) →
  active entry = false →
  no_listeners_of (name m) (w_bus w) →
  let n := name m in
  let mine := new_entry (canonical_event k) cb (fixed_priority k) false n in
  let w1 := (activate_plugin n w).2 in
  let w2 := (deactivate_plugin n w1).2 in
  plugin_type (get_meta (specialised k m cb defaults)) = type_name k
  ∧ (activate_plugin n w).1 = Ok true
  ∧ (∀ ev, of_source n (handlers_of (w_bus w1) ev)
           = if decide (ev = canonical_event k) then [mine] else [])
  ∧ call_of (canonical_event k) (default [] data) mine
    ∈ drop (length (w_calls w1))
        (w_calls (emit_world (canonical_event k) data w1))
  ∧ (deactivate_plugin n w1).1 = Ok true
  ∧ no_listeners_of n (w_bus w2).
Proof.
  intros Hentry Hinst Hactive Hnone n mine w1 w2.
  destruct (specialised_activate k m cb defaults c) as (Hact & Hdeact & Hname & Hty).
  assert (Hscript : activate (instance entry) (config (instance entry))
                    = ([CallOn (canonical_event k) cb (fixed_priority k) false n],
                       Returned)).
  { rewrite Hinst. simpl.
    apply (specialised_activate k m cb defaults). }
  assert (Hrun : activate_plugin n w = (Ok true, activated_world n entry w)).
  { apply activate_plugin_success_run; [done|done|by rewrite Hscript]. }
  assert (Hw1 : w1 = activated_world n entry w) by (unfold w1; by rewrite Hrun).
  assert (Hbus1 : ∀ ev, handlers_of (w_bus w1) ev
            = if decide (ev = "plugin.activated" ∨ ev = "*")
              then filter (λ h, l_id h
                             ∉ once_ids_of (all_handlers "plugin.activated"
                                 (on (canonical_event k) cb (fixed_priority k)
                                    false n (w_bus w)).2))
                     (handlers_of (on (canonical_event k) cb (fixed_priority k)
                                     false n (w_bus w)).2 ev)
              else handlers_of (on (canonical_event k) cb (fixed_priority k)
                                  false n (w_bus w)).2 ev).
  { intros ev. rewrite Hw1. unfold activated_world.
    rewrite handlers_of_emit, update_config_world_bus. simpl.
    rewrite Hscript. done. }
  assert (Hcanon : canonical_event k ≠ "plugin.activated"
                   ∧ canonical_event k ≠ "*") by (by destruct k).
  assert (Hmine : ∀ ev, of_source n (handlers_of (w_bus w1) ev)
            = if decide (ev = canonical_event k) then [mine] else []).
  { intros ev. rewrite Hbus1. destruct (decide (ev = canonical_event k)) as [->|Hne].
    - rewrite decide_False by tauto.
      rewrite handlers_of_on, decide_True by done.
      unfold of_source. rewrite filter_sort_by_priority, filter_app.
      fold (of_source n (handlers_of (w_bus w) (canonical_event k))).
      rewrite (of_source_nil n (handlers_of (w_bus w) (canonical_event k)))
        by apply Hnone.
      rewrite filter_cons_True by done. done.
    - apply of_source_nil. intros x Hx. apply (Hnone ev).
      case_decide.
      + apply list_elem_of_filter in Hx as [_ Hx].
        by rewrite handlers_of_on, decide_False in Hx.
      + by rewrite handlers_of_on, decide_False in Hx. }
  split; [done|]. split; [by rewrite Hrun|]. split; [exact Hmine|].
  split.
  { rewrite emit_world_calls, drop_app_length.
    apply list_elem_of_fmap. exists mine. split; [done|].
    apply elem_of_all_handlers. left.
    eapply (list_elem_of_filter (λ x, l_source x = n)).
    fold (of_source n (handlers_of (w_bus w1) (canonical_event k))).
    rewrite Hmine, decide_True by done. left. }
  assert (Hp1 : _plugins (w_manager w1) !! n
                = Some (set_error None (set_active true entry)))
    by (by rewrite Hw1, activated_world_plugins, lookup_insert_eq).
  assert (Hrun2 : deactivate_plugin n w1
                  = (Ok true, deactivated_world n _ w1))
    by (by apply deactivate_plugin_run).
  split; [by rewrite Hrun2|].
  unfold w2. rewrite Hrun2. simpl snd. unfold deactivated_world.
  apply no_listeners_emit. rewrite update_config_world_bus. simpl.
  apply no_listeners_off_all.
Qed.

Lemma specialised_plugin_subscribes_once_witness :
  (∀ ev, of_source "mood"
           (handlers_of (w_bus (activate_plugin "mood" analyzer_world).2) ev)
         = if decide (ev = "monitor.cycle_complete")
           then [new_entry "monitor.cycle_complete" (handler_at 1) 50 false "mood"]
           else [])
  ∧ c_handler
      <$> w_calls
            (emit_world "monitor.cycle_complete" None
               (activate_plugin "mood" analyzer_world).2)
    = [1; 8]%N.
Proof.
  destruct (specialised_plugin_subscribes_once analyzer_world Analyzer
              (meta_named "mood") (handler_at 1) ∅ ∅ _ None
              eq_refl eq_refl eq_refl) as (_ & _ & H & _).
  - intros ev x Hx. unfold handlers_of in Hx. simpl in Hx.
    destruct (decide ("monitor.cycle_complete" = ev)) as [<-|Hne].
    + rewrite lookup_insert_eq in Hx. simpl in Hx.
      apply list_elem_of_singleton in Hx as ->. simpl. intros [=].
    + rewrite lookup_insert_ne, lookup_empty in Hx by done.
      by apply elem_of_nil in Hx.
  - split; [exact H|]. vm_compute. reflexivity.
Defined.

(** * Unsubscribing by source, and the listing *)

Lemma EventBus_eq (b b' : EventBus) :
  _handlers b = _handlers b' →
  _event_history b = _event_history b' →
  _history_limit b = _history_limit b' →
  b = b'.
Proof. destruct b, b'. simpl. by intros -> -> ->. Qed.

Lemma filter_idemp {A : Type} (P : A → Prop) `{∀ x, Decision (P x)}
    (l : list A) :
  filter P (filter P l) = filter P l.
Proof. apply filter_all. by intros x [? _]%list_elem_of_filter. Qed.

Lemma lookup_off_source ev event source bus :
  _handlers (off event None (Some source) bus) !! ev
  = if decide (ev = event)
    then filter (λ e, l_source e ≠ source) <$> _handlers bus !! ev
    else _handlers bus !! ev.
Proof.
  unfold off. destruct (_handlers bus !! event) as [l|] eqn:Hl; simpl.
  - case_decide as Hev.
    + subst. by rewrite lookup_insert_eq, Hl.
    + by rewrite lookup_insert_ne.
  - case_decide as Hev; [|done]. subst. by rewrite Hl.
Qed.

Lemma off_outside event handler source bus :
  _event_history (off event handler source bus) = _event_history bus
  ∧ _history_limit (off event handler source bus) = _history_limit bus.
Proof.
  unfold off. destruct (_handlers bus !! event); [|done].
  by destruct handler, source.
Qed.

Lemma off_each_outside source events bus :
  _event_history (off_each source events bus) = _event_history bus
  ∧ _history_limit (off_each source events bus) = _history_limit bus.
Proof.
  unfold off_each. revert bus.
  induction events as [|ev events IH]; intros bus; [done|].
  cbn [foldl]. destruct (IH (off ev None (Some source) bus)) as [-> ->].
  apply off_outside.
Qed.

Lemma lookup_off_each source events bus ev :
  _handlers (off_each source events bus) !! ev
  = if decide (ev ∈ events)
    then filter (λ e, l_source e ≠ source) <$> _handlers bus !! ev
    else _handlers bus !! ev.
Proof.
  unfold off_each. revert bus.
  induction events as [|x events IH]; intros bus.
  - cbn [foldl]. rewrite decide_False; [done|]. apply not_elem_of_nil.
  - cbn [foldl]. rewrite IH, lookup_off_source.
    destruct (decide (ev = x)) as [->|Hne].
    + rewrite (decide_True (P := x ∈ x :: events)) by left.
      case_decide; [|done].
      destruct (_handlers bus !! x) as [l|]; [|done].
      simpl. by rewrite filter_idemp.
    + destruct (decide (ev ∈ events)) as [Hin|Hout].
      * rewrite decide_True; [done|]. by right.
      * rewrite decide_False; [done|].
        by intros [?|?]%elem_of_cons.
Qed.

(** X6.  [off_all(source)] does to the whole table what
    [off(event, source=source)] does to one event: calling the latter for
    every event of the table, in any order, with repetitions and with
    events the table does not know, leaves the bus exactly as one call of
    [off_all(source)] does. *)
Theorem off_all_is_off_on_every_event (bus : EventBus) (source : string)
    (events : list string) :
  (∀ ev, is_Some (_handlers bus !! ev) → ev ∈ events) →
  off_each source events bus = off_all source bus.
Proof.
  intros Hcover.
  destruct (off_each_outside source events bus) as [Hh Hl].
  apply EventBus_eq; [|done|done].
  apply map_eq. intros ev. rewrite lookup_off_each.
  unfold off_all. cbn [_handlers]. rewrite lookup_fmap.
  case_decide as Hin; [done|].
  destruct (_handlers bus !! ev) as [l|] eqn:Hev; [|done].
  destruct Hin. apply Hcover. by rewrite Hev.
Qed.

Lemma off_all_is_off_on_every_event_witness :
  off_each "a" ["f"; "x"; "*"; "e"; "f"]
    (w_bus (run_calls three_events fresh_world))
  = off_all "a" (w_bus (run_calls three_events fresh_world))
  ∧ l_id <$> handlers_of
               (off_each "a" ["f"; "x"; "*"; "e"; "f"]
                  (w_bus (run_calls three_events fresh_world))) "e"
    = ["e:2:b"].
Proof.
  assert (Hcover : ∀ ev,
    is_Some (_handlers (w_bus (run_calls three_events fresh_world)) !! ev) →
    ev ∈ ["f"; "x"; "*"; "e"; "f"]).
  { intros ev Hev.
    destruct (decide (ev = "f")) as [->|Hf]; [left|].
    destruct (decide (ev = "*")) as [->|Hs]; [do 2 right; left|].
    destruct (decide (ev = "e")) as [->|He]; [do 3 right; left|].
    exfalso. revert Hev. cbn.
    rewrite !lookup_insert_ne, lookup_empty by done. by intros [? [=]]. }
  split.
  - exact (off_all_is_off_on_every_event _ "a" _ Hcover).
  - rewrite (off_all_is_off_on_every_event _ "a" _ Hcover).
    vm_compute. reflexivity.
Defined.

Lemma rows_of_other event ev hs :
  ev ≠ event → rows_of event (listener_info ev <$> hs) = [].
Proof.
  intros Hne. unfold rows_of. induction hs as [|h hs IH]; [done|].
  rewrite fmap_cons, filter_cons, decide_False by done. exact IH.
Qed.

Lemma rows_of_same event hs :
  rows_of event (listener_info event <$> hs) = listener_info event <$> hs.
Proof.
  unfold rows_of. induction hs as [|h hs IH]; [done|].
  rewrite fmap_cons, filter_cons, decide_True by done. by rewrite IH.
Qed.

Lemma rows_of_table (kvs : list (string * list Entry)) event :
  NoDup kvs.*1 →
  rows_of event (kvs ≫= λ '(evt, hs), listener_info evt <$> hs)
  = listener_info event
      <$> default [] ((list_to_map kvs : gmap string (list Entry)) !! event).
Proof.
  induction kvs as [|[ev hs] kvs IH]; intros Hnd; [done|].
  rewrite fmap_cons in Hnd. apply NoDup_cons in Hnd as [Hfresh Hnd].
  cbn [mbind list_bind list_to_map foldr]. unfold rows_of.
  rewrite filter_app. fold (rows_of event (listener_info ev <$> hs)).
  fold (rows_of event (kvs ≫= λ '(evt, hs), listener_info evt <$> hs)).
  rewrite (IH Hnd).
  destruct (decide (ev = event)) as [->|Hne].
  - rewrite rows_of_same, lookup_insert_eq.
    rewrite (not_elem_of_list_to_map_1 kvs event Hfresh). simpl.
    by rewrite app_nil_r.
  - rewrite rows_of_other, lookup_insert_ne by done. done.
Qed.

(** X10.  The two modes of [get_listeners] agree, and the full listing has
    one row for each entry: for every event, the rows of [get_listeners()]
    that are filed under it are exactly the rows of its entries, one each,
    in the order of its list; and for a non-empty event name
    [get_listeners(event)] returns exactly those rows. *)
Theorem get_listeners_modes_agree (bus : EventBus) (event : string) :
  rows_of event (get_listeners None bus)
  = listener_info event <$> handlers_of bus event
  ∧ (event ≠ "" →
     get_listeners (Some event) bus
     = rows_of event (get_listeners None bus)).
Proof.
  assert (Hrows : rows_of event (get_listeners None bus)
                  = listener_info event <$> handlers_of bus event).
  { unfold get_listeners, handlers_of.
    rewrite rows_of_table by apply NoDup_fst_map_to_list.
    by rewrite list_to_map_to_list. }
  split; [done|].
  intros Hne. rewrite Hrows. unfold get_listeners. by rewrite decide_False.
Qed.

Lemma get_listeners_modes_agree_witness :
  get_listeners (Some "e") (w_bus (run_calls three_events fresh_world))
  = rows_of "e"
      (get_listeners None (w_bus (run_calls three_events fresh_world)))
  ∧ i_id <$> get_listeners (Some "e")
               (w_bus (run_calls three_events fresh_world))
    = ["e:2:b"; "e:1:a"]
  ∧ length (get_listeners None (w_bus (run_calls three_events fresh_world)))
    = 4%nat.
Proof.
  split; [|split].
  - apply (get_listeners_modes_agree
             (w_bus (run_calls three_events fresh_world)) "e").
    intros [=].
  - vm_compute. reflexivity.
  - vm_compute. reflexivity.
Defined.
